(** * Ref-Lex web extension: request orchestration layer

    A shallow embedding of the three cooperating pieces of the extension's
    background client,

    - [src/shared/rate-limiter.ts]        (module [Limiter]),
    - [src/shared/request-deduplicator.ts] (module [Dedup]),
    - [src/background/api.ts]              (module [Api]),

    and of the callers of the client in the background worker: the cache
    functions of its storage module and the message handlers of
    [src/background/service-worker.ts] (module [Worker]); followed by the
    properties established about them.

    Conventions of the embedding.

    - A JavaScript [number] that the code treats as a quantity of tokens is a
      rational ([Q]); clock readings ([Date.now()]), delays in milliseconds,
      the queue capacity and priorities are integers ([Z]).  Floating-point
      rounding is not modelled; [NaN] is modelled where the code can produce
      it ([parseInt]).
    - An [async] function runs synchronously up to its first suspension
      point.  The rate limiter and the deduplicator are therefore transition
      systems whose steps are the synchronous segments of the source, one
      event of the JavaScript event loop each.
    - A thrown value is an [Exn]; a promise settles to a [Settlement]. *)

From Stdlib Require Import ZArith QArith Qround Qminmax Qabs Lqa Lia.
From Stdlib Require Import String Ascii List Sorted Permutation.
From stdpp Require Import gmap strings list pretty.

Open Scope string_scope.
Open Scope Z_scope.

(* ===================================================================== *)
(** * Thrown values and promise settlements                               *)
(* ===================================================================== *)

(** The error classes the code distinguishes with [instanceof] or by
    [name].  The last four are the classes of [src/shared/types.ts]. *)
Inductive ErrorClass :=
| PlainError          (* new Error(...) *)
| TypeError
| RangeError
| SyntaxError
| AbortError          (* error.name === 'AbortError' *)
| ExtensionError
| AuthenticationError
| NetworkError
| ValidationError.

Record Exn := mkExn {
  cls : ErrorClass;
  message : string;
  code : option string;
  statusCode : option Z
}.

Global Instance ErrorClass_eq_dec : EqDecision ErrorClass.
Proof. solve_decision. Defined.

(** [error instanceof ExtensionError] *)
Definition instanceof_ExtensionError (e : Exn) : bool :=
  match cls e with
  | ExtensionError | AuthenticationError | NetworkError | ValidationError => true
  | _ => false
  end.

(** [error instanceof TypeError] *)
Definition instanceof_TypeError (e : Exn) : bool :=
  match cls e with TypeError => true | _ => false end.

(** Constructors of [src/shared/types.ts]. *)
Definition new_Error (msg : string) : Exn := mkExn PlainError msg None None.
Definition new_ExtensionError (msg : string) (c : option string) (sc : option Z) : Exn :=
  mkExn ExtensionError msg c sc.
Definition new_AuthenticationError (msg : string) : Exn :=
  mkExn AuthenticationError msg (Some "AUTH_ERROR") (Some 401).
Definition new_NetworkError (msg : string) : Exn :=
  mkExn NetworkError msg (Some "NETWORK_ERROR") None.
Definition new_ValidationError (msg : string) : Exn :=
  mkExn ValidationError msg (Some "VALIDATION_ERROR") (Some 400).

(** A decoded JSON value handed back to a caller, kept as its text. *)
Definition Value := string.

Inductive Settlement :=
| Resolved (v : Value)
| Rejected (e : Exn).

(** [interface ApiRequestOptions extends RequestInit]: the two flags, absent
    when the caller leaves them out, and the fields of [RequestInit] that
    the client's callers set. *)
Record ApiRequestOptions := mkOptions {
  skipAuth : option bool;
  retryOn401 : option bool;
  method : option string;
  req_headers : gmap string string;
  req_body : option string
}.

(** The thunks handed to [dedupe] and [throttle], as data:
    [ApiRequest e o] is [() => apiRequest(e, o)]; any other thunk is
    [Opaque]. *)
Inductive Thunk :=
| Opaque (n : nat)
| ApiRequest (endpoint : string) (options : ApiRequestOptions).

(* ===================================================================== *)
(** * The rate limiter ([src/shared/rate-limiter.ts])                     *)
(* ===================================================================== *)

Module Limiter.

Record RateLimiterConfig := {
  cfg_requestsPerMinute : option Q;
  cfg_maxQueueSize : option Z;
  cfg_minRequestDelay : option Z
}.

(** [QueuedRequest<T>].  [fn] names the thunk; [resolve] and [reject]
    belong to the promise that this call of [throttle] returned, which the
    model names by the request itself. *)
Record QueuedRequest := {
  fn : Thunk;
  priority : Z;
  timestamp : Z
}.

Record RateLimiter := mkRL {
  requestsPerMinute : Q;
  maxQueueSize : Z;
  minRequestDelay : Z;
  tokens : Q;
  maxTokens : Q;
  lastRefill : Z;
  queue : list QueuedRequest;
  processing : bool;
  totalRequests : Z;
  delayedRequests : Z;
  lastRequestTime : Z
}.

(** [x || d] on an optional number: [undefined] and [0] are falsy. *)
Definition orQ (x : option Q) (d : Q) : Q :=
  match x with
  | Some v => if Qeq_bool v 0 then d else v
  | None => d
  end.

Definition orZ (x : option Z) (d : Z) : Z :=
  match x with
  | Some v => if v =? 0 then d else v
  | None => d
  end.

(** [constructor(config)], at clock reading [now]. *)
Definition new_RateLimiter (config : RateLimiterConfig) (now : Z) : RateLimiter :=
  let rpm := orQ (cfg_requestsPerMinute config) 60%Q in
  {| requestsPerMinute := rpm;
     maxQueueSize := orZ (cfg_maxQueueSize config) 100;
     minRequestDelay := orZ (cfg_minRequestDelay config) 0;
     tokens := rpm;
     maxTokens := rpm;
     lastRefill := now;
     queue := [];
     processing := false;
     totalRequests := 0;
     delayedRequests := 0;
     lastRequestTime := 0 |}.

(** Field updates. *)
Definition set_tokens (t : Q) (s : RateLimiter) : RateLimiter :=
  mkRL (requestsPerMinute s) (maxQueueSize s) (minRequestDelay s) t (maxTokens s)
       (lastRefill s) (queue s) (processing s) (totalRequests s) (delayedRequests s)
       (lastRequestTime s).
Definition set_lastRefill (t : Z) (s : RateLimiter) : RateLimiter :=
  mkRL (requestsPerMinute s) (maxQueueSize s) (minRequestDelay s) (tokens s) (maxTokens s)
       t (queue s) (processing s) (totalRequests s) (delayedRequests s)
       (lastRequestTime s).
Definition set_queue (q : list QueuedRequest) (s : RateLimiter) : RateLimiter :=
  mkRL (requestsPerMinute s) (maxQueueSize s) (minRequestDelay s) (tokens s) (maxTokens s)
       (lastRefill s) q (processing s) (totalRequests s) (delayedRequests s)
       (lastRequestTime s).
Definition set_processing (b : bool) (s : RateLimiter) : RateLimiter :=
  mkRL (requestsPerMinute s) (maxQueueSize s) (minRequestDelay s) (tokens s) (maxTokens s)
       (lastRefill s) (queue s) b (totalRequests s) (delayedRequests s)
       (lastRequestTime s).
Definition set_totalRequests (n : Z) (s : RateLimiter) : RateLimiter :=
  mkRL (requestsPerMinute s) (maxQueueSize s) (minRequestDelay s) (tokens s) (maxTokens s)
       (lastRefill s) (queue s) (processing s) n (delayedRequests s)
       (lastRequestTime s).
Definition set_delayedRequests (n : Z) (s : RateLimiter) : RateLimiter :=
  mkRL (requestsPerMinute s) (maxQueueSize s) (minRequestDelay s) (tokens s) (maxTokens s)
       (lastRefill s) (queue s) (processing s) (totalRequests s) n
       (lastRequestTime s).
Definition set_lastRequestTime (t : Z) (s : RateLimiter) : RateLimiter :=
  mkRL (requestsPerMinute s) (maxQueueSize s) (minRequestDelay s) (tokens s) (maxTokens s)
       (lastRefill s) (queue s) (processing s) (totalRequests s) (delayedRequests s)
       t.

(** [const tokensToAdd = (elapsed * this.requestsPerMinute) / 60000] *)
Definition tokensToAdd (s : RateLimiter) (now : Z) : Q :=
  (inject_Z (now - lastRefill s) * requestsPerMinute s / 60000)%Q.

(** [refillTokens()] at clock reading [now]. *)
Definition refillTokens (s : RateLimiter) (now : Z) : RateLimiter :=
  let tta := tokensToAdd s now in
  if Qle_bool 1 tta
  then set_lastRefill now
         (set_tokens (Qmin (maxTokens s) (tokens s + inject_Z (Qfloor tta))%Q) s)
  else s.

(** A JavaScript number that may be [NaN] (the result of [parseInt]). *)
Definition number := option Q.

(** [new Date(ms).toISOString()] throws a [RangeError] unless [ms] is a
    time value: a number of magnitude at most 8.64e15. *)
Definition valid_time_value (ms : number) : bool :=
  match ms with
  | Some q => Qle_bool (Qabs q) 8640000000000000%Q
  | None => false
  end.

Definition invalid_time_value : Exn := mkExn RangeError "Invalid time value" None None.

(** [updateFromHeaders(limit, remaining, reset)].  The debug line formats
    [new Date(reset * 1000).toISOString()] before anything else; a
    comparison with [NaN] is false. *)
Definition updateFromHeaders (s : RateLimiter) (limit remaining reset : number)
  : Exn + RateLimiter :=
  if valid_time_value (option_map (fun r => (r * 1000)%Q) reset)
  then inr (match limit, remaining with
            | Some l, Some r =>
                if Qlt_le_dec r (l * (1 # 10))%Q
                then set_tokens (Qmin (tokens s) r) s
                else s
            | _, _ => s
            end)
  else inl invalid_time_value.

(** [isThrottled()], [getQueueSize()] *)
Definition isThrottled (s : RateLimiter) : bool :=
  match queue s with [] => false | _ => true end.
Definition getQueueSize (s : RateLimiter) : nat := length (queue s).

(** [reset()] at clock reading [now]. *)
Definition reset (s : RateLimiter) (now : Z) : RateLimiter :=
  set_processing false (set_lastRefill now (set_tokens (maxTokens s) (set_queue [] s))).

(** [this.queue.sort((a, b) => b.priority - a.priority)].
    [Array.prototype.sort] is stable; a stable sort by a total preorder has
    one result, here computed by insertion from the right. *)
Fixpoint insert_by_priority (r : QueuedRequest) (l : list QueuedRequest)
  : list QueuedRequest :=
  match l with
  | [] => [r]
  | x :: l' =>
      if priority r <? priority x
      then x :: insert_by_priority r l'
      else r :: x :: l'
  end.

Definition sort_queue (l : list QueuedRequest) : list QueuedRequest :=
  foldr insert_by_priority [] l.

(** ** The queue-draining loop as a transition system

    [processQueue] suspends at three places.  A suspended activation of it
    is one of: *)
Inductive Cont :=
| KSleepToken (until : Z)          (* await this.sleep(timeForNextToken); continue *)
| KSleepDelay (until : Z)          (* await this.sleep(delay) *)
| KAwaitFn (r : QueuedRequest).    (* await request.fn() *)

(** The system: the limiter object, the suspended activations of
    [processQueue], and two observation logs: the requests whose [fn] has
    been called, oldest first, and the settlements delivered to [throttle]
    callers, oldest first. *)
Record Sys := mkSys {
  rl : RateLimiter;
  drainers : list Cont;
  started : list QueuedRequest;
  settled : list (QueuedRequest * Settlement)
}.

(** [Math.ceil(1 / tokensPerMs)] with [tokensPerMs = requestsPerMinute / 60000] *)
Definition timeForNextToken (s : RateLimiter) : Z :=
  Qceiling (1 / (requestsPerMinute s / 60000))%Q.

(** From [this.queue.sort] to [await request.fn()] (lines 142-164). *)
Definition dispatch (y : Sys) (now : Z) : Sys * option Cont :=
  let s := rl y in
  match sort_queue (queue s) with
  | [] =>
      (* request undefined: break; this.processing = false *)
      (mkSys (set_processing false (set_queue [] s)) (drainers y) (started y) (settled y),
       None)
  | request :: rest =>
      let s1 := set_queue rest s in
      let s2 := set_tokens (tokens s1 - 1)%Q s1 in
      let s3 := set_lastRequestTime now s2 in
      let s4 := set_totalRequests (totalRequests s3 + 1) s3 in
      let s5 := if 100 <? now - timestamp request
                then set_delayedRequests (delayedRequests s4 + 1) s4
                else s4 in
      (mkSys s5 (drainers y) (started y ++ [request]) (settled y),
       Some (KAwaitFn request))
  end.

(** One turn of the [while] loop from its head (lines 118-140), up to the
    next suspension or to the end of the loop. *)
Definition loop_head (y : Sys) (now : Z) : Sys * option Cont :=
  let s := rl y in
  match queue s with
  | [] => (mkSys (set_processing false s) (drainers y) (started y) (settled y), None)
  | _ :: _ =>
      let s1 := refillTokens s now in
      let y1 := mkSys s1 (drainers y) (started y) (settled y) in
      if Qlt_le_dec (tokens s1) 1
      then (y1, Some (KSleepToken (now + timeForNextToken s1)))
      else
        if (0 <? minRequestDelay s1) && (now - lastRequestTime s1 <? minRequestDelay s1)
        then (y1, Some (KSleepDelay (now + (minRequestDelay s1 - (now - lastRequestTime s1)))))
        else dispatch y1 now
  end.

(** Outcome of a call of [throttle]: the returned promise is rejected at
    once, or it is pending until the drain loop settles it. *)
Inductive ThrottleResult :=
| ThrottleRejected (e : Exn)
| ThrottlePending.

Definition queue_full_error : Exn :=
  new_Error "Rate limiter queue is full. Please try again later.".

Definition add_drainer (p : Sys * option Cont) : Sys :=
  match p with
  | (y, Some k) => mkSys (rl y) (drainers y ++ [k]) (started y) (settled y)
  | (y, None) => y
  end.

(** [processQueue()] called from [throttle]. *)
Definition processQueue (y : Sys) (now : Z) : Sys :=
  if processing (rl y) then y
  else add_drainer
         (loop_head (mkSys (set_processing true (rl y)) (drainers y) (started y) (settled y)) now).

(** [throttle(fn, priority)] at clock reading [now]. *)
Definition throttle (y : Sys) (f : Thunk) (prio : Z) (now : Z) : ThrottleResult * Sys :=
  let s := rl y in
  if maxQueueSize s <=? Z.of_nat (length (queue s))
  then (ThrottleRejected queue_full_error, y)
  else
    let request := {| fn := f; priority := prio; timestamp := now |} in
    let y1 := mkSys (set_queue (queue s ++ [request]) s) (drainers y) (started y) (settled y) in
    (ThrottlePending, processQueue y1 now).

(** Events of the event loop that concern the limiter. *)
Inductive Event :=
| EThrottle (f : Thunk) (prio : Z) (now : Z)
| EWake (i : nat) (now : Z)                   (* the timer of activation [i] fires *)
| ESettle (i : nat) (out : Settlement) (now : Z)  (* the promise of activation [i]'s fn() settles *)
| EUpdateFromHeaders (limit remaining reset : number)
| EReset (now : Z).

Definition replace_drainer (i : nat) (p : Sys * option Cont) : Sys :=
  match p with
  | (y, Some k) => mkSys (rl y) (<[i := k]> (drainers y)) (started y) (settled y)
  | (y, None) => mkSys (rl y) (delete i (drainers y)) (started y) (settled y)
  end.

(** One event.  [None] when the event cannot happen in this state: no such
    activation, a timer before its time, a settlement for an activation
    that is not awaiting one. *)
Definition step (y : Sys) (e : Event) : option Sys :=
  match e with
  | EThrottle f prio now => Some (snd (throttle y f prio now))
  | EWake i now =>
      match drainers y !! i with
      | Some (KSleepToken until) =>
          if until <=? now then Some (replace_drainer i (loop_head y now)) else None
      | Some (KSleepDelay until) =>
          if until <=? now then Some (replace_drainer i (dispatch y now)) else None
      | _ => None
      end
  | ESettle i out now =>
      match drainers y !! i with
      | Some (KAwaitFn r) =>
          (* request.resolve(result) or request.reject(error), then the loop head *)
          let y1 := mkSys (rl y) (drainers y) (started y) (settled y ++ [(r, out)]) in
          Some (replace_drainer i (loop_head y1 now))
      | _ => None
      end
  | EUpdateFromHeaders limit remaining reset =>
      match updateFromHeaders (rl y) limit remaining reset with
      | inr s => Some (mkSys s (drainers y) (started y) (settled y))
      | inl _ => Some y
      end
  | EReset now => Some (mkSys (reset (rl y) now) (drainers y) (started y) (settled y))
  end.

Fixpoint run (y : Sys) (evs : list Event) : option Sys :=
  match evs with
  | [] => Some y
  | e :: evs' =>
      match step y e with
      | Some y' => run y' evs'
      | None => None
      end
  end.

Definition new_Sys (config : RateLimiterConfig) (now : Z) : Sys :=
  mkSys (new_RateLimiter config now) [] [] [].

(** [export const globalRateLimiter = new RateLimiter({...})] *)
Definition globalConfig : RateLimiterConfig :=
  {| cfg_requestsPerMinute := Some 60%Q;
     cfg_maxQueueSize := Some 100;
     cfg_minRequestDelay := Some 100 |}.

(** ** Notions used to state the properties of the limiter *)

(** An activation of [processQueue] suspended in the minimum-delay wait
    (line 138), between the token check and the consumption. *)
Definition is_delay (k : Cont) : bool :=
  match k with KSleepDelay _ => true | _ => false end.

Definition delaying (y : Sys) : bool := existsb is_delay (drainers y).

(** Event [e] does not disturb state [y].  A header update that lowers the
    token count (its remaining quota is below a tenth of its limit) reports
    a remaining quota of at least 0, and of at least 1 while an activation
    is in the minimum-delay wait; during such a wait [reset()] is not
    called and no other activation of [processQueue] resumes.  Calls of
    [throttle] never disturb. *)
Definition undisturbed (y : Sys) (e : Event) : bool :=
  match e with
  | EThrottle _ _ _ => true
  | EWake i _ =>
      negb (delaying y) ||
      match drainers y !! i with
      | Some (KSleepDelay _) => true
      | _ => false
      end
  | ESettle _ _ _ => negb (delaying y)
  | EUpdateFromHeaders (Some l) (Some r) _ =>
      if Qlt_le_dec r (l * (1 # 10))%Q
      then Qle_bool (if delaying y then 1 else 0) r
      else true
  | EUpdateFromHeaders _ _ _ => true
  | EReset _ => negb (delaying y)
  end.

Fixpoint undisturbed_run (y : Sys) (evs : list Event) : bool :=
  match evs with
  | [] => true
  | e :: evs' =>
      undisturbed y e &&
      match step y e with
      | Some y' => undisturbed_run y' evs'
      | None => true
      end
  end.

Definition nondelay (k : Cont) : Prop := is_delay k = false.

(** The activations after one of them has moved on to [k]. *)
Definition placed (l : list Cont) (k : option Cont) : Prop :=
  match k with
  | Some (KSleepDelay _) => exists i, Forall nondelay (delete i l)
  | _ => Forall nondelay l
  end.

(** The invariant behind the lower bound: a request waits only while the
    [processing] flag is up; at most one activation is in the minimum-delay
    wait, and then a whole token and a request are there for it. *)
Definition busy (s : RateLimiter) : Prop := queue s <> [] -> processing s = true.

Definition Inv (y : Sys) : Prop :=
  (0 <= maxTokens (rl y))%Q /\ (0 <= tokens (rl y))%Q /\ busy (rl y) /\
  (delaying y = true ->
   (1 <= tokens (rl y))%Q /\ queue (rl y) <> [] /\
   exists i, Forall nondelay (delete i (drainers y))).

Definition by_priority_desc (a b : QueuedRequest) : Prop := priority b <= priority a.
Definition has_priority (p : Z) (r : QueuedRequest) : bool := priority r =? p.

(** An event that adds nothing to the queue and does not empty it. *)
Definition no_arrival (e : Event) : bool :=
  match e with
  | EThrottle _ _ _ | EReset _ => false
  | _ => true
  end.

Definition no_reset (e : Event) : bool :=
  match e with
  | EReset _ => false
  | _ => true
  end.

(** The request that event [e] puts in the queue, if it does. *)
Definition accepted (y : Sys) (e : Event) : list QueuedRequest :=
  match e with
  | EThrottle f prio now =>
      if maxQueueSize (rl y) <=? Z.of_nat (length (queue (rl y)))
      then []
      else [{| fn := f; priority := prio; timestamp := now |}]
  | _ => []
  end.

(** The requests that the calls of [throttle] in [evs] put in the queue. *)
Fixpoint enqueued (y : Sys) (evs : list Event) : list QueuedRequest :=
  match evs with
  | [] => []
  | e :: evs' =>
      (accepted y e ++
       match step y e with
       | Some y' => enqueued y' evs'
       | None => []
       end)%list
  end.

(** The requests of priority [p], started or waiting, in the order in which
    they are or will be started. *)
Definition lane (p : Z) (y : Sys) : list QueuedRequest :=
  List.filter (has_priority p) (started y ++ queue (rl y)).

(** From [y] to [y'] the first [n] requests of the sorted queue have been
    started, and the rest is what waits. *)
Definition advanced (n : nat) (y y' : Sys) : Prop :=
  started y' = (started y ++ take n (sort_queue (queue (rl y))))%list /\
  sort_queue (queue (rl y')) = drop n (sort_queue (queue (rl y))).

(** Following the specification's words: the refill adds [tokensToAdd]
    itself, clamped to [maxTokens]. *)
Definition refillTokens_as_specified (s : RateLimiter) (now : Z) : RateLimiter :=
  let tta := tokensToAdd s now in
  if Qle_bool 1 tta
  then set_lastRefill now (set_tokens (Qmin (maxTokens s) (tokens s + tta)%Q) s)
  else s.

(** ** Concrete runs of [globalRateLimiter], created at clock reading 1000 *)

Definition after (evs : list Event) : Sys :=
  default (new_Sys globalConfig 1000) (run (new_Sys globalConfig 1000) evs).

Definition resolved : Settlement := Resolved "null".

(** A header update arrives while the drain loop sits in its minimum-delay
    wait for the second request. *)
Definition race_trace : list Event :=
  [ EThrottle (Opaque 1) 0 1000;
    ESettle 0 resolved 1010;
    EThrottle (Opaque 2) 0 1020;
    EUpdateFromHeaders (Some 100%Q) (Some 0%Q) (Some 1700000000%Q);
    EWake 0 1100 ].

(** The same events with the header update after the wait. *)
Definition calm_trace : list Event :=
  [ EThrottle (Opaque 1) 0 1000;
    ESettle 0 resolved 1010;
    EThrottle (Opaque 2) 0 1020;
    EWake 0 1100;
    EUpdateFromHeaders (Some 100%Q) (Some 0%Q) (Some 1700000000%Q);
    ESettle 0 resolved 1200 ].

(** One request per minute, 100 ms between requests.  After a [reset()]
    a second activation of [processQueue] starts while the first awaits
    its request; the first resumes while the second is in its
    minimum-delay wait, and waits as well. *)
Definition one_per_minute : RateLimiterConfig :=
  {| cfg_requestsPerMinute := Some 1%Q;
     cfg_maxQueueSize := None;
     cfg_minRequestDelay := Some 100 |}.

Definition two_loops_trace : list Event :=
  [ EThrottle (Opaque 1) 0 1000;
    EReset 1010;
    EThrottle (Opaque 2) 0 1020;
    EThrottle (Opaque 3) 0 1030;
    ESettle 0 resolved 1040;
    EWake 0 1100;
    EWake 1 1100 ].

(** Calls of [throttle] and a header update that leaves five requests
    during the wait; the update that leaves none after it. *)
Definition busy_trace : list Event :=
  [ EThrottle (Opaque 1) 0 1000;
    ESettle 0 resolved 1010;
    EThrottle (Opaque 2) 0 1020;
    EThrottle (Opaque 3) 0 1030;
    EUpdateFromHeaders (Some 100%Q) (Some 5%Q) (Some 1700000000%Q);
    EThrottle (Opaque 4) 5 1040;
    EWake 0 1100;
    EUpdateFromHeaders (Some 100%Q) (Some 0%Q) (Some 1700000000%Q);
    ESettle 0 resolved 1200 ].

(** Priorities 1, 5, 3 queued in that order behind a running request. *)
Definition queued_1_5_3 : list Event :=
  [ EThrottle (Opaque 0) 0 1000;
    EThrottle (Opaque 1) 1 1001;
    EThrottle (Opaque 2) 5 1002;
    EThrottle (Opaque 3) 3 1003 ].

Definition drain_3 : list Event :=
  [ ESettle 0 resolved 1200;
    ESettle 0 resolved 1400;
    ESettle 0 resolved 1600 ].

(** A, then B, of equal priority, queued behind a running request. *)
Definition queued_A_B : list Event :=
  [ EThrottle (Opaque 0) 0 1000;
    EThrottle (Opaque 10) 7 1001;
    EThrottle (Opaque 11) 7 1002 ].

Definition drain_2 : list Event :=
  [ ESettle 0 resolved 1200;
    ESettle 0 resolved 1400 ].

(** A limiter with room for one waiting request, and its queue full. *)
Definition small_queue : RateLimiterConfig :=
  {| cfg_requestsPerMinute := Some 60%Q;
     cfg_maxQueueSize := Some 1;
     cfg_minRequestDelay := None |}.

Definition full_queue : Sys :=
  default (new_Sys small_queue 0)
          (run (new_Sys small_queue 0)
               [EThrottle (Opaque 0) 0 10; EThrottle (Opaque 1) 0 11]).

Definition ten_tokens_left : RateLimiter :=
  set_tokens 10%Q (new_RateLimiter globalConfig 0).

(** ** Further definitions *)

(** [getStats()] *)
Record Stats := mkStats {
  stats_totalRequests : Z;
  stats_delayedRequests : Z;
  stats_queueSize : nat;
  stats_tokens : Z;
  stats_maxTokens : Q
}.

Definition getStats (s : RateLimiter) : Stats :=
  {| stats_totalRequests := totalRequests s;
     stats_delayedRequests := delayedRequests s;
     stats_queueSize := length (queue s);
     stats_tokens := Qfloor (tokens s);
     stats_maxTokens := maxTokens s |}.

(** The activations of [processQueue] agree with the [processing] flag:
    one activation while the flag is set, none and nothing waiting while it
    is not. *)
Definition one_loop (y : Sys) : Prop :=
  (processing (rl y) = true /\ length (drainers y) = 1%nat) \/
  (processing (rl y) = false /\ drainers y = [] /\ queue (rl y) = []).

(** An activation waiting for a token. *)
Definition is_token_wait (k : Cont) : bool :=
  match k with KSleepToken _ => true | _ => false end.

(** A limiter with requests waiting behind a running one, and the events
    after its [reset()]. *)
Definition before_reset : Sys := after queued_1_5_3.

Definition after_reset : list Event :=
  [ EThrottle (Opaque 9) 0 1300; ESettle 0 resolved 1400; ESettle 0 resolved 1500 ].

(** Only requests that were started are awaited or have settled. *)
Definition awaited_started (l : list QueuedRequest) (k : Cont) : Prop :=
  match k with
  | KAwaitFn r => In r l
  | _ => True
  end.

Definition awaited_opt (l : list QueuedRequest) (k : option Cont) : Prop :=
  match k with
  | Some c => awaited_started l c
  | None => True
  end.

Definition only_started (y : Sys) : Prop :=
  Forall (fun x => In (fst x) (started y)) (settled y) /\
  Forall (awaited_started (started y)) (drainers y).

(** A limiter allowed one request every two minutes. *)
Definition half_a_request : RateLimiterConfig :=
  {| cfg_requestsPerMinute := Some (1 # 2)%Q;
     cfg_maxQueueSize := None;
     cfg_minRequestDelay := None |}.

(** A request made of it, and the two timers that follow. *)
Definition four_minutes : list Event :=
  [ EThrottle (Opaque 1) 0 10; EWake 0 120010; EWake 0 240010 ].

(** [globalRateLimiter] with its bucket empty, one second after the last
    refill, with a request waiting. *)
Definition drained : Sys :=
  mkSys (set_queue [{| fn := Opaque 1; priority := 0; timestamp := 1000 |}]
           (set_tokens 0%Q (new_RateLimiter globalConfig 0)))
        [] [] [].
(** The part of the state that the statistics and the queue bound are
    about. *)
Definition accounted (y : Sys) : Prop :=
  totalRequests (rl y) = Z.of_nat (length (started y)) /\
  (0 <= delayedRequests (rl y) <= totalRequests (rl y)) /\
  (Z.of_nat (length (queue (rl y))) <= Z.max 0 (maxQueueSize (rl y))).

(** The [readonly] fields of the class, and [maxTokens]. *)
Definition same_config (s s' : RateLimiter) : Prop :=
  requestsPerMinute s' = requestsPerMinute s /\
  maxQueueSize s' = maxQueueSize s /\
  minRequestDelay s' = minRequestDelay s /\
  maxTokens s' = maxTokens s.

(** A limiter that cannot hold a whole token: nothing has been started and
    every activation waits for a token. *)
Definition starved (y : Sys) : Prop :=
  (maxTokens (rl y) < 1)%Q /\ (tokens (rl y) <= maxTokens (rl y))%Q /\
  Forall (fun k => is_token_wait k = true) (drainers y) /\
  started y = [] /\ settled y = [].

End Limiter.

(* ===================================================================== *)
(** * The request deduplicator ([src/shared/request-deduplicator.ts])     *)
(* ===================================================================== *)

Module Dedup.

(** The two maps of the class.  A promise is named by a number; the promise
    stored under a key is [fn().finally(...)], one per call of a supplier. *)
Record RequestDeduplicator := mkDD {
  pending : gmap string nat;
  requestCounts : gmap string nat
}.

(** The deduplicator together with what the event loop holds for it:

    - [inflight]: the supplier promises that have not settled yet, each with
      the [key] its [finally] callback captured and the supplier that made
      it;
    - [next]: the name of the next promise to be created;
    - [results]: the settled promises, as their holders observe them;
    - [invoked]: the calls of suppliers, oldest first, as (key, supplier);
    - [returned]: what each call of [dedupe] returned, oldest first, as
      (key, promise). *)
Record Sys := mkSys {
  dd : RequestDeduplicator;
  inflight : gmap nat (string * Thunk);
  next : nat;
  results : gmap nat Settlement;
  invoked : list (string * Thunk);
  returned : list (string * nat)
}.

Definition empty : Sys := mkSys (mkDD ∅ ∅) ∅ 0%nat ∅ [] [].

(** [(this.requestCounts.get(key) || 1)] *)
Definition count_or_1 (c : option nat) : nat :=
  match c with
  | Some (S n) => S n
  | _ => 1%nat
  end.

(** [dedupe(key, fn)]: the promise handed to the caller and the new state.
    [dedupe] is an [async] function, so what its caller holds is a promise
    that adopts the one named here and settles as it does; [observe] below
    is what such a holder sees.  A supplier is taken to return its promise,
    as its type [() => Promise<T>] says: the suppliers of [api.ts] are
    [async] functions, which never throw before returning one. *)
Definition dedupe (y : Sys) (key : string) (f : Thunk) : nat * Sys :=
  let d := dd y in
  match pending d !! key with
  | Some p =>
      (* this.pending.has(key): count up and return this.pending.get(key) *)
      let count := (count_or_1 (requestCounts d !! key) + 1)%nat in
      (p, mkSys (mkDD (pending d) (<[key := count]> (requestCounts d)))
                (inflight y) (next y) (results y) (invoked y)
                (returned y ++ [(key, p)]))
  | None =>
      (* requestCounts.set(key, 1); promise = fn().finally(...); pending.set(key, promise) *)
      let p := next y in
      (p, mkSys (mkDD (<[key := p]> (pending d)) (<[key := 1%nat]> (requestCounts d)))
                (<[p := (key, f)]> (inflight y)) (S p) (results y)
                (invoked y ++ [(key, f)])
                (returned y ++ [(key, p)]))
  end.

(** The supplier promise [p] settles with [out]: the [finally] callback
    runs, then the stored promise settles the same way. *)
Definition settle (y : Sys) (p : nat) (out : Settlement) : option Sys :=
  match inflight y !! p with
  | Some (key, _) =>
      let d := dd y in
      Some (mkSys (mkDD (delete key (pending d)) (delete key (requestCounts d)))
                  (delete p (inflight y)) (next y)
                  (<[p := out]> (results y)) (invoked y) (returned y))
  | None => None
  end.

(** [isPending(key)], [getPendingCount()], [clear()], [getStats().keys] *)
Definition isPending (y : Sys) (key : string) : bool :=
  bool_decide (is_Some (pending (dd y) !! key)).
Definition getPendingCount (y : Sys) : nat := size (pending (dd y)).
Definition clear (y : Sys) : Sys :=
  mkSys (mkDD ∅ ∅) (inflight y) (next y) (results y) (invoked y) (returned y).
Definition getStats_keys (y : Sys) : list string := (map_to_list (pending (dd y))).*1.

Inductive Event :=
| EDedupe (key : string) (f : Thunk)
| ESettle (p : nat) (out : Settlement)
| EClear.

Definition step (y : Sys) (e : Event) : option Sys :=
  match e with
  | EDedupe key f => Some (snd (dedupe y key f))
  | ESettle p out => settle y p out
  | EClear => Some (clear y)
  end.

Fixpoint run (y : Sys) (evs : list Event) : option Sys :=
  match evs with
  | [] => Some y
  | e :: evs' =>
      match step y e with
      | Some y' => run y' evs'
      | None => None
      end
  end.

(** What the holder of promise [p] observes. *)
Definition observe (y : Sys) (p : nat) : option Settlement := results y !! p.

(** Every registered promise is in flight under its key, and promise names
    below [next] are the only ones in use.  Holds of [empty] and is kept by
    every event. *)
Definition wf (y : Sys) : Prop :=
  map_Forall (fun key p => fst <$> inflight y !! p = Some key) (pending (dd y)) /\
  map_Forall (fun p _ => (p < next y)%nat) (inflight y) /\
  map_Forall (fun p _ => (p < next y)%nat) (results y).

(** Every promise in flight is the one registered under its key.  Holds of
    [empty] and is kept by every event but [clear]. *)
Definition coherent (y : Sys) : Prop :=
  map_Forall (fun p kf => pending (dd y) !! fst kf = Some p) (inflight y).

Global Instance wf_dec y : Decision (wf y).
Proof. unfold wf. apply _. Defined.
Global Instance coherent_dec y : Decision (coherent y).
Proof. unfold coherent. apply _. Defined.

(** An event other than [clear()] and other than the settlement of [p]. *)
Definition leaves_unsettled (p : nat) (e : Event) : bool :=
  match e with
  | EDedupe _ _ => true
  | ESettle q _ => negb (q =? p)%nat
  | EClear => false
  end.

(** ** Notions used to state the properties of the deduplicator *)


Definition key_is {A} (k : string) (x : string * A) : bool := String.eqb (fst x) k.

(** The calls of [dedupe] with key [k] among [evs]. *)
Definition calls (k : string) (evs : list Event) : nat :=
  length (List.filter (fun e => match e with
                                | EDedupe k' _ => String.eqb k' k
                                | _ => false
                                end) evs).

(** Promise [p], made by supplier [f], is the one registered under [k]. *)
Definition registered (k : string) (p : nat) (f : Thunk) (y : Sys) : Prop :=
  wf y /\ coherent y /\ pending (dd y) !! k = Some p /\ inflight y !! p = Some (k, f).

(** Promise [p] has settled. *)
Definition retired (p : nat) (y : Sys) : Prop :=
  wf y /\ inflight y !! p = None /\ (p < next y)%nat.

(** ** Concrete runs *)

Definition first_call : nat * Sys := dedupe empty "projects:list" (Opaque 1).

Definition two_more_callers : list Event :=
  [ EDedupe "projects:list" (Opaque 2);
    EDedupe "auth:check" (Opaque 3);
    EDedupe "projects:list" (Opaque 4) ].




(** ** Further definitions *)

(** [getStats()] *)
Record Stats := mkStats {
  stats_pending : nat;
  stats_keys : list string
}.

Definition getStats (y : Sys) : Stats :=
  {| stats_pending := size (pending (dd y)); stats_keys := getStats_keys y |}.

Definition not_clear (e : Event) : bool :=
  match e with EClear => false | _ => true end.

(** The calls of [dedupe] with key [k] that were handed promise [p]. *)
Definition holders (k : string) (p : nat) (y : Sys) : nat :=
  length (List.filter (fun x => String.eqb (fst x) k && (snd x =? p)%nat) (returned y)).

(** [requestCounts] has the keys of [pending], and holds for each the number
    of calls that were handed the pending promise. *)
Definition counted (y : Sys) : Prop :=
  (forall k, requestCounts (dd y) !! k =
             (fun p => holders k p y) <$> pending (dd y) !! k) /\
  (forall k p, pending (dd y) !! k = Some p -> (1 <= holders k p y)%nat) /\
  Forall (fun x => (snd x < next y)%nat) (returned y).

(** Three callers of the project list and one of the account, none of the
    requests settled. *)
Definition four_calls : list Event :=
  EDedupe "projects:list" (Opaque 1) :: two_more_callers.

Definition four_calls_made : Sys := default empty (run empty four_calls).

(** ** Suppliers that throw

    [dedupe] calls its supplier at line 49, after it has set the count of
    the key at line 47 and before it stores the promise at line 63.  When
    the supplier throws instead of returning a promise, the count is left
    behind, nothing is registered, and the promise of the [async] function
    [dedupe], here a new name, is rejected with the error.  With a request
    pending under the key the supplier is not called. *)
Definition dedupe_thrown (y : Sys) (key : string) (f : Thunk) (e : Exn) : nat * Sys :=
  let d := dd y in
  match pending d !! key with
  | Some _ => dedupe y key f
  | None =>
      let p := next y in
      (p, mkSys (mkDD (pending d) (<[key := 1%nat]> (requestCounts d)))
                (inflight y) (S p) (<[p := Rejected e]> (results y))
                (invoked y ++ [(key, f)])
                (returned y ++ [(key, p)]))
  end.

(** The events of [Event], and calls of [dedupe] whose supplier throws [e]
    when it is called. *)
Inductive EventX :=
| Usual (e : Event)
| EDedupeThrown (key : string) (f : Thunk) (e : Exn).

Definition step_x (y : Sys) (e : EventX) : option Sys :=
  match e with
  | Usual e => step y e
  | EDedupeThrown key f e => Some (snd (dedupe_thrown y key f e))
  end.

Fixpoint run_x (y : Sys) (evs : list EventX) : option Sys :=
  match evs with
  | [] => Some y
  | e :: evs' =>
      match step_x y e with
      | Some y' => run_x y' evs'
      | None => None
      end
  end.

Definition is_usual (e : EventX) : bool :=
  match e with Usual _ => true | EDedupeThrown _ _ _ => false end.

Definition usual (evs : list EventX) : list Event :=
  omap (fun e => match e with Usual e => Some e | EDedupeThrown _ _ _ => None end) evs.

(** [counted] where suppliers can throw: a key without a pending request
    has no count, or the count 1 that a throwing supplier left. *)
Definition counted_x (y : Sys) : Prop :=
  (forall k, match pending (dd y) !! k with
             | Some p => requestCounts (dd y) !! k = Some (holders k p y)
             | None => requestCounts (dd y) !! k = None \/
                       requestCounts (dd y) !! k = Some 1%nat
             end) /\
  (forall k p, pending (dd y) !! k = Some p -> (1 <= holders k p y)%nat) /\
  Forall (fun x => (snd x < next y)%nat) (returned y).

(** The supplier of the first call throws; a second call follows. *)
Definition supplier_throws : list EventX :=
  [ EDedupeThrown "projects:list" (Opaque 1) (new_Error "not ready") ].

Definition supplier_thrown : Sys := default empty (run_x empty supplier_throws).

End Dedup.

(* ===================================================================== *)
(** * The API client ([src/background/api.ts])                            *)
(* ===================================================================== *)

Module Api.

(** ** Constants ([src/shared/constants.ts]) *)

Definition DEFAULT_API_BASE_URL : string := "https://ref-lex.site".

Definition API_ENDPOINTS_CSRF_TOKEN : string := "/api/csrf-token".
Definition API_ENDPOINTS_ACCOUNT : string := "/api/account".
Definition API_ENDPOINTS_VERSION : string := "/api/version".
Definition API_ENDPOINTS_PROJECTS : string := "/api/projects".
Definition API_ENDPOINTS_PROJECT_DETAIL (id : Z) : string := "/api/projects/" ++ pretty id.
Definition API_ENDPOINTS_PROJECT_REFERENCES (id : Z) : string :=
  "/api/projects/" ++ pretty id ++ "/references".
Definition API_ENDPOINTS_REFERENCE_DETAIL (id : Z) : string := "/api/references/" ++ pretty id.
Definition API_ENDPOINTS_PROJECT_CATEGORIES (id : Z) : string :=
  "/api/projects/" ++ pretty id ++ "/categories".

Definition REQUEST_TIMEOUT_MS : Z := 30000.
Definition CSRF_TIMEOUT_MS : Z := 10000.

Definition HTTP_STATUS_BAD_REQUEST : Z := 400.
Definition HTTP_STATUS_UNAUTHORIZED : Z := 401.
Definition HTTP_STATUS_FORBIDDEN : Z := 403.
Definition HTTP_STATUS_TOO_MANY_REQUESTS : Z := 429.

Definition AUTH_REQUIRED : string := "Please log in to use this feature".
Definition EMAIL_NOT_VERIFIED : string :=
  "Please verify your email address before using the extension. Check your inbox for a verification email.".
Definition NETWORK_ERROR : string :=
  "Unable to connect to Ref-Lex. Please check your internet connection and ensure the backend server is running.".
Definition SERVER_ERROR : string :=
  "The Ref-Lex server encountered an error. Please try again in a few moments.".
Definition REQUEST_TIMEOUT : string :=
  "The request took too long to complete. Please check your connection and try again.".
Definition RATE_LIMIT_EXCEEDED : string :=
  "You are making requests too quickly. Please wait a moment and try again.".

(** ** The world the client runs in *)

(** A JSON value found under [error] or [message], as far as the code tells
    values apart: a string; an array, which has an [includes] method of its
    own ([has_email]: whether ['email'] is one of its elements); any other
    truthy value (a number, [true], an object), which has none.  [shown] is
    the text [String(value)] that the [Error] constructor makes of the
    value.  A falsy value ([null], [false], [0]) is an absent field. *)
Inductive Field :=
| FString (s : string)
| FArray (has_email : bool) (shown : string)
| FOther (shown : string).

Coercion FString : string >-> Field.

(** What [response.json()] gives: it rejects with an error of the
    platform (a [SyntaxError] for a body that is no JSON text, whose
    message depends on the engine and can quote the body), or it yields
    [null], or it yields another value, of which the code reads the [error]
    and [message] fields ([ApiResponse] in [src/shared/types.ts]) or which
    it returns. *)
Inductive Body :=
| BodyUnreadable (e : Exn)
| BodyNull
| BodyJson (error msg : option Field) (value : Value).

(** A [Response].  [headers] is looked up under the names the code spells. *)
Record Response := mkResponse {
  status : Z;
  statusText : string;
  headers : gmap string string;
  body : Body
}.

(** [response.ok] *)
Definition ok (r : Response) : bool := (200 <=? status r) && (status r <=? 299).

(** [interface RateLimitInfo] *)
Record RateLimitInfo := mkRateLimitInfo {
  limit : Limiter.number;
  remaining : Limiter.number;
  reset : Limiter.number
}.

(** The keys of [browser.storage.local] that the client touches. *)
Record Storage := mkStorage {
  api_base_url : option string;
  csrf_token : option string;
  rate_limit_info : option RateLimitInfo
}.

Inductive FetchOutcome :=
| Responds (r : Response)
| Fails (e : Exn).

Inductive LogEntry :=
| LCsrfFetch (url : string)
| LDispatch (url : string) (m : option string) (h : gmap string string) (b : option string)
| LWarn (msg : string)
| LError (msg : string).

(** - [csrfToken]: the module variable [let csrfToken: string | null];
    - [store]: [browser.storage.local];
    - [cookie_jar]: what [browser.cookies.getAll] answers for the session
      cookie, the values of the cookies found, or the error it rejects with;
    - [network]: what the successive calls of [fetch] will meet, in order;
      once exhausted the server is unreachable;
    - [faults]: for the successive calls of the storage API, the error each
      rejects with, if any; once exhausted the calls succeed;
    - [limiter]: [globalRateLimiter];
    - [log]: the network calls issued and the warnings and errors logged,
      oldest first. *)
Record World := mkWorld {
  csrfToken : option string;
  store : Storage;
  cookie_jar : Exn + list string;
  network : list FetchOutcome;
  faults : list (option Exn);
  limiter : Limiter.RateLimiter;
  log : list LogEntry
}.

Definition set_csrfToken (t : option string) (w : World) : World :=
  mkWorld t (store w) (cookie_jar w) (network w) (faults w) (limiter w) (log w).
Definition set_store (s : Storage) (w : World) : World :=
  mkWorld (csrfToken w) s (cookie_jar w) (network w) (faults w) (limiter w) (log w).
Definition set_network (n : list FetchOutcome) (w : World) : World :=
  mkWorld (csrfToken w) (store w) (cookie_jar w) n (faults w) (limiter w) (log w).
Definition set_faults (f : list (option Exn)) (w : World) : World :=
  mkWorld (csrfToken w) (store w) (cookie_jar w) (network w) f (limiter w) (log w).
Definition set_limiter (l : Limiter.RateLimiter) (w : World) : World :=
  mkWorld (csrfToken w) (store w) (cookie_jar w) (network w) (faults w) l (log w).
Definition add_log (e : LogEntry) (w : World) : World :=
  mkWorld (csrfToken w) (store w) (cookie_jar w) (network w) (faults w) (limiter w)
          (log w ++ [e]).

(** ** Computations that may throw *)

Inductive Res (A : Type) :=
| Ok (a : A)
| Throw (e : Exn).
Arguments Ok {A} a.
Arguments Throw {A} e.

Definition M (A : Type) : Type := World -> Res A * World.

Definition ret {A} (a : A) : M A := fun w => (Ok a, w).
Definition throw {A} (e : Exn) : M A := fun w => (Throw e, w).
Definition bind {A B} (m : M A) (k : A -> M B) : M B :=
  fun w => match m w with
           | (Ok a, w') => k a w'
           | (Throw e, w') => (Throw e, w')
           end.
(** [try { m } catch (error) { h error }] *)
Definition try_catch {A} (m : M A) (h : Exn -> M A) : M A :=
  fun w => match m w with
           | (Ok a, w') => (Ok a, w')
           | (Throw e, w') => h e w'
           end.
Definition get : M World := fun w => (Ok w, w).
Definition modify (f : World -> World) : M unit := fun w => (Ok tt, f w).

Global Instance M_ret : MRet M := @ret.
Global Instance M_bind : MBind M := fun A B k m => bind m k.

Definition logger_warn (msg : string) : M unit := modify (add_log (LWarn msg)).
Definition logger_error (msg : string) : M unit := modify (add_log (LError msg)).

(** A string as a condition: [undefined], [null] and [''] are falsy. *)
Definition truthy (s : option string) : option string :=
  match s with
  | Some EmptyString => None
  | _ => s
  end.

(** [a || b] on strings *)
Definition or_str (a b : string) : string :=
  match a with EmptyString => b | _ => a end.

(** [s.includes(needle)] *)
Definition includes (needle s : string) : bool :=
  match index 0 needle s with Some _ => true | None => false end.

(** ** Collaborators *)

(** A call of [browser.storage.local.get], [set] or [remove]. *)
Definition storage_access : M unit :=
  fun w => match faults w with
           | Some e :: fs => (Throw e, set_faults fs w)
           | None :: fs => (Ok tt, set_faults fs w)
           | [] => (Ok tt, w)
           end.
Definition storage_get {A} (field : Storage -> A) : M A :=
  storage_access ;; w ← get; ret (field (store w)).
Definition storage_update (f : Storage -> Storage) : M unit :=
  storage_access ;; modify (fun w => set_store (f (store w)) w).

(** [browser.cookies.getAll({url, name: 'access_token_cookie'})] *)
Definition cookies_getAll : M (list string) :=
  fun w => match cookie_jar w with
           | inl e => (Throw e, w)
           | inr cs => (Ok cs, w)
           end.

Definition failed_to_fetch : Exn := mkExn TypeError "Failed to fetch" None None.

(** [fetch(url, options)] *)
Definition fetch : M Response :=
  fun w => match network w with
           | Responds r :: n => (Ok r, set_network n w)
           | Fails e :: n => (Throw e, set_network n w)
           | [] => (Throw failed_to_fetch, w)
           end.

(** [fetchWithTimeout] ([src/shared/utils.ts]); [entry] records the call. *)
Definition fetchWithTimeout (entry : LogEntry) (timeoutMs : Z) : M Response :=
  modify (add_log entry) ;;
  try_catch fetch
    (fun error =>
       if decide (cls error = AbortError)
       then throw (new_Error ("Request timed out after " ++ pretty timeoutMs ++ "ms"))
       else throw error).

(** [getApiBaseUrl] ([src/background/auth.ts]) *)
Definition getApiBaseUrl : M string :=
  try_catch
    (result ← storage_get api_base_url;
     ret (default DEFAULT_API_BASE_URL (truthy result)))
    (fun _ => logger_error "Error getting API base URL:" ;; ret DEFAULT_API_BASE_URL).

(** [setRateLimitInfo] (the storage module of the background worker) *)
Definition setRateLimitInfo (info : RateLimitInfo) : M unit :=
  try_catch
    (storage_update (fun s => mkStorage (api_base_url s) (csrf_token s) (Some info)))
    (fun error => logger_error "Error setting rate limit info:" ;; throw error).

(** [parseInt(s, 10)]: leading white space, an optional sign, then decimal
    digits up to the first other character; [NaN] without a digit. *)
Definition is_space (c : ascii) : bool :=
  match nat_of_ascii c with
  | 9%nat | 10%nat | 11%nat | 12%nat | 13%nat | 32%nat => true
  | _ => false
  end.

Definition digit_of (c : ascii) : option Z :=
  let n := Z.of_nat (nat_of_ascii c) in
  if (48 <=? n) && (n <=? 57) then Some (n - 48) else None.

Fixpoint skip_spaces (s : string) : string :=
  match s with
  | String c r => if is_space c then skip_spaces r else s
  | EmptyString => s
  end.

Fixpoint digits (acc : option Z) (s : string) : option Z :=
  match s with
  | String c r =>
      match digit_of c with
      | Some d => digits (Some (10 * default 0 acc + d)) r
      | None => acc
      end
  | EmptyString => acc
  end.

Definition parseInt (s : string) : Limiter.number :=
  option_map inject_Z
    match skip_spaces s with
    | String "-" r => option_map Z.opp (digits None r)
    | String "+" r => digits None r
    | r => digits None r
    end.

(** [parseRateLimitHeaders] ([src/shared/utils.ts]) *)
Definition parseRateLimitHeaders (h : gmap string string) : option RateLimitInfo :=
  match truthy (h !! "X-RateLimit-Limit"),
        truthy (h !! "X-RateLimit-Remaining"),
        truthy (h !! "X-RateLimit-Reset") with
  | Some l, Some r, Some t => Some (mkRateLimitInfo (parseInt l) (parseInt r) (parseInt t))
  | _, _, _ => None
  end.

(** [globalRateLimiter.updateFromHeaders(limit, remaining, reset)] *)
Definition limiter_updateFromHeaders (info : RateLimitInfo) : M unit :=
  fun w => match Limiter.updateFromHeaders (limiter w) (limit info) (remaining info) (reset info) with
           | inr l => (Ok tt, set_limiter l w)
           | inl e => (Throw e, w)
           end.


Definition json (r : Response) : M Value :=
  match body r with
  | BodyUnreadable e => throw e
  | BodyNull => ret "null"
  | BodyJson _ _ v => ret v
  end.

(** ** CSRF token management *)

Definition fetchCsrfToken : M string :=
  apiBaseUrl ← getApiBaseUrl;
  try_catch
    (response ← fetchWithTimeout (LCsrfFetch (apiBaseUrl ++ API_ENDPOINTS_CSRF_TOKEN))
                                  CSRF_TIMEOUT_MS;
     if negb (ok response)
     then throw (new_AuthenticationError "Failed to get CSRF token")
     else
       match truthy (headers response !! "X-CSRF-Token") with
       | None => throw (new_AuthenticationError "CSRF token not found in response")
       | Some token =>
           modify (set_csrfToken (Some token)) ;;
           storage_update (fun s => mkStorage (api_base_url s) (Some token) (rate_limit_info s)) ;;
           ret token
       end)
    (fun error => logger_error "Error fetching CSRF token:" ;; throw error).

Definition getCsrfToken : M string :=
  w ← get;
  match truthy (csrfToken w) with
  | Some token => ret token
  | None =>
      stored ← storage_get csrf_token;
      match truthy stored with
      | Some token => modify (set_csrfToken (Some token)) ;; ret token
      | None => fetchCsrfToken
      end
  end.

Definition clearCsrfToken : M unit :=
  modify (set_csrfToken None) ;;
  storage_update (fun s => mkStorage (api_base_url s) None (rate_limit_info s)).

(** ** The base request *)

(** A field as a condition: an absent field and [''] are falsy. *)
Definition truthy_field (f : option Field) : option Field :=
  match f with
  | Some (FString EmptyString) => None
  | _ => f
  end.

(** [String(v)], the message an [Error] gets from [v]. *)
Definition shown_as (v : Field) : string :=
  match v with
  | FString s => s
  | FArray _ s => s
  | FOther s => s
  end.

(** [v || d] as the message of an [Error]. *)
Definition or_field (v : Field) (d : string) : string :=
  match v with
  | FString s => or_str s d
  | _ => shown_as v
  end.

(** [v.includes('email')] on a value without that method throws a
    [TypeError]; the message is the one V8 gives for the source as
    written. *)
Definition includes_is_not_a_function : Exn :=
  mkExn TypeError "errorMessage.includes is not a function" None None.

(** The message read off an error response (lines 218-225): a rejected
    [json()] and the property access on [null] both end in the [catch]. *)
Definition errorMessage (response : Response) : Field :=
  match body response with
  | BodyJson e m _ =>
      match truthy_field e with
      | Some v => v
      | None => match truthy_field m with
                | Some v => v
                | None => FString (statusText response)
                end
      end
  | _ => FString (statusText response)
  end.

Definition handleErrorResponse {A} (response : Response) : M A :=
  let errorMessage := errorMessage response in
  if status response =? HTTP_STATUS_UNAUTHORIZED then
    throw (new_AuthenticationError (or_field errorMessage AUTH_REQUIRED))
  else if status response =? HTTP_STATUS_FORBIDDEN then
    match errorMessage with
    | FString s =>
        if includes "email" s
        then throw (new_AuthenticationError EMAIL_NOT_VERIFIED)
        else throw (new_AuthenticationError s)
    | FArray has_email s =>
        if has_email
        then throw (new_AuthenticationError EMAIL_NOT_VERIFIED)
        else throw (new_AuthenticationError s)
    | FOther _ => throw includes_is_not_a_function
    end
  else if status response =? HTTP_STATUS_BAD_REQUEST then
    throw (new_ValidationError (shown_as errorMessage))
  else if status response =? HTTP_STATUS_TOO_MANY_REQUESTS then
    throw (new_ExtensionError RATE_LIMIT_EXCEEDED (Some "RATE_LIMIT")
             (Some HTTP_STATUS_TOO_MANY_REQUESTS))
  else
    throw (new_ExtensionError (or_field errorMessage SERVER_ERROR) (Some "API_ERROR")
             (Some (status response))).

(** The [catch] clause of [apiRequest] (lines 196-214). *)
Definition classify {A} (error : Exn) : M A :=
  if instanceof_ExtensionError error then throw error
  else if includes "timed out" (message error) then
    throw (new_NetworkError REQUEST_TIMEOUT)
  else if instanceof_TypeError error && includes "fetch" (message error) then
    throw (new_NetworkError NETWORK_ERROR)
  else throw (new_ExtensionError SERVER_ERROR (Some "UNKNOWN_ERROR") None).

(** [fetchOptions.method && fetchOptions.method !== 'GET'] *)
Definition state_mutating (m : option string) : bool :=
  match truthy m with
  | Some s => negb (String.eqb s "GET")
  | None => false
  end.

(** How the [try] block of [apiRequest] ends when it does not throw: with
    the decoded body, or with [return apiRequest(...)], whose promise the
    surrounding [catch] does not see. *)
Inductive Completion :=
| Done (data : Value)
| Retry.

Definition without_retry (options : ApiRequestOptions) : ApiRequestOptions :=
  mkOptions (skipAuth options) (Some false) (method options) (req_headers options)
            (req_body options).

(** Lines 116-120: the headers before any credential is attached. *)
Definition base_headers (options : ApiRequestOptions) : gmap string string :=
  req_headers options ∪ {[ "Content-Type" := "application/json" ]}.

(** Lines 125-138: the session cookie. *)
Definition attach_cookie (options : ApiRequestOptions) (headers : gmap string string)
  : M (gmap string string) :=
  if default false (skipAuth options) then ret headers
  else try_catch
         (cookies ← cookies_getAll;
          match cookies with
          | c :: _ => ret (<[ "Cookie" := "access_token_cookie=" ++ c ]> headers)
          | [] => ret headers
          end)
         (fun _ => logger_warn "Failed to get auth cookie:" ;; ret headers).

Definition csrf_warning : string := "Failed to get CSRF token, continuing without it:".

(** Lines 140-148: the CSRF token for non-GET requests. *)
Definition attach_csrf (options : ApiRequestOptions) (headers : gmap string string)
  : M (gmap string string) :=
  if negb (default false (skipAuth options)) && state_mutating (method options)
  then try_catch
         (token ← getCsrfToken;
          ret (<[ "X-CSRF-Token" := token ]> headers))
         (fun _ => logger_warn csrf_warning ;; ret headers)
  else ret headers.

(** Lines 113-148: the URL and the headers of the request. *)
Definition compose (endpoint : string) (options : ApiRequestOptions)
  : M (string * gmap string string) :=
  apiBaseUrl ← getApiBaseUrl;
  headers1 ← attach_cookie options (base_headers options);
  headers2 ← attach_csrf options headers1;
  ret (apiBaseUrl ++ endpoint, headers2).

(** Lines 161-180: the rate-limit headers of a response. *)
Definition note_rate_limit (response : Response) : M unit :=
  match parseRateLimitHeaders (headers response) with
  | Some rateLimit =>
      limiter_updateFromHeaders rateLimit ;;
      try_catch (setRateLimitInfo rateLimit)
                (fun _ => logger_warn "Failed to store rate limit info:")
  | None => ret tt
  end.

(** Lines 150-214: the [try] block with its [catch] clause. *)
Definition attempt (url : string) (headers : gmap string string)
    (options : ApiRequestOptions) : M Completion :=
  try_catch
    (response ← fetchWithTimeout
                   (LDispatch url (method options) headers (req_body options))
                   REQUEST_TIMEOUT_MS;
     note_rate_limit response ;;
     if (status response =? HTTP_STATUS_UNAUTHORIZED) && default true (retryOn401 options)
     then clearCsrfToken ;; ret Retry
     else
       (if negb (ok response) then handleErrorResponse response else ret tt) ;;
       data ← json response;
       ret (Done data))
    classify.

(** The body of [apiRequest]; [again] is the function the body calls at the
    line [return apiRequest<T>(endpoint, { ...options, retryOn401: false })]. *)
Definition apiRequest_body (again : string -> ApiRequestOptions -> M Value)
    (endpoint : string) (options : ApiRequestOptions) : M Value :=
  request ← compose endpoint options;
  completion ← attempt (fst request) (snd request) options;
  match completion with
  | Done data => ret data
  | Retry => again endpoint (without_retry options)
  end.

(** [apiRequest] calls itself only with [retryOn401: false], and a call with
    [retryOn401: false] never calls itself: two unfoldings of the body are
    the whole function ([apiRequest_final_never_recurs] below). *)
Definition unreachable : Exn := new_Error "unreachable".
Definition apiRequest_final : string -> ApiRequestOptions -> M Value :=
  apiRequest_body (fun _ _ => throw unreachable).
Definition apiRequest : string -> ApiRequestOptions -> M Value :=
  apiRequest_body apiRequest_final.

(** ** Read operations *)

(** A read operation: the key it hands to [dedupe] and the end point its
    supplier requests. *)
Record ReadOp := mkReadOp {
  op_key : string;
  op_endpoint : string
}.

Definition checkAuthStatus : ReadOp := mkReadOp "auth:check" API_ENDPOINTS_ACCOUNT.
Definition getProjects : ReadOp := mkReadOp "projects:list" API_ENDPOINTS_PROJECTS.
Definition getProject (id : Z) : ReadOp :=
  mkReadOp ("project:" ++ pretty id) (API_ENDPOINTS_PROJECT_DETAIL id).
Definition getCategories (projectId : Z) : ReadOp :=
  mkReadOp ("categories:" ++ pretty projectId) (API_ENDPOINTS_PROJECT_CATEGORIES projectId).
Definition getReferences (projectId : Z) : ReadOp :=
  mkReadOp ("references:" ++ pretty projectId) (API_ENDPOINTS_PROJECT_REFERENCES projectId).

Inductive is_read_operation : ReadOp -> Prop :=
| read_checkAuthStatus : is_read_operation checkAuthStatus
| read_getProjects : is_read_operation getProjects
| read_getProject id : is_read_operation (getProject id)
| read_getCategories id : is_read_operation (getCategories id)
| read_getReferences id : is_read_operation (getReferences id).

(** [{ method: 'GET' }] *)
Definition get_options : ApiRequestOptions :=
  mkOptions None None (Some "GET") ∅ None.

(** The supplier each read operation hands to [globalDeduplicator.dedupe]:
    [() => apiRequest<T>(endpoint, { method: 'GET' })]. *)
Definition supplier (r : ReadOp) : Thunk := ApiRequest (op_endpoint r) get_options.

(** ** The client as a whole

    The module state of [api.ts] with [globalDeduplicator].  A call of a
    read operation is one event; the run of the [apiRequest] behind a
    supplier promise is taken as one event too, at the moment the promise
    settles. *)
Record Client := mkClient {
  world : World;
  dedup : Dedup.Sys
}.

Definition call (r : ReadOp) (c : Client) : nat * Client :=
  let '(p, y) := Dedup.dedupe (dedup c) (op_key r) (supplier r) in
  (p, mkClient (world c) y).

Definition settlement {A} (f : A -> Value) (r : Res A) : Settlement :=
  match r with
  | Ok a => Resolved (f a)
  | Throw e => Rejected e
  end.

Definition finish (p : nat) (c : Client) : option Client :=
  match Dedup.inflight (dedup c) !! p with
  | Some (_, ApiRequest endpoint options) =>
      let '(res, w) := apiRequest endpoint options (world c) in
      match Dedup.settle (dedup c) p (settlement id res) with
      | Some y => Some (mkClient w y)
      | None => None
      end
  | _ => None
  end.

(** The network calls for requests proper (not for the CSRF token) in a log. *)
Definition is_dispatch (e : LogEntry) : bool :=
  match e with LDispatch _ _ _ _ => true | _ => false end.
Definition dispatches (l : list LogEntry) : list LogEntry := List.filter is_dispatch l.

(** Events of the client: a caller invokes a read operation; the request
    behind promise [p] runs to its end. *)
Inductive ClientEvent :=
| CCall (r : ReadOp)
| CFinish (p : nat).

Definition client_step (c : Client) (e : ClientEvent) : option Client :=
  match e with
  | CCall r => Some (snd (call r c))
  | CFinish p => finish p c
  end.

Fixpoint client_run (c : Client) (evs : list ClientEvent) : option Client :=
  match evs with
  | [] => Some c
  | e :: evs' =>
      match client_step c e with
      | Some c' => client_run c' evs'
      | None => None
      end
  end.

(** ** Notions used to state the properties of the client *)

(** The rate-limit headers of a response are absent, or their reset is a
    time the debug line of [updateFromHeaders] can format. *)
Definition rate_limit_in_order (r : Response) : bool :=
  match parseRateLimitHeaders (headers r) with
  | Some info => Limiter.valid_time_value (option_map (fun t => (t * 1000)%Q) (reset info))
  | None => true
  end.

(** No call of the storage API rejects from here on. *)
Definition healthy (w : World) : bool :=
  forallb (fun f => match f with None => true | Some _ => false end) (faults w).

(** The storage call by which [clearCsrfToken] removes the token, once
    response [r] has been received in world [w]: the error it rejects
    with, if it rejects.  When [r] carries rate-limit headers,
    [setRateLimitInfo] makes a storage call before it. *)
Definition removal_fault (r : Response) (w : World) : option Exn :=
  match (match parseRateLimitHeaders (headers r) with
         | Some _ => tail (faults w)
         | None => faults w
         end) with
  | Some e :: _ => Some e
  | _ => None
  end.

(** The limiter after the client has run: nothing but the token count has
    changed, and the token count has not gone up. *)
Definition only_lowered (s s' : Limiter.RateLimiter) : Prop :=
  s' = Limiter.set_tokens (Limiter.tokens s') s /\
  (Limiter.tokens s' <= Limiter.tokens s)%Q.

Definition ndispatches (w : World) : nat := length (dispatches (log w)).

(** [m] issues no request proper and does not touch the limiter. *)
Definition quiet {A} (m : M A) : Prop :=
  forall w, dispatches (log (snd (m w))) = dispatches (log w) /\
            limiter (snd (m w)) = limiter w.

(** [m] issues no request proper and at most lowers the limiter's tokens. *)
Definition silent {A} (m : M A) : Prop :=
  forall w, dispatches (log (snd (m w))) = dispatches (log w) /\
            only_lowered (limiter w) (limiter (snd (m w))).

(** [m] does not throw. *)
Definition total {A} (m : M A) : Prop := forall w, exists a, fst (m w) = Ok a.

(** What the [catch] clause of [apiRequest] throws for [error]. *)
Definition caught (error : Exn) : Exn :=
  if instanceof_ExtensionError error then error
  else if includes "timed out" (message error) then new_NetworkError REQUEST_TIMEOUT
  else if instanceof_TypeError error && includes "fetch" (message error)
       then new_NetworkError NETWORK_ERROR
       else new_ExtensionError SERVER_ERROR (Some "UNKNOWN_ERROR") None.

(** [attempt] from the point where the request has gone out. *)
Definition after_dispatch (options : ApiRequestOptions) : M Completion :=
  try_catch
    (response ← try_catch fetch
                   (fun error =>
                      if decide (cls error = AbortError)
                      then throw (new_Error ("Request timed out after " ++
                                             pretty REQUEST_TIMEOUT_MS ++ "ms"))
                      else throw error);
     note_rate_limit response ;;
     if (status response =? HTTP_STATUS_UNAUTHORIZED) && default true (retryOn401 options)
     then clearCsrfToken ;; ret Retry
     else
       (if negb (ok response) then handleErrorResponse response else ret tt) ;;
       data ← json response;
       ret (Done data))
    classify.

(** Lines 113-138 of [apiRequest]: the state in which the CSRF token is
    asked for, with the base URL and the headers built so far. *)
Definition before_csrf (options : ApiRequestOptions) : M (string * gmap string string) :=
  apiBaseUrl ← getApiBaseUrl;
  headers1 ← attach_cookie options (base_headers options);
  mret (apiBaseUrl, headers1).

(** An event other than the end of the request behind [p]. *)
Definition keeps_waiting (p : nat) (e : ClientEvent) : bool :=
  match e with
  | CCall _ => true
  | CFinish q => negb (q =? p)%nat
  end.

(** The calls of the read operation with key [k] among [evs]. *)
Definition calls_of (k : string) (evs : list ClientEvent) : nat :=
  length (List.filter (fun e => match e with
                                | CCall r => String.eqb (op_key r) k
                                | CFinish _ => false
                                end) evs).

(** Following the specification's words, "passes through the rate
    limiter's token-bucket admission before executing": every network call
    for a request is matched by an admission of the limiter, which counts it
    in [totalRequests] as it takes the token. *)
Definition passes_admission (w w' : World) : Prop :=
  Z.of_nat (ndispatches w') - Z.of_nat (ndispatches w) <=
  Limiter.totalRequests (limiter w') - Limiter.totalRequests (limiter w).

(** ** Concrete worlds *)

(** A session cookie, nothing cached, storage in order, and the limiter as
    [globalRateLimiter] is created. *)
Definition fresh_world (net : list FetchOutcome) : World :=
  mkWorld None (mkStorage None None None) (inr ["jwt"]) net []
          (Limiter.new_RateLimiter Limiter.globalConfig 0) [].

Definition answer (st : Z) (txt : string) (b : Body) : Response := mkResponse st txt ∅ b.

Definition unauthorized : Response :=
  answer 401 "Unauthorized" (BodyJson (Some (FString "Token has expired")) None "{}").
Definition projects_ok : Response := answer 200 "OK" (BodyJson None None "[]").
Definition quota_exhausted : Response :=
  mkResponse 200 "OK"
    {[ "X-RateLimit-Limit" := "100";
       "X-RateLimit-Remaining" := "0";
       "X-RateLimit-Reset" := "1700000000" ]}
    (BodyJson None None "[]").

Definition world_401_200 : World := fresh_world [Responds unauthorized; Responds projects_ok].
Definition world_401_401 : World := fresh_world [Responds unauthorized; Responds unauthorized].




Definition projects_url : string := "https://ref-lex.site/api/projects".
Definition get_headers : gmap string string :=
  <[ "Cookie" := "access_token_cookie=jwt" ]> (base_headers get_options).

(** [{ method: 'POST', body: '{}' }] *)
Definition post_options : ApiRequestOptions :=
  mkOptions None None (Some "POST") ∅ (Some "{}").

(** The token endpoint is unreachable, the API answers. *)
Definition world_csrf_down : World :=
  fresh_world [Fails failed_to_fetch; Responds projects_ok].

Definition world_csrf_failed : World :=
  snd (getCsrfToken world_csrf_down).

(** The answer of the token endpoint. *)
Definition csrf_answer (t : string) : Response :=
  mkResponse 200 "OK" {[ "X-CSRF-Token" := t ]} BodyNull.

(** The token endpoint is unreachable at first; the API answers the request
    sent without a token by a 401; the token endpoint then hands out [tok],
    and the API answers the second request. *)
Definition world_csrf_down_then_401 : World :=
  fresh_world [Fails failed_to_fetch; Responds unauthorized;
               Responds (csrf_answer "tok"); Responds projects_ok].

(** Two reads of the project list; the first answer reports the quota as
    used up. *)
Definition client_0 : Client :=
  mkClient (fresh_world [Responds quota_exhausted; Responds projects_ok]) Dedup.empty.

Definition client_after (evs : list ClientEvent) : Client :=
  default client_0 (client_run client_0 evs).

Definition first_read : list ClientEvent := [CCall getProjects; CFinish 0].
Definition second_read : list ClientEvent := [CCall getProjects; CFinish 1].

Definition three_reads : list ClientEvent :=
  [CCall getProjects; CCall checkAuthStatus; CCall getProjects].

(** ** Write operations and the version check

    [payload] is the text that [JSON.stringify] makes of the arguments. *)
Definition write_options (m : string) (payload : option string) : ApiRequestOptions :=
  mkOptions None None (Some m) ∅ payload.

Definition addReference (projectId : Z) (payload : string) : M Value :=
  apiRequest (API_ENDPOINTS_PROJECT_REFERENCES projectId) (write_options "POST" (Some payload)).

Definition deleteReference (referenceId : Z) : M unit :=
  apiRequest (API_ENDPOINTS_REFERENCE_DETAIL referenceId) (write_options "DELETE" None) ;;
  ret tt.

(** [interface BackendVersion] *)
Record BackendVersion := mkBackendVersion {
  version : string;
  apiVersion : string;
  minExtensionVersion : string
}.

(** What [getBackendVersion] resolves to: the decoded body of the answer,
    or the object literal of its [catch] clause. *)
Inductive VersionAnswer :=
| FromBackend (data : Value)
| Fallback (v : BackendVersion).

Definition version_options : ApiRequestOptions :=
  mkOptions (Some true) None (Some "GET") ∅ None.

Definition getBackendVersion : M VersionAnswer :=
  try_catch
    (data ← apiRequest API_ENDPOINTS_VERSION version_options;
     ret (FromBackend data))
    (fun _ =>
       logger_error "Failed to fetch backend version:" ;;
       ret (Fallback (mkBackendVersion "1.0.0" "1" "1.0.0"))).

(** ** Collaborators that read back what the client stores *)


(** [setApiBaseUrl] ([src/background/auth.ts]) *)
Definition setApiBaseUrl (url : string) : M unit :=
  try_catch
    (storage_update (fun s => mkStorage (Some url) (csrf_token s) (rate_limit_info s)))
    (fun error => logger_error "Error setting API base URL:" ;; throw error).

(** ** Further notions *)

(** The next call of the storage API succeeds; the world after it. *)
Definition storage_works (w : World) : bool :=
  match faults w with Some _ :: _ => false | _ => true end.
Definition next_storage (w : World) : World :=
  match faults w with _ :: fs => set_faults fs w | [] => w end.

(** The network calls for the CSRF token in a log. *)
Definition is_csrf_fetch (e : LogEntry) : bool :=
  match e with LCsrfFetch _ => true | _ => false end.
Definition csrf_fetches (l : list LogEntry) : list LogEntry := List.filter is_csrf_fetch l.

(** [m] issues no network call for the CSRF token. *)
Definition asks_no_token {A} (m : M A) : Prop :=
  forall w, csrf_fetches (log (snd (m w))) = csrf_fetches (log w).

(** Whether [apiRequest] asks for the CSRF token (line 141). *)
Definition needs_token (options : ApiRequestOptions) : bool :=
  negb (default false (skipAuth options)) && state_mutating (method options).

(** The base URL that [getApiBaseUrl] reads in [w]. *)
Definition configured_base (w : World) : string :=
  default DEFAULT_API_BASE_URL (truthy (api_base_url (store w))).

(** The headers with the session cookie, if the jar has one. *)
Definition with_cookie (cs : list string) (h : gmap string string) : gmap string string :=
  match cs with
  | c :: _ => <[ "Cookie" := "access_token_cookie=" ++ c ]> h
  | [] => h
  end.

(** The request that goes out, as the log records it. *)
Definition dispatch_of (url : string) (options : ApiRequestOptions) (h : gmap string string)
  : LogEntry :=
  LDispatch url (method options) h (req_body options).

(** The world when the answer to the request is in. *)
Definition answered (url : string) (options : ApiRequestOptions) (h : gmap string string)
    (rest : list FetchOutcome) (w : World) : World :=
  set_network rest (add_log (dispatch_of url options h) w).

Definition unknown_error : Exn := new_ExtensionError SERVER_ERROR (Some "UNKNOWN_ERROR") None.

(** What [fetch] rejects with when the [AbortController] fires. *)
Definition aborted : Exn := mkExn AbortError "The operation was aborted." None None.

(** ** Further concrete worlds *)

Definition forbidden : Response :=
  answer 403 "Forbidden" (BodyJson (Some (FString "Please verify your email first")) None "{}").

(** A 403 whose [error] field is the number 42. *)
Definition forbidden_42 : Response :=
  answer 403 "Forbidden" (BodyJson (Some (FOther "42")) None "{}").

(** What [response.json()] rejects with in V8: for an empty body, and for
    the body of a proxy's error page. *)
Definition unexpected_end : Exn := mkExn SyntaxError "Unexpected end of JSON input" None None.
Definition no_content : Response := answer 204 "No Content" (BodyUnreadable unexpected_end).

Definition quoted (s : string) : string :=
  String (ascii_of_nat 34) s ++ String (ascii_of_nat 34) EmptyString.
Definition not_valid_json : Exn :=
  mkExn SyntaxError
        ("Unexpected token 'G', " ++ quoted "Gateway timed out" ++ " is not valid JSON")
        None None.
Definition gateway_timed_out : Response :=
  answer 200 "OK" (BodyUnreadable not_valid_json).


Definition token_fetched : World :=
  snd (fetchCsrfToken (fresh_world [Responds (csrf_answer "tok")])).


(** The token [tok] is no longer accepted; the token endpoint hands out
    [tok2], with which the request goes through. *)
Definition world_stale_token : World :=
  set_csrfToken (Some "tok")
    (fresh_world [Responds unauthorized; Responds (csrf_answer "tok2"); Responds projects_ok]).

(** A session with the CSRF token [tok] in memory. *)
Definition with_token (net : list FetchOutcome) : World :=
  set_csrfToken (Some "tok") (fresh_world net).

End Api.

(* ===================================================================== *)
(** * The callers of the client in the background worker                  *)
(* ===================================================================== *)

(** The cache functions of the worker's storage module and the message
    handlers of [src/background/service-worker.ts] that call the client.

    A call of the storage API is one step, as in [Api]; the one place where
    these functions wait for the client is the [await] of a read operation,
    and there a function is cut in two: its first part ends [Waiting] for
    the promise that [dedupe] returned, its second part starts from the
    settlement of that promise.  A function that reads the clock takes the
    reading of [Date.now()] as [now]. *)

Module Worker.
Import Api.

(** [CACHE_CONFIG] ([src/shared/constants.ts]) *)
Definition PROJECTS_CACHE_TIMEOUT : Z := 5 * 60 * 1000.
Definition CATEGORIES_CACHE_TIMEOUT : Z := 5 * 60 * 1000.

(** [isExpired(timestamp, timeoutMs)] ([src/shared/utils.ts]) *)
Definition isExpired (timestamp timeoutMs now : Z) : bool := timeoutMs <? now - timestamp.

(** [CachedProjects], and one entry of [CachedCategories]: the cached value
    with the time at which it was stored. *)
Record Cached := mkCached {
  cached_value : Value;
  cached_at : Z
}.

(** The cache keys of [browser.storage.local]. *)
Record Caches := mkCaches {
  cached_projects : option Cached;
  cached_categories : option (gmap Z Cached)
}.

(** The background worker: the client with the rest of the storage. *)
Record State := mkState {
  client : Client;
  caches : Caches
}.

Definition set_world (w : World) (k : State) : State :=
  mkState (mkClient w (dedup (client k))) (caches k).
Definition set_caches (c : Caches) (k : State) : State := mkState (client k) c.

(** A call of the storage API: it fails or succeeds as the world's script
    of faults has it. *)
Definition storage_call (k : State) : Res unit * State :=
  let '(r, w) := storage_access (world (client k)) in (r, set_world w k).

Definition log_error (msg : string) (k : State) : State :=
  set_world (add_log (LError msg) (world (client k))) k.

(** How the first part of a function ends: with its result, or waiting for
    promise [p]. *)
Inductive Step (A : Type) :=
| Finished (r : Res A)
| Waiting (p : nat).
Arguments Finished {A} r.
Arguments Waiting {A} p.

(** [projectId], when a caller may leave it out: [if (projectId)] holds of
    a number other than 0. *)
Definition truthy_id (projectId : option Z) : option Z :=
  match projectId with
  | Some 0 => None
  | _ => projectId
  end.

Section Truthiness.

(** Whether a decoded JSON value is truthy ([if (cached)]). *)
Variable is_truthy : Value -> bool.

(** ** Projects *)

(** [getCachedProjects()]: [None] is [null]. *)
Definition getCachedProjects (now : Z) (k : State) : option Value * State :=
  match storage_call k with
  | (Ok _, k1) =>
      (match cached_projects (caches k1) with
       | None => None
       | Some cached =>
           if isExpired (cached_at cached) PROJECTS_CACHE_TIMEOUT now then None
           else Some (cached_value cached)
       end, k1)
  | (Throw _, k1) => (None, log_error "Error getting cached projects:" k1)
  end.

(** [setCachedProjects(projects)] *)
Definition setCachedProjects (projects : Value) (now : Z) (k : State) : Res unit * State :=
  match storage_call k with
  | (Ok _, k1) =>
      (Ok tt, set_caches (mkCaches (Some (mkCached projects now))
                                   (cached_categories (caches k1))) k1)
  | (Throw e, k1) => (Throw e, log_error "Error setting cached projects:" k1)
  end.

(** A read operation is called: [dedupe] hands back a promise. *)
Definition start_read (r : ReadOp) (k : State) : nat * State :=
  let '(p, c) := call r (client k) in (p, mkState c (caches k)).

(** [fetchAndCacheProjects(forceRefresh)] up to [await getProjects()]. *)
Definition fetchAndCacheProjects (forceRefresh : bool) (now : Z) (k : State)
  : Step Value * State :=
  let from_api k := let '(p, k') := start_read getProjects k in (Waiting p, k') in
  if forceRefresh then from_api k
  else
    match getCachedProjects now k with
    | (Some cached, k1) =>
        if is_truthy cached then (Finished (Ok cached), k1) else from_api k1
    | (None, k1) => from_api k1
    end.

(** [fetchAndCacheProjects] from the settlement of [getProjects()]. *)
Definition fetchAndCacheProjects_resumed (out : Settlement) (now : Z) (k : State)
  : Res Value * State :=
  match out with
  | Resolved projects =>
      match setCachedProjects projects now k with
      | (Ok _, k1) => (Ok projects, k1)
      | (Throw e, k1) => (Throw e, k1)
      end
  | Rejected e => (Throw e, k)
  end.

(** ** Categories *)

(** [getCachedCategories(projectId)] *)
Definition getCachedCategories (projectId : Z) (now : Z) (k : State) : option Value * State :=
  match storage_call k with
  | (Ok _, k1) =>
      (match cached_categories (caches k1) with
       | None => None
       | Some allCached =>
           match allCached !! projectId with
           | None => None
           | Some cached =>
               if isExpired (cached_at cached) CATEGORIES_CACHE_TIMEOUT now then None
               else Some (cached_value cached)
           end
       end, k1)
  | (Throw _, k1) => (None, log_error "Error getting cached categories:" k1)
  end.

(** [setCachedCategories(projectId, categories)]: the cache is read, the
    entry of the project replaced, and the whole written back. *)
Definition setCachedCategories (projectId : Z) (categories : Value) (now : Z) (k : State)
  : Res unit * State :=
  match storage_call k with
  | (Ok _, k1) =>
      let allCached := default ∅ (cached_categories (caches k1)) in
      let allCached' := <[projectId := mkCached categories now]> allCached in
      match storage_call k1 with
      | (Ok _, k2) =>
          (Ok tt, set_caches (mkCaches (cached_projects (caches k2)) (Some allCached')) k2)
      | (Throw e, k2) => (Throw e, log_error "Error setting cached categories:" k2)
      end
  | (Throw e, k1) => (Throw e, log_error "Error setting cached categories:" k1)
  end.

(** [fetchAndCacheCategories(projectId, forceRefresh)] up to
    [await getCategories(projectId)]. *)
Definition fetchAndCacheCategories (projectId : Z) (forceRefresh : bool) (now : Z) (k : State)
  : Step Value * State :=
  let from_api k := let '(p, k') := start_read (getCategories projectId) k in (Waiting p, k') in
  if forceRefresh then from_api k
  else
    match getCachedCategories projectId now k with
    | (Some cached, k1) =>
        if is_truthy cached then (Finished (Ok cached), k1) else from_api k1
    | (None, k1) => from_api k1
    end.

(** [fetchAndCacheCategories] from the settlement of [getCategories]. *)
Definition fetchAndCacheCategories_resumed (projectId : Z) (out : Settlement) (now : Z)
    (k : State) : Res Value * State :=
  match out with
  | Resolved categories =>
      match setCachedCategories projectId categories now k with
      | (Ok _, k1) => (Ok categories, k1)
      | (Throw e, k1) => (Throw e, k1)
      end
  | Rejected e => (Throw e, k)
  end.

End Truthiness.

(** [clearCachedCategories(projectId?)] *)
Definition clearCachedCategories (projectId : option Z) (k : State) : Res unit * State :=
  match truthy_id projectId with
  | Some id =>
      match storage_call k with
      | (Ok _, k1) =>
          let allCached := default ∅ (cached_categories (caches k1)) in
          match storage_call k1 with
          | (Ok _, k2) =>
              (Ok tt, set_caches (mkCaches (cached_projects (caches k2))
                                           (Some (delete id allCached))) k2)
          | (Throw e, k2) => (Throw e, log_error "Error clearing cached categories:" k2)
          end
      | (Throw e, k1) => (Throw e, log_error "Error clearing cached categories:" k1)
      end
  | None =>
      match storage_call k with
      | (Ok _, k1) => (Ok tt, set_caches (mkCaches (cached_projects (caches k1)) None) k1)
      | (Throw e, k1) => (Throw e, log_error "Error clearing cached categories:" k1)
      end
  end.

(** ** Message handlers ([src/background/service-worker.ts]) *)

(** [interface MessageResponse<T>] *)
Record MessageResponse (T : Type) := mkMessageResponse {
  success : bool;
  data : option T;
  error : option string
}.
Arguments mkMessageResponse {T} success data error.
Arguments success {T} m.
Arguments data {T} m.
Arguments error {T} m.

(** [getErrorMessage(error)] ([src/shared/utils.ts]) on an [Error]. *)
Definition getErrorMessage (e : Exn) : string := message e.

(** The shape of every handler: [{ success: true, data }] or a new [Error]
    whose message is the prefix and the message of what was caught. *)
Definition succeeded {T} (v : T) : MessageResponse T := mkMessageResponse true (Some v) None.
Definition failed (prefix : string) (e : Exn) : Exn :=
  new_Error (prefix ++ getErrorMessage e).

Definition answer_with (prefix : string) (r : Res Value) : Res (MessageResponse Value) :=
  match r with
  | Ok v => Ok (succeeded v)
  | Throw e => Throw (failed prefix e)
  end.

Definition answering (prefix : string) (s : Step Value) : Step (MessageResponse Value) :=
  match s with
  | Finished r => Finished (answer_with prefix r)
  | Waiting p => Waiting p
  end.

Section Handlers.

Variable is_truthy : Value -> bool.

(** [handleGetProjects(forceRefresh)], and its part after the wait. *)
Definition handleGetProjects (forceRefresh : bool) (now : Z) (k : State)
  : Step (MessageResponse Value) * State :=
  let '(s, k1) := fetchAndCacheProjects is_truthy forceRefresh now k in
  (answering "Failed to get projects: " s, k1).

Definition handleGetProjects_resumed (out : Settlement) (now : Z) (k : State)
  : Res (MessageResponse Value) * State :=
  let '(r, k1) := fetchAndCacheProjects_resumed out now k in
  (answer_with "Failed to get projects: " r, k1).

(** [handleGetCategories(projectId, forceRefresh)], and its part after the
    wait. *)
Definition handleGetCategories (projectId : option Z) (forceRefresh : bool) (now : Z)
    (k : State) : Step (MessageResponse Value) * State :=
  match truthy_id projectId with
  | None =>
      (Finished (Throw (failed "Failed to get categories: "
                               (new_Error "Project ID is required"))), k)
  | Some id =>
      let '(s, k1) := fetchAndCacheCategories is_truthy id forceRefresh now k in
      (answering "Failed to get categories: " s, k1)
  end.

Definition handleGetCategories_resumed (projectId : Z) (out : Settlement) (now : Z)
    (k : State) : Res (MessageResponse Value) * State :=
  let '(r, k1) := fetchAndCacheCategories_resumed projectId out now k in
  (answer_with "Failed to get categories: " r, k1).

(** The payload of [ADD_REFERENCE]: the fields the handler looks at, and
    [stringified], the text that [JSON.stringify] makes of the payload
    without [projectId]. *)
Record AddReferencePayload := mkPayload {
  projectId : option Z;
  bibtex_raw : option string;
  category : option string;
  stringified : string
}.

(** [handleAddReference(payload)] up to the end, or up to the wait for the
    categories when the reference names a category.  [Waiting] keeps the
    result of [addReference] for the second part. *)
Definition handleAddReference (payload : AddReferencePayload) (now : Z) (k : State)
  : (Step (MessageResponse Value) * option Value) * State :=
  let reject e := ((Finished (Throw (failed "Failed to add reference: " e)), None), k) in
  match truthy_id (projectId payload) with
  | None => reject (new_Error "Project ID is required")
  | Some id =>
      match truthy (bibtex_raw payload) with
      | None => reject (new_Error "BibTeX is required")
      | Some _ =>
          match addReference id (stringified payload) (world (client k)) with
          | (Throw e, w) =>
              ((Finished (Throw (failed "Failed to add reference: " e)), None), set_world w k)
          | (Ok result, w) =>
              match truthy (category payload) with
              | None => ((Finished (Ok (succeeded result)), None), set_world w k)
              | Some _ =>
                  let '(s, k1) := fetchAndCacheCategories is_truthy id true now (set_world w k) in
                  match s with
                  | Waiting p => ((Waiting p, Some result), k1)
                  | Finished r =>
                      ((Finished match r with
                                 | Ok _ => Ok (succeeded result)
                                 | Throw e => Throw (failed "Failed to add reference: " e)
                                 end, None), k1)
                  end
              end
          end
      end
  end.

(** [handleAddReference] from the settlement of [getCategories]. *)
Definition handleAddReference_resumed (id : Z) (result : Value) (out : Settlement) (now : Z)
    (k : State) : Res (MessageResponse Value) * State :=
  match fetchAndCacheCategories_resumed id out now k with
  | (Ok _, k1) => (Ok (succeeded result), k1)
  | (Throw e, k1) => (Throw (failed "Failed to add reference: " e), k1)
  end.

End Handlers.

(** The request behind promise [p] runs to its end, as [finish] has it;
    the settlement is what a function waiting for [p] resumes with. *)
Definition settle_read (p : nat) (k : State) : option (Settlement * State) :=
  match finish p (client k) with
  | Some c =>
      match Dedup.observe (dedup c) p with
      | Some out => Some (out, mkState c (caches k))
      | None => None
      end
  | None => None
  end.

(** ** Concrete states *)

Definition fresh_state (net : list FetchOutcome) : State :=
  mkState (mkClient (fresh_world net) Dedup.empty) (mkCaches None None).

(** Arrays and objects are truthy; [null] is not. *)
Definition not_null (v : Value) : bool := negb (String.eqb v "null").


(** The projects were cached at clock reading 1000. *)
Definition projects_cached : State :=
  snd (setCachedProjects "[]" 1000 (fresh_state [])).

(** The storage API rejects the next call. *)
Definition storage_error : Exn := new_Error "QuotaExceededError".
Definition storage_down (k : State) : State :=
  set_world (set_faults [Some storage_error] (world (client k))) k.

(** The categories of projects 1 and 2 were cached at clock readings 1000
    and 2000. *)
Definition categories_cached : State :=
  snd (setCachedCategories 2 "[2]" 2000 (snd (setCachedCategories 1 "[1]" 1000 (fresh_state [])))).

Definition reference_with_category : AddReferencePayload :=
  mkPayload (Some 7) (Some "@article{key}") (Some "Surveys") "{}".

Definition created : Response := answer 201 "Created" (BodyJson None None "{}").

(** A session in which the post of a reference succeeds. *)
Definition ready_to_add : State :=
  mkState (mkClient (with_token [Responds created]) Dedup.empty) (mkCaches None None).

End Worker.

(* ===================================================================== *)
(** * Properties of the rate limiter                                      *)
(* ===================================================================== *)

Import Limiter.

Section Bounds.
Local Open Scope Q_scope.
Local Arguments Qfloor : simpl never.
Local Arguments Qmin : simpl never.
Local Arguments tokensToAdd : simpl never.
Local Arguments Qplus : simpl never.
Local Arguments Qminus : simpl never.

Lemma Qmin_le_l a b : Qmin a b <= a.
Proof. apply Q.le_min_l. Qed.
Lemma Qmin_ge a b c : c <= a -> c <= b -> c <= Qmin a b.
Proof. intros. apply Q.min_glb; assumption. Qed.

Lemma refill_maxTokens s now : maxTokens (refillTokens s now) = maxTokens s.
Proof. unfold refillTokens. destruct (Qle_bool _ _); reflexivity. Qed.

Lemma refill_upper s now :
  tokens s <= maxTokens s -> tokens (refillTokens s now) <= maxTokens s.
Proof.
  unfold refillTokens. destruct (Qle_bool _ _); simpl; intros; [apply Qmin_le_l | assumption].
Qed.

Lemma floor_nonneg q : 1 <= q -> 0 <= inject_Z (Qfloor q).
Proof.
  intros H. apply Qfloor_resp_le in H. change (Qfloor 1) with 1%Z in H.
  apply (Qle_trans _ (inject_Z 1)); [discriminate | now rewrite <- Zle_Qle].
Qed.

Lemma refill_lower s now :
  0 <= maxTokens s -> 0 <= tokens s -> 0 <= tokens (refillTokens s now).
Proof.
  unfold refillTokens. destruct (Qle_bool _ _) eqn:E; simpl; intros; [|assumption].
  apply Qle_bool_iff in E. apply Qmin_ge; [assumption|].
  pose proof (floor_nonneg _ E) as F.
  generalize dependent (inject_Z (Qfloor (tokensToAdd s now))). intros; lra.
Qed.

End Bounds.

Section Invariant.
Local Open Scope Q_scope.
Local Arguments Qfloor : simpl never.
Local Arguments Qmin : simpl never.
Local Arguments tokensToAdd : simpl never.
Local Arguments Qplus : simpl never.
Local Arguments Qminus : simpl never.
Local Arguments refillTokens : simpl never.
Local Arguments sort_queue : simpl never.
Local Arguments Z.ltb : simpl never.
Local Arguments Z.leb : simpl never.
Local Arguments Z.sub : simpl never.
Local Arguments Z.add : simpl never.

Lemma insert_by_priority_nonempty r l : insert_by_priority r l <> [].
Proof. destruct l; simpl; [discriminate|]. destruct (_ <? _)%Z; discriminate. Qed.

Lemma sort_queue_nil_inv l : sort_queue l = [] -> l = [].
Proof.
  destruct l; [reflexivity|]. unfold sort_queue. simpl.
  intros H. now apply insert_by_priority_nonempty in H.
Qed.

Lemma refill_queue s now : queue (refillTokens s now) = queue s.
Proof. unfold refillTokens. destruct (Qle_bool _ _); reflexivity. Qed.

(** What one run of [dispatch] does to the bucket. *)
Lemma dispatch_spec y now y' k :
  dispatch y now = (y', k) ->
  drainers y' = drainers y /\ maxTokens (rl y') = maxTokens (rl y) /\
  ((k = None /\ tokens (rl y') = tokens (rl y) /\ queue (rl y) = []) \/
   (exists r, k = Some (KAwaitFn r) /\ tokens (rl y') = tokens (rl y) - 1)).
Proof.
  unfold dispatch. destruct (sort_queue _) as [|r rest] eqn:S; intros [= <- <-]; simpl.
  - apply sort_queue_nil_inv in S. split; [|split]; [reflexivity..|left; auto].
  - destruct (100 <? _)%Z; (split; [|split]; [reflexivity..|right; eauto]).
Qed.

(** What one turn of the loop does to the bucket. *)
Lemma loop_head_spec y now y' k :
  loop_head y now = (y', k) ->
  drainers y' = drainers y /\ maxTokens (rl y') = maxTokens (rl y) /\
  ((k = None /\ tokens (rl y') = tokens (rl y)) \/
   (exists u, k = Some (KSleepToken u) /\ tokens (rl y') = tokens (refillTokens (rl y) now)) \/
   (exists u, k = Some (KSleepDelay u) /\ tokens (rl y') = tokens (refillTokens (rl y) now) /\
              1 <= tokens (rl y')) \/
   (exists r, k = Some (KAwaitFn r) /\ tokens (rl y') = tokens (refillTokens (rl y) now) - 1 /\
              1 <= tokens (refillTokens (rl y) now))).
Proof.
  unfold loop_head. destruct (queue (rl y)) as [|q0 qs] eqn:Q.
  - intros [= <- <-]. simpl. split; [|split]; [reflexivity..|left; auto].
  - destruct (Qlt_le_dec _ 1) as [L|L].
    + intros [= <- <-]. simpl. rewrite refill_maxTokens. repeat split. right. left. eauto.
    + destruct (_ && _).
      * intros [= <- <-]. simpl. rewrite refill_maxTokens. repeat split.
        right. right. left. eauto.
      * intros D. apply dispatch_spec in D. simpl in D.
        destruct D as (D1 & D2 & D3). rewrite refill_maxTokens in D2.
        repeat split; try assumption.
        destruct D3 as [(-> & _ & E)|[r [-> E]]].
        -- rewrite refill_queue, Q in E. discriminate.
        -- right. right. right. exists r. rewrite E. auto.
Qed.

Lemma rl_add_drainer p : rl (add_drainer p) = rl (fst p).
Proof. destruct p as [y [k|]]; reflexivity. Qed.
Lemma rl_replace_drainer i p : rl (replace_drainer i p) = rl (fst p).
Proof. destruct p as [y [k|]]; reflexivity. Qed.

Lemma loop_head_upper y now :
  tokens (rl y) <= maxTokens (rl y) ->
  tokens (rl (fst (loop_head y now))) <= maxTokens (rl (fst (loop_head y now))).
Proof.
  intros U. destruct (loop_head y now) as [y' k] eqn:E. apply loop_head_spec in E.
  destruct E as (_ & M & [(_ & T)|[(u & _ & T)|[(u & _ & T & _)|(r & _ & T & _)]]]);
    simpl; rewrite M, T; try assumption;
    pose proof (refill_upper (rl y) now U); lra.
Qed.

Lemma dispatch_upper y now :
  tokens (rl y) <= maxTokens (rl y) ->
  tokens (rl (fst (dispatch y now))) <= maxTokens (rl (fst (dispatch y now))).
Proof.
  intros U. destruct (dispatch y now) as [y' k] eqn:E. apply dispatch_spec in E.
  destruct E as (_ & M & [(_ & T & _)|(r & _ & T)]); simpl; rewrite M, T; lra.
Qed.

Lemma updateFromHeaders_upper s l r t s' :
  updateFromHeaders s l r t = inr s' ->
  maxTokens s' = maxTokens s /\ tokens s' <= tokens s.
Proof.
  unfold updateFromHeaders. destruct (valid_time_value _); [|discriminate].
  intros [= <-]. destruct l as [l|], r as [r|]; try (split; [reflexivity|lra]).
  destruct (Qlt_le_dec _ _); simpl; split; try reflexivity; [apply Qmin_le_l | lra].
Qed.

(** No event takes the token count above the capacity. *)
Lemma step_upper y e y' :
  step y e = Some y' ->
  tokens (rl y) <= maxTokens (rl y) ->
  tokens (rl y') <= maxTokens (rl y').
Proof.
  intros S U. destruct e as [f prio now|i now|i out now|l r t|now]; simpl in S.
  - injection S as <-. unfold throttle.
    destruct (_ <=? _)%Z; simpl; [assumption|].
    unfold processQueue. simpl. destruct (processing (rl y)); simpl; [assumption|].
    rewrite rl_add_drainer. apply loop_head_upper. assumption.
  - destruct (drainers y !! i) as [[u|u|r]|]; try discriminate;
      destruct (u <=? now)%Z; try discriminate; injection S as <-;
      rewrite rl_replace_drainer; [apply loop_head_upper | apply dispatch_upper]; assumption.
  - destruct (drainers y !! i) as [[u|u|r]|]; try discriminate. injection S as <-.
    rewrite rl_replace_drainer. apply loop_head_upper. assumption.
  - destruct (updateFromHeaders _ _ _ _) as [e|s] eqn:E; injection S as <-; [assumption|].
    apply updateFromHeaders_upper in E as [M T]. simpl. rewrite M. lra.
  - injection S as <-. simpl. lra.
Qed.

Lemma run_upper evs : forall y y',
  run y evs = Some y' ->
  tokens (rl y) <= maxTokens (rl y) ->
  tokens (rl y') <= maxTokens (rl y').
Proof.
  induction evs as [|e evs IH]; simpl; intros y y' R U.
  - now injection R as <-.
  - destruct (step y e) as [y1|] eqn:S; [|discriminate].
    eapply IH; [eassumption|]. eapply step_upper; eassumption.
Qed.

(** ** The lower bound *)

Lemma delaying_false l : Forall nondelay l -> existsb is_delay l = false.
Proof.
  induction 1 as [|k l H _ IH]; simpl; [reflexivity|]. now rewrite H, IH.
Qed.

Lemma not_delaying l : existsb is_delay l = false -> Forall nondelay l.
Proof.
  induction l as [|k l IH]; simpl; [constructor|].
  intros H. apply orb_false_iff in H as [H1 H2]. constructor; auto.
Qed.

Lemma delete_app_last (l : list Cont) k : delete (length l) (l ++ [k])%list = l.
Proof. induction l; simpl; [reflexivity|]. now f_equal. Qed.

Lemma delete_insert_same (l : list Cont) i k : delete i (<[i:=k]> l) = delete i l.
Proof.
  revert i. induction l as [|x l IH]; intros [|i]; simpl; try reflexivity. now f_equal.
Qed.

Lemma Forall_insert_of_delete (l : list Cont) i k :
  Forall nondelay (delete i l) -> nondelay k -> Forall nondelay (<[i:=k]> l).
Proof.
  revert i. induction l as [|x l IH]; intros [|i]; simpl; intros F K; try assumption.
  - constructor; assumption.
  - inversion F; subst. constructor; auto.
Qed.

Lemma the_delaying_one (l : list Cont) i j k :
  Forall nondelay (delete i l) -> l !! j = Some k -> is_delay k = true -> j = i.
Proof.
  revert i j. induction l as [|x l IH]; intros i j F L K; [discriminate|].
  destruct i as [|i], j as [|j]; simpl in *.
  - reflexivity.
  - rewrite Forall_lookup in F. specialize (F _ _ L). unfold nondelay in F. congruence.
  - injection L as ->. inversion F; subst. unfold nondelay in *. congruence.
  - inversion F; subst. f_equal. eapply IH; eassumption.
Qed.

Lemma placed_add l k :
  Forall nondelay l ->
  placed (match k with Some c => (l ++ [c])%list | None => l end) k.
Proof.
  intros F. destruct k as [[u|u|r]|]; simpl; try assumption.
  - apply Forall_app. split; [assumption|]. repeat constructor.
  - exists (length l). now rewrite delete_app_last.
  - apply Forall_app. split; [assumption|]. repeat constructor.
Qed.

Lemma placed_replace l i k :
  Forall nondelay (delete i l) ->
  placed (match k with Some c => <[i:=c]> l | None => delete i l end) k.
Proof.
  intros F. destruct k as [[u|u|r]|]; simpl; try assumption.
  - apply Forall_insert_of_delete; [assumption|reflexivity].
  - exists i. now rewrite delete_insert_same.
  - apply Forall_insert_of_delete; [assumption|reflexivity].
Qed.

Lemma Inv_intro y k :
  0 <= maxTokens (rl y) -> 0 <= tokens (rl y) -> busy (rl y) ->
  placed (drainers y) k ->
  (forall u, k = Some (KSleepDelay u) -> 1 <= tokens (rl y) /\ queue (rl y) <> []) ->
  Inv y.
Proof.
  intros M T B P D. split; [assumption|]. split; [assumption|]. split; [assumption|].
  intros E. destruct k as [[u|u|r]|]; simpl in P;
    try (apply delaying_false in P; unfold delaying in E; congruence).
  destruct (D u eq_refl). auto.
Qed.

Lemma dispatch_busy y now : busy (rl y) -> busy (rl (fst (dispatch y now))).
Proof.
  unfold busy, dispatch. intros B. destruct (sort_queue (queue (rl y))) as [|r rest] eqn:S; simpl.
  - intros H. now elim H.
  - assert (P : processing (rl y) = true).
    { apply B. intros E. rewrite E in S. discriminate. }
    destruct (100 <? _)%Z; simpl; auto.
Qed.

Lemma refill_processing s now : processing (refillTokens s now) = processing s.
Proof. unfold refillTokens. destruct (Qle_bool _ _); reflexivity. Qed.

Lemma loop_head_busy y now y' k :
  loop_head y now = (y', k) -> busy (rl y) ->
  busy (rl y') /\ (forall u, k = Some (KSleepDelay u) -> queue (rl y') <> []).
Proof.
  unfold loop_head. destruct (queue (rl y)) as [|q0 qs] eqn:Q.
  - intros [= <- <-] B. split; [|discriminate]. unfold busy. simpl. rewrite Q. intros H. now elim H.
  - intros E B.
    assert (B1 : busy (refillTokens (rl y) now)).
    { unfold busy. rewrite refill_queue, refill_processing. exact B. }
    destruct (Qlt_le_dec _ 1) as [L|L].
    + injection E as <- <-. split; [exact B1|discriminate].
    + destruct (_ && _).
      * injection E as <- <-. split; [exact B1|]. intros _ _. simpl.
        rewrite refill_queue, Q. discriminate.
      * pose proof (dispatch_busy (mkSys (refillTokens (rl y) now) (drainers y) (started y)
                                         (settled y)) now B1) as B2.
        rewrite E in B2. split; [exact B2|]. intros u ->.
        apply dispatch_spec in E as (_ & _ & [(E1 & _)|(r & E1 & _)]); discriminate.
Qed.

Lemma loop_head_lower y now y' k :
  loop_head y now = (y', k) ->
  0 <= maxTokens (rl y) -> 0 <= tokens (rl y) ->
  0 <= maxTokens (rl y') /\ 0 <= tokens (rl y') /\
  (forall u, k = Some (KSleepDelay u) -> 1 <= tokens (rl y')).
Proof.
  intros E M T. apply loop_head_spec in E.
  pose proof (refill_lower (rl y) now M T) as R.
  destruct E as (_ & M' & [(-> & T')|[(u & -> & T')|[(u & -> & T' & G)|(r & -> & T' & G)]]]);
    rewrite M', ?T'; repeat split; try assumption; try discriminate; try lra.
  intros ? _. rewrite <- T'. assumption.
Qed.

Lemma dispatch_lower y now y' k :
  dispatch y now = (y', k) ->
  0 <= maxTokens (rl y) -> 1 <= tokens (rl y) ->
  0 <= maxTokens (rl y') /\ 0 <= tokens (rl y') /\
  (forall u, k <> Some (KSleepDelay u)).
Proof.
  intros E M T. apply dispatch_spec in E.
  destruct E as (_ & M' & [(-> & T' & _)|(r & -> & T')]);
    rewrite M', T'; repeat split; try assumption; try discriminate; lra.
Qed.

Lemma drainers_add_drainer y k :
  drainers (add_drainer (y, k)) = match k with Some c => (drainers y ++ [c])%list | None => drainers y end.
Proof. destruct k; reflexivity. Qed.
Lemma drainers_replace_drainer i y k :
  drainers (replace_drainer i (y, k)) =
  match k with Some c => <[i:=c]> (drainers y) | None => delete i (drainers y) end.
Proof. destruct k; reflexivity. Qed.

(** The activation resumes at the loop head: the invariant after it. *)
Lemma Inv_loop_head y now y' k :
  loop_head y now = (y', k) ->
  0 <= maxTokens (rl y) -> 0 <= tokens (rl y) -> busy (rl y) ->
  0 <= maxTokens (rl y') /\ 0 <= tokens (rl y') /\ busy (rl y') /\
  (forall u, k = Some (KSleepDelay u) -> 1 <= tokens (rl y') /\ queue (rl y') <> []).
Proof.
  intros E M T B.
  destruct (loop_head_lower _ _ _ _ E M T) as (M1 & T1 & D1).
  destruct (loop_head_busy _ _ _ _ E B) as (B1 & Q1).
  split; [exact M1|]. split; [exact T1|]. split; [exact B1|].
  intros u K. split; [exact (D1 u K)|exact (Q1 u K)].
Qed.

(** A header update that leaves [b] tokens or does not lower the count. *)
Lemma updateFromHeaders_lower s l r t s' b :
  updateFromHeaders s l r t = inr s' ->
  b <= tokens s ->
  match l, r with
  | Some l, Some r => if Qlt_le_dec r (l * (1 # 10)) then Qle_bool b r else true
  | _, _ => true
  end = true ->
  b <= tokens s' /\ maxTokens s' = maxTokens s /\ queue s' = queue s /\
  processing s' = processing s.
Proof.
  unfold updateFromHeaders. destruct (valid_time_value _); [|discriminate].
  intros [= <-] T U. destruct l as [l|], r as [r|]; try (repeat split; assumption).
  destruct (Qlt_le_dec _ _); simpl; repeat split; try assumption.
  apply Qle_bool_iff in U. now apply Qmin_ge.
Qed.

(** An event that does not disturb keeps the token count non-negative. *)
Lemma step_lower y e y' :
  Inv y -> undisturbed y e = true -> step y e = Some y' -> Inv y'.
Proof.
  intros (M & T & B & D) U S.
  destruct e as [f prio now|i now|i out now|l r t|now]; simpl in S, U.
  - (* throttle *)
    injection S as <-. unfold throttle.
    destruct (_ <=? _)%Z; simpl; [exact (conj M (conj T (conj B D)))|].
    unfold processQueue. simpl. destruct (processing (rl y)) eqn:P; simpl.
    + split; [assumption|]. split; [assumption|]. split; [intros _; exact P|].
      intros Dl. destruct (D Dl) as (T1 & _ & F). split; [assumption|]. split; [|assumption].
      simpl. now destruct (queue (rl y)).
    + assert (Dl : delaying y = false).
      { destruct (delaying y) eqn:Dl; [|reflexivity].
        destruct (D eq_refl) as (_ & Q & _). rewrite (B Q) in P. discriminate. }
      apply not_delaying in Dl.
      match goal with |- Inv (add_drainer (loop_head ?a ?b)) =>
        destruct (loop_head a b) as [y1 k] eqn:E end.
      assert (B0 : busy (set_processing true (set_queue (queue (rl y) ++ [{| fn := f; priority := prio; timestamp := now |}]) (rl y))))
        by (intros _; reflexivity).
      pose proof (Inv_loop_head _ _ _ _ E M T B0) as (M1 & T1 & B1 & D1).
      apply loop_head_spec in E as (Dr & _). simpl in Dr.
      apply (Inv_intro _ k);
        rewrite ?rl_add_drainer, ?drainers_add_drainer, ?Dr; simpl fst; try assumption.
      now apply placed_add.
  - (* a timer fires *)
    destruct (drainers y !! i) as [[u|u|r]|] eqn:L; try discriminate.
    + rewrite orb_false_r in U. apply negb_true_iff in U. apply not_delaying in U.
      destruct (u <=? now)%Z; [|discriminate]. injection S as <-.
      destruct (loop_head y now) as [y1 k] eqn:E.
      pose proof (Inv_loop_head _ _ _ _ E M T B) as (M1 & T1 & B1 & D1).
      apply loop_head_spec in E as (Dr & _).
      apply (Inv_intro _ k);
        rewrite ?rl_replace_drainer, ?drainers_replace_drainer, ?Dr; simpl fst; try assumption.
      apply placed_replace. now apply Forall_delete.
    + assert (Dl : delaying y = true).
      { unfold delaying. apply existsb_exists. exists (KSleepDelay u).
        split; [eapply list_elem_of_In, list_elem_of_lookup_2; eassumption|reflexivity]. }
      destruct (D Dl) as (T1 & _ & i0 & F).
      assert (i = i0) as -> by (eapply the_delaying_one; [eassumption..|reflexivity]).
      destruct (u <=? now)%Z; [|discriminate]. injection S as <-.
      destruct (dispatch y now) as [y1 k] eqn:E.
      pose proof (dispatch_lower _ _ _ _ E M T1) as (M1 & T1' & D1).
      pose proof (dispatch_busy y now B) as B1. rewrite E in B1. simpl in B1.
      apply dispatch_spec in E as (Dr & _).
      apply (Inv_intro _ k);
        rewrite ?rl_replace_drainer, ?drainers_replace_drainer, ?Dr; simpl fst; try assumption.
      * now apply placed_replace.
      * intros u' ->. now elim (D1 u').
  - (* a request settles *)
    apply negb_true_iff in U. apply not_delaying in U.
    destruct (drainers y !! i) as [[u|u|r]|] eqn:L; try discriminate.
    injection S as <-.
    match goal with |- Inv (replace_drainer i (loop_head ?a ?b)) =>
      destruct (loop_head a b) as [y1 k] eqn:E end.
    pose proof (Inv_loop_head _ _ _ _ E M T B) as (M1 & T1 & B1 & D1).
    apply loop_head_spec in E as (Dr & _). simpl in Dr.
    apply (Inv_intro _ k);
      rewrite ?rl_replace_drainer, ?drainers_replace_drainer, ?Dr; simpl fst; try assumption.
    apply placed_replace. now apply Forall_delete.
  - (* a header update *)
    destruct (updateFromHeaders _ _ _ _) as [e|s] eqn:E; injection S as <-;
      [exact (conj M (conj T (conj B D)))|].
    destruct (delaying y) eqn:Dl.
    + destruct (D eq_refl) as (T1 & Q & F).
      assert (U' : match l, r with
                   | Some l, Some r => if Qlt_le_dec r (l * (1 # 10)) then Qle_bool 1 r else true
                   | _, _ => true
                   end = true) by (destruct l, r; assumption).
      destruct (updateFromHeaders_lower _ _ _ _ _ 1 E T1 U') as (T' & M' & Q' & P').
      split; [simpl; rewrite M'; assumption|]. split; [simpl; lra|].
      split; [unfold busy; simpl; rewrite Q', P'; exact B|].
      intros _. simpl. rewrite Q'. auto.
    + assert (U' : match l, r with
                   | Some l, Some r => if Qlt_le_dec r (l * (1 # 10)) then Qle_bool 0 r else true
                   | _, _ => true
                   end = true) by (destruct l, r; assumption).
      destruct (updateFromHeaders_lower _ _ _ _ _ 0 E T U') as (T' & M' & Q' & P').
      split; [simpl; rewrite M'; assumption|]. split; [assumption|].
      split; [unfold busy; simpl; rewrite Q', P'; exact B|].
      unfold delaying in *. simpl. rewrite Dl. discriminate.
  - (* reset *)
    apply negb_true_iff in U. injection S as <-.
    split; [assumption|]. split; [assumption|]. split; [intros H; now elim H|].
    unfold delaying in *. simpl. rewrite U. discriminate.
Qed.

Lemma run_lower evs : forall y y',
  Inv y -> undisturbed_run y evs = true -> run y evs = Some y' -> Inv y'.
Proof.
  induction evs as [|e evs IH]; simpl; intros y y' I U R.
  - now injection R as <-.
  - apply andb_true_iff in U as [U1 U2].
    destruct (step y e) as [y1|] eqn:S; [|discriminate].
    eapply IH; [|eassumption..]. eapply step_lower; eassumption.
Qed.

End Invariant.

(** * Order of execution *)

Section Order.

Lemma insert_by_priority_perm r l : Permutation (insert_by_priority r l) (r :: l).
Proof.
  induction l as [|x l IH]; simpl; [reflexivity|].
  destruct (priority r <? priority x); [|reflexivity].
  rewrite IH. apply perm_swap.
Qed.

Lemma sort_queue_perm l : Permutation (sort_queue l) l.
Proof.
  induction l as [|x l IH]; [reflexivity|].
  unfold sort_queue in *. simpl. rewrite insert_by_priority_perm. now constructor.
Qed.

Lemma insert_by_priority_sorted r l :
  StronglySorted by_priority_desc l -> StronglySorted by_priority_desc (insert_by_priority r l).
Proof.
  induction 1 as [|x l S IH F]; simpl.
  - repeat constructor.
  - destruct (priority r <? priority x) eqn:E.
    + constructor; [assumption|].
      apply (Permutation_Forall (Permutation_sym (insert_by_priority_perm r l))).
      constructor; [|assumption]. unfold by_priority_desc. lia.
    + constructor; [constructor; assumption|].
      constructor; [unfold by_priority_desc; lia|].
      eapply Forall_impl; [exact F|]. unfold by_priority_desc. intros; simpl in *; lia.
Qed.

Lemma sort_queue_sorted l : StronglySorted by_priority_desc (sort_queue l).
Proof.
  induction l as [|x l IH]; [constructor|].
  unfold sort_queue in *. simpl. now apply insert_by_priority_sorted.
Qed.

Lemma insert_by_priority_stable p r l :
  List.filter (has_priority p) (insert_by_priority r l) =
  List.filter (has_priority p) (r :: l).
Proof.
  induction l as [|x l IH]; [reflexivity|].
  simpl insert_by_priority. destruct (priority r <? priority x) eqn:E; [|reflexivity].
  simpl in *. rewrite IH. unfold has_priority.
  destruct (priority x =? p) eqn:X, (priority r =? p) eqn:R; try reflexivity. lia.
Qed.

Lemma sort_queue_stable p l :
  List.filter (has_priority p) (sort_queue l) = List.filter (has_priority p) l.
Proof.
  induction l as [|x l IH]; [reflexivity|].
  unfold sort_queue in *. simpl foldr. rewrite insert_by_priority_stable.
  simpl. now rewrite IH.
Qed.

Lemma insert_by_priority_head r l :
  Forall (by_priority_desc r) l -> insert_by_priority r l = r :: l.
Proof.
  destruct 1 as [|x l H _]; [reflexivity|]. simpl.
  unfold by_priority_desc in H. destruct (priority r <? priority x) eqn:E; [lia|reflexivity].
Qed.

Lemma sort_queue_sorted_id l : StronglySorted by_priority_desc l -> sort_queue l = l.
Proof.
  induction 1 as [|x l S IH F]; [reflexivity|].
  unfold sort_queue in *. simpl. rewrite IH. now apply insert_by_priority_head.
Qed.

Lemma sort_queue_tail r rest l : sort_queue l = r :: rest -> sort_queue rest = rest.
Proof.
  intros E. pose proof (sort_queue_sorted l) as S. rewrite E in S.
  inversion S; subst. now apply sort_queue_sorted_id.
Qed.

Lemma advanced_0 y y' :
  started y' = started y -> queue (rl y') = queue (rl y) -> advanced 0 y y'.
Proof. intros S Q. split; simpl; [now rewrite app_nil_r | now rewrite Q]. Qed.

Lemma dispatch_advanced y now : exists n, advanced n y (fst (dispatch y now)).
Proof.
  unfold dispatch. destruct (sort_queue (queue (rl y))) as [|r rest] eqn:E.
  - exists 0%nat. simpl. apply sort_queue_nil_inv in E. now apply advanced_0.
  - exists 1%nat. unfold advanced. rewrite E. simpl.
    split; [reflexivity|].
    destruct (100 <? _); simpl; eapply sort_queue_tail; eassumption.
Qed.

Lemma loop_head_advanced y now : exists n, advanced n y (fst (loop_head y now)).
Proof.
  unfold loop_head. destruct (queue (rl y)) as [|q0 qs] eqn:Q.
  - exists 0%nat. now apply advanced_0.
  - destruct (Qlt_le_dec _ 1).
    + exists 0%nat. apply advanced_0; simpl; [reflexivity|]. now rewrite refill_queue.
    + destruct (_ && _).
      * exists 0%nat. apply advanced_0; simpl; [reflexivity|]. now rewrite refill_queue.
      * match goal with |- context [dispatch ?a ?b] =>
          destruct (dispatch_advanced a b) as [n [A1 A2]] end.
        simpl in A1, A2. rewrite refill_queue, Q in A1, A2.
        exists n. unfold advanced. rewrite Q. split; assumption.
Qed.

Lemma advanced_replace i y0 y p n :
  advanced n y0 (fst p) -> started y = started y0 -> queue (rl y) = queue (rl y0) ->
  advanced n y (replace_drainer i p).
Proof.
  intros [A1 A2] S Q. destruct p as [y1 [k|]]; unfold advanced in *; simpl in *;
    rewrite S, Q; auto.
Qed.

Lemma step_advanced y e y' :
  step y e = Some y' -> no_arrival e = true -> exists n, advanced n y y'.
Proof.
  intros S N. destruct e as [f prio now|i now|i out now|l r t|now]; try discriminate;
    simpl in S.
  - destruct (drainers y !! i) as [[u|u|r]|]; try discriminate;
      destruct (u <=? now); try discriminate; injection S as <-.
    + destruct (loop_head_advanced y now) as [n A]. exists n. now apply (advanced_replace _ y).
    + destruct (dispatch_advanced y now) as [n A]. exists n. now apply (advanced_replace _ y).
  - destruct (drainers y !! i) as [[u|u|r]|]; try discriminate. injection S as <-.
    match goal with |- context [loop_head ?a ?b] =>
      destruct (loop_head_advanced a b) as [n A] end.
    exists n. eapply advanced_replace; [exact A|reflexivity..].
  - exists 0%nat. destruct (updateFromHeaders _ _ _ _) as [e|s] eqn:E; injection S as <-.
    + now apply advanced_0.
    + apply advanced_0; [reflexivity|]. simpl.
      unfold updateFromHeaders in E. destruct (valid_time_value _); [|discriminate].
      injection E as <-. destruct l, r; try reflexivity. destruct (Qlt_le_dec _ _); reflexivity.
Qed.

Lemma advanced_trans n m y1 y2 y3 :
  advanced n y1 y2 -> advanced m y2 y3 -> advanced (n + m) y1 y3.
Proof.
  intros [A1 A2] [B1 B2]. unfold advanced. rewrite B1, B2, A1, A2.
  split.
  - rewrite <- app_assoc. f_equal. apply take_take_drop.
  - apply drop_drop.
Qed.

Lemma run_advanced evs : forall y y',
  run y evs = Some y' -> forallb no_arrival evs = true -> exists n, advanced n y y'.
Proof.
  induction evs as [|e evs IH]; simpl; intros y y' R N.
  - injection R as <-. exists 0%nat. now apply advanced_0.
  - apply andb_true_iff in N as [N1 N2].
    destruct (step y e) as [y1|] eqn:S; [|discriminate].
    destruct (step_advanced _ _ _ S N1) as [n A].
    destruct (IH _ _ R N2) as [m B].
    exists (n + m)%nat. eapply advanced_trans; eassumption.
Qed.

Lemma lane_dispatch p y now : lane p (fst (dispatch y now)) = lane p y.
Proof.
  unfold lane, dispatch. destruct (sort_queue (queue (rl y))) as [|r rest] eqn:E.
  - apply sort_queue_nil_inv in E. simpl. now rewrite E.
  - assert (Q : queue (rl (fst (
        let s1 := set_queue rest (rl y) in
        let s2 := set_tokens (tokens s1 - 1)%Q s1 in
        let s3 := set_lastRequestTime now s2 in
        let s4 := set_totalRequests (totalRequests s3 + 1) s3 in
        let s5 := if 100 <? now - timestamp r
                  then set_delayedRequests (delayedRequests s4 + 1) s4 else s4 in
        (mkSys s5 (drainers y) (started y ++ [r]) (settled y), Some (KAwaitFn r))))) = rest)
      by (simpl; destruct (100 <? _); reflexivity).
    cbv zeta in Q. rewrite Q. cbn [fst started].
    rewrite <- app_assoc. simpl. rewrite !List.filter_app. f_equal.
    change (r :: rest) with ([r] ++ rest)%list. rewrite <- (sort_queue_stable p (queue (rl y))), E.
    reflexivity.
Qed.

Lemma lane_loop_head p y now : lane p (fst (loop_head y now)) = lane p y.
Proof.
  unfold loop_head. destruct (queue (rl y)) as [|q0 qs] eqn:Q.
  - unfold lane. simpl. now rewrite Q.
  - destruct (Qlt_le_dec _ 1).
    + unfold lane. simpl. now rewrite refill_queue, Q.
    + destruct (_ && _).
      * unfold lane. simpl. now rewrite refill_queue, Q.
      * rewrite lane_dispatch. unfold lane. simpl. now rewrite refill_queue, Q.
Qed.

Lemma lane_replace p i y0 pr :
  lane p (fst pr) = lane p y0 -> lane p (replace_drainer i pr) = lane p y0.
Proof. destruct pr as [y1 [k|]]; exact (fun H => H). Qed.

Lemma lane_add p y0 pr : lane p (fst pr) = lane p y0 -> lane p (add_drainer pr) = lane p y0.
Proof. destruct pr as [y1 [k|]]; exact (fun H => H). Qed.

Lemma step_lane p y e y' :
  step y e = Some y' -> no_reset e = true ->
  lane p y' = (lane p y ++ List.filter (has_priority p) (accepted y e))%list.
Proof.
  intros S N. destruct e as [f prio now|i now|i out now|l r t|now]; try discriminate;
    simpl in S; cbn [accepted List.filter]; rewrite ?app_nil_r.
  - injection S as <-. unfold throttle.
    destruct (maxQueueSize (rl y) <=? Z.of_nat (length (queue (rl y)))); simpl snd.
    { simpl. now rewrite app_nil_r. }
    unfold processQueue. cbn [rl processing set_queue].
    set (y1 := mkSys (set_queue (queue (rl y) ++ [_]) (rl y)) _ _ _).
    assert (L1 : lane p y1 =
                 (lane p y ++ List.filter (has_priority p)
                                [{| fn := f; priority := prio; timestamp := now |}])%list).
    { unfold lane, y1. simpl. rewrite app_assoc, List.filter_app. reflexivity. }
    rewrite <- L1. destruct (processing (rl y)); [reflexivity|].
    apply lane_add. now rewrite lane_loop_head.
  - destruct (drainers y !! i) as [[u|u|r]|]; try discriminate;
      destruct (u <=? now); try discriminate; injection S as <-; apply lane_replace;
      [apply lane_loop_head|apply lane_dispatch].
  - destruct (drainers y !! i) as [[u|u|r]|]; try discriminate. injection S as <-.
    apply lane_replace. now rewrite lane_loop_head.
  - destruct (updateFromHeaders _ _ _ _) as [e|s] eqn:E; injection S as <-; [reflexivity|].
    unfold lane. simpl. unfold updateFromHeaders in E.
    destruct (valid_time_value _); [|discriminate]. injection E as <-.
    destruct l, r; try reflexivity. destruct (Qlt_le_dec _ _); reflexivity.
Qed.

Lemma run_lane p evs : forall y y',
  run y evs = Some y' -> forallb no_reset evs = true ->
  lane p y' = (lane p y ++ List.filter (has_priority p) (enqueued y evs))%list.
Proof.
  induction evs as [|e evs IH]; intros y y' R N.
  - injection R as <-. simpl. now rewrite app_nil_r.
  - simpl in R, N. apply andb_true_iff in N as [N1 N2].
    destruct (step y e) as [y1|] eqn:S; [|discriminate].
    rewrite (IH _ _ R N2), (step_lane p _ _ _ S N1).
    simpl enqueued. rewrite S, <- app_assoc, <- List.filter_app. reflexivity.
Qed.

End Order.

(** C5 fails in the code: with the configuration of [globalRateLimiter], a
    header update reporting no remaining quota that arrives during the
    minimum-delay wait leaves the bucket at zero, and the request that was
    waiting then takes a token all the same: the count is -1.  The loop
    tests [tokens < 1] before [await this.sleep(delay)] and takes the token
    after it. *)
Lemma tokens_negative_after_header_update_in_delay :
  run (new_Sys globalConfig 1000) race_trace = Some (after race_trace) /\
  (tokens (rl (after race_trace)) < 0)%Q.
Proof. split; vm_compute; reflexivity. Qed.

(** A header update is not needed for it: after a [reset()] two activations
    can be in the minimum-delay wait at once, each past its token check,
    with one token between them. *)
Example tokens_negative_with_two_activations :
  run (new_Sys one_per_minute 1000) (take 5 two_loops_trace) =
    Some (default (new_Sys one_per_minute 1000)
            (run (new_Sys one_per_minute 1000) (take 5 two_loops_trace))) /\
  drainers (default (new_Sys one_per_minute 1000)
              (run (new_Sys one_per_minute 1000) (take 5 two_loops_trace))) =
    [KSleepDelay 1100; KSleepDelay 1100] /\
  option_map (fun y => tokens (rl y)) (run (new_Sys one_per_minute 1000) two_loops_trace) =
    Some (-1)%Q.
Proof. split; [|split]; vm_compute; reflexivity. Qed.

(** C5, the part of it that holds.  Whatever the events since the limiter
    was created, the token count never exceeds [maxTokens].  It is never
    negative either when the configured rate is not negative and the run is
    undisturbed: a header update that lowers the count leaves a remaining
    quota of at least zero, and of at least one while an activation is in
    its minimum-delay wait, between the token check and the consumption;
    during such a wait [reset()] is not called and no other activation
    resumes.  Calls of [throttle] are free at all times. *)
Theorem token_bucket_bound config now evs y :
  run (new_Sys config now) evs = Some y ->
  (tokens (rl y) <= maxTokens (rl y))%Q /\
  ((0 <= orQ (cfg_requestsPerMinute config) 60)%Q ->
   undisturbed_run (new_Sys config now) evs = true ->
   (0 <= tokens (rl y))%Q).
Proof.
  intros R. split.
  - eapply run_upper; [eassumption|]. simpl. apply Qle_refl.
  - intros C U. eapply (run_lower evs (new_Sys config now) y); try eassumption.
    split; [exact C|]. split; [exact C|]. split; [intros H; now elim H|].
    intros D. discriminate.
Qed.

(** The bound at two runs of [globalRateLimiter]: the header update of the
    failing run arrives after the wait; and the limiter is called, and told
    of five requests left, during the wait. *)
Lemma token_bucket_bound_witness :
  run (new_Sys globalConfig 1000) calm_trace = Some (after calm_trace) /\
  (tokens (rl (after calm_trace)) <= maxTokens (rl (after calm_trace)))%Q /\
  (0 <= tokens (rl (after calm_trace)))%Q /\
  delaying (after (take 3 busy_trace)) = true /\
  delaying (after (take 6 busy_trace)) = true /\
  (0 <= tokens (rl (after busy_trace)))%Q.
Proof.
  assert (R : run (new_Sys globalConfig 1000) calm_trace = Some (after calm_trace))
    by (vm_compute; reflexivity).
  assert (R' : run (new_Sys globalConfig 1000) busy_trace = Some (after busy_trace))
    by (vm_compute; reflexivity).
  split; [exact R|].
  pose proof (token_bucket_bound globalConfig 1000 calm_trace _ R) as [U L].
  pose proof (token_bucket_bound globalConfig 1000 busy_trace _ R') as [_ L'].
  split; [exact U|]. split; [|split; [reflexivity|split; [reflexivity|]]].
  - apply L; [vm_compute; discriminate|vm_compute; reflexivity].
  - apply L'; [vm_compute; discriminate|vm_compute; reflexivity].
Defined.

(** C6.  The drain loop starts queued requests by priority, highest first,
    and among equal priorities in the order of their insertion:

    - as long as nothing arrives and nothing resets the queue, the requests
      started are, in order, an initial segment of the queue sorted by
      [sort_queue], and the rest of that sorted queue is what waits;
    - [sort_queue] orders by descending priority, keeps the elements, and
      keeps the order of the elements of each priority;
    - one dispatch starts the head of the sorted queue;
    - with arrivals too (and no reset), the requests of each priority are
      started in the order in which [throttle] queued them;
    - priorities 1, 5, 3 queued in that order run as 5, 3, 1, and A queued
      before B with the same priority runs before B. *)
Theorem queued_requests_run_by_priority :
  (forall y evs y',
     run y evs = Some y' -> forallb no_arrival evs = true ->
     exists n,
       started y' = (started y ++ take n (sort_queue (queue (rl y))))%list /\
       sort_queue (queue (rl y')) = drop n (sort_queue (queue (rl y)))) /\
  (forall q,
     StronglySorted by_priority_desc (sort_queue q) /\
     Permutation (sort_queue q) q /\
     forall p, List.filter (has_priority p) (sort_queue q) = List.filter (has_priority p) q) /\
  (forall y now r rest,
     sort_queue (queue (rl y)) = r :: rest ->
     dispatch y now = (fst (dispatch y now), Some (KAwaitFn r)) /\
     started (fst (dispatch y now)) = (started y ++ [r])%list /\
     queue (rl (fst (dispatch y now))) = rest) /\
  (forall p y evs y',
     run y evs = Some y' -> forallb no_reset evs = true ->
     lane p y' = (lane p y ++ List.filter (has_priority p) (enqueued y evs))%list) /\
  (map priority (queue (rl (after queued_1_5_3))) = [1; 5; 3] /\
   run (after queued_1_5_3) drain_3 = Some (after (queued_1_5_3 ++ drain_3)) /\
   map priority (started (after (queued_1_5_3 ++ drain_3))) = [0; 5; 3; 1]) /\
  (map fn (queue (rl (after queued_A_B))) = [Opaque 10; Opaque 11] /\
   run (after queued_A_B) drain_2 = Some (after (queued_A_B ++ drain_2)) /\
   map fn (started (after (queued_A_B ++ drain_2))) = [Opaque 0; Opaque 10; Opaque 11]).
Proof.
  split; [|split; [|split; [|split; [|split]]]].
  - intros y evs y' R N. destruct (run_advanced evs y y' R N) as [n A]. exists n. exact A.
  - intros q. split; [apply sort_queue_sorted|]. split; [apply sort_queue_perm|].
    intros p. apply sort_queue_stable.
  - intros y now r rest E. unfold dispatch. rewrite E. simpl.
    destruct (100 <? _); simpl; auto.
  - intros p y evs y' R N. now apply run_lane.
  - split; [|split]; vm_compute; reflexivity.
  - split; [|split]; vm_compute; reflexivity.
Qed.

(** The first part of C6 at the queue holding priorities 1, 5, 3. *)
Lemma queued_requests_run_by_priority_witness :
  run (after queued_1_5_3) drain_3 = Some (after (queued_1_5_3 ++ drain_3)) /\
  forallb no_arrival drain_3 = true /\
  exists n,
    started (after (queued_1_5_3 ++ drain_3)) =
      (started (after queued_1_5_3) ++ take n (sort_queue (queue (rl (after queued_1_5_3)))))%list /\
    sort_queue (queue (rl (after (queued_1_5_3 ++ drain_3)))) =
      drop n (sort_queue (queue (rl (after queued_1_5_3)))).
Proof.
  assert (R : run (after queued_1_5_3) drain_3 = Some (after (queued_1_5_3 ++ drain_3)))
    by (vm_compute; reflexivity).
  assert (N : forallb no_arrival drain_3 = true) by reflexivity.
  split; [exact R|]. split; [exact N|].
  exact (proj1 queued_requests_run_by_priority _ _ _ R N).
Defined.

(** C7.  With [maxQueueSize] requests (or more) waiting, [throttle] rejects at
    once with the queue-full error, a plain [Error]; the limiter, its queue,
    its tokens and what has run are exactly as before. *)
Theorem throttle_rejects_when_queue_full y f prio now :
  maxQueueSize (rl y) <= Z.of_nat (length (queue (rl y))) ->
  throttle y f prio now = (ThrottleRejected queue_full_error, y) /\
  step y (EThrottle f prio now) = Some y /\
  cls queue_full_error = PlainError.
Proof.
  intros H. unfold step, throttle.
  destruct (maxQueueSize (rl y) <=? Z.of_nat (length (queue (rl y)))) eqn:E; [auto|lia].
Qed.

(** C7 at a limiter whose queue of capacity one holds one request. *)
Lemma throttle_rejects_when_queue_full_witness :
  maxQueueSize (rl full_queue) = Z.of_nat (length (queue (rl full_queue))) /\
  throttle full_queue (Opaque 2) 0 12 = (ThrottleRejected queue_full_error, full_queue).
Proof.
  assert (H : maxQueueSize (rl full_queue) = Z.of_nat (length (queue (rl full_queue))))
    by (vm_compute; reflexivity).
  split; [exact H|].
  apply (throttle_rejects_when_queue_full full_queue (Opaque 2) 0 12).
  rewrite H. apply Z.le_refl.
Defined.

(** C8 fails as stated: 1500 ms at 60 requests per minute are 1.5 tokens;
    the code adds 1, the specified refill would add 1.5. *)
Lemma refill_adds_whole_tokens_only :
  (tokensToAdd ten_tokens_left 1500 == 3 # 2)%Q /\
  (tokens (refillTokens ten_tokens_left 1500) == 11)%Q /\
  (tokens (refillTokens_as_specified ten_tokens_left 1500) == 23 # 2)%Q /\
  ~ (tokens (refillTokens ten_tokens_left 1500) ==
     tokens (refillTokens_as_specified ten_tokens_left 1500))%Q.
Proof. split; [|split; [|split]]; vm_compute; congruence. Qed.

(** C8, as amended.  [tokensToAdd] is the elapsed time times the rate over
    60000.  When it is at least 1 the token count becomes the smaller of
    [maxTokens] and the count plus the whole part of [tokensToAdd] (so the
    gain is never more than [tokensToAdd]), and [lastRefill] becomes the
    current time; when it is less than 1 nothing changes. *)
Theorem refillTokens_adds_floor s now :
  tokensToAdd s now = (inject_Z (now - lastRefill s) * requestsPerMinute s / 60000)%Q /\
  ((1 <= tokensToAdd s now)%Q ->
     tokens (refillTokens s now) =
       Qmin (maxTokens s) (tokens s + inject_Z (Qfloor (tokensToAdd s now)))%Q /\
     lastRefill (refillTokens s now) = now /\
     (tokens (refillTokens s now) <= maxTokens s)%Q /\
     (tokens (refillTokens s now) <= tokens s + tokensToAdd s now)%Q) /\
  ((tokensToAdd s now < 1)%Q -> refillTokens s now = s).
Proof.
  split; [reflexivity|]. unfold refillTokens. split.
  - intros H. pose proof H as H'. apply Qle_bool_iff in H'. rewrite H'.
    unfold set_lastRefill, set_tokens; cbn [tokens lastRefill].
    split; [reflexivity|]. split; [reflexivity|]. split; [apply Q.le_min_l|].
    eapply Qle_trans; [apply Q.le_min_r|].
    pose proof (Qfloor_le (tokensToAdd s now)).
    generalize dependent (inject_Z (Qfloor (tokensToAdd s now))).
    generalize dependent (tokensToAdd s now). intros; lra.
  - intros H. destruct (Qle_bool 1 (tokensToAdd s now)) eqn:E; [|reflexivity].
    apply Qle_bool_iff in E. lra.
Qed.

(** The refill at ten tokens, 1500 ms after the last one. *)
Lemma refillTokens_adds_floor_witness :
  (1 <= tokensToAdd ten_tokens_left 1500)%Q /\
  (tokens (refillTokens ten_tokens_left 1500) == 11)%Q /\
  lastRefill (refillTokens ten_tokens_left 1500) = 1500.
Proof.
  assert (H : (1 <= tokensToAdd ten_tokens_left 1500)%Q) by (vm_compute; discriminate).
  split; [exact H|].
  destruct (proj1 (proj2 (refillTokens_adds_floor ten_tokens_left 1500)) H) as (T & L & _).
  split; [rewrite T; vm_compute; reflexivity | exact L].
Defined.


(** * Further properties of the rate limiter *)

Section Accounting.
Local Open Scope Q_scope.
Local Arguments refillTokens : simpl never.
Local Arguments sort_queue : simpl never.
Local Arguments Z.ltb : simpl never.
Local Arguments Z.leb : simpl never.
Local Arguments Z.sub : simpl never.
Local Arguments Z.add : simpl never.

Lemma refill_fields s now :
  maxQueueSize (refillTokens s now) = maxQueueSize s /\
  minRequestDelay (refillTokens s now) = minRequestDelay s /\
  processing (refillTokens s now) = processing s /\
  totalRequests (refillTokens s now) = totalRequests s /\
  delayedRequests (refillTokens s now) = delayedRequests s /\
  lastRequestTime (refillTokens s now) = lastRequestTime s /\
  requestsPerMinute (refillTokens s now) = requestsPerMinute s.
Proof. unfold refillTokens. destruct (Qle_bool _ _); repeat split. Qed.

(** What [dispatch] does, field by field. *)
Lemma dispatch_cases y now :
  (sort_queue (queue (rl y)) = [] /\
   dispatch y now =
     (mkSys (set_processing false (set_queue [] (rl y))) (drainers y) (started y) (settled y),
      None)) \/
  (exists r rest y',
     sort_queue (queue (rl y)) = r :: rest /\
     dispatch y now = (y', Some (KAwaitFn r)) /\
     drainers y' = drainers y /\ settled y' = settled y /\
     started y' = (started y ++ [r])%list /\
     queue (rl y') = rest /\
     processing (rl y') = processing (rl y) /\
     maxQueueSize (rl y') = maxQueueSize (rl y) /\
     maxTokens (rl y') = maxTokens (rl y) /\
     tokens (rl y') = tokens (rl y) - 1 /\
     lastRequestTime (rl y') = now /\
     totalRequests (rl y') = (totalRequests (rl y) + 1)%Z /\
     delayedRequests (rl y') =
       (if (100 <? now - timestamp r)%Z
        then delayedRequests (rl y) + 1 else delayedRequests (rl y))%Z).
Proof.
  unfold dispatch. destruct (sort_queue _) as [|r rest] eqn:S; [left; auto|].
  right. exists r, rest. eexists. split; [reflexivity|]. split; [reflexivity|].
  destruct (100 <? _)%Z; simpl; repeat split.
Qed.

(** What one turn of the loop does, case by case. *)
Lemma loop_head_cases y now :
  (queue (rl y) = [] /\
   loop_head y now =
     (mkSys (set_processing false (rl y)) (drainers y) (started y) (settled y), None)) \/
  (queue (rl y) <> [] /\
   let y1 := mkSys (refillTokens (rl y) now) (drainers y) (started y) (settled y) in
   ((tokens (refillTokens (rl y) now) < 1 /\
     loop_head y now =
       (y1, Some (KSleepToken (now + timeForNextToken (refillTokens (rl y) now))%Z))) \/
    (1 <= tokens (refillTokens (rl y) now) /\
     (exists u, loop_head y now = (y1, Some (KSleepDelay u))) /\
     (0 < minRequestDelay (rl y))%Z /\
     (now - lastRequestTime (rl y) < minRequestDelay (rl y))%Z) \/
    (1 <= tokens (refillTokens (rl y) now) /\
     ((minRequestDelay (rl y) <= 0)%Z \/
      (minRequestDelay (rl y) <= now - lastRequestTime (rl y))%Z) /\
     loop_head y now = dispatch y1 now))).
Proof.
  unfold loop_head. destruct (queue (rl y)) as [|q0 qs] eqn:Q; [left; auto|].
  right. split; [discriminate|]. cbv zeta.
  destruct (refill_fields (rl y) now) as (_ & D & _ & _ & _ & L & _).
  destruct (Qlt_le_dec _ 1) as [T|T]; [left; auto|]. right.
  rewrite D, L.
  destruct (0 <? minRequestDelay (rl y))%Z eqn:A; simpl.
  - destruct (now - lastRequestTime (rl y) <? minRequestDelay (rl y))%Z eqn:B.
    + left. split; [assumption|]. split; [eauto|]. lia.
    + right. split; [assumption|]. split; [right; lia|reflexivity].
  - right. split; [assumption|]. split; [left; lia|reflexivity].
Qed.

Lemma sort_queue_length l : length (sort_queue l) = length l.
Proof. apply Permutation_length, sort_queue_perm. Qed.

Lemma accounted_dispatch y now :
  accounted y -> accounted (fst (dispatch y now)) /\
  maxQueueSize (rl (fst (dispatch y now))) = maxQueueSize (rl y).
Proof.
  intros (T & D & B).
  destruct (dispatch_cases y now) as [[S ->]|(r & rest & y' & S & -> & _ & _ & St & Q & _ & M & _ & _ & _ & Tt & Dd)].
  - split; [|reflexivity]. split; [exact T|]. split; [exact D|]. simpl. lia.
  - simpl. split; [|exact M]. unfold accounted.
    rewrite St, Q, M, Tt, Dd, length_app. simpl.
    pose proof (sort_queue_length (queue (rl y))) as L. rewrite S in L. simpl in L.
    split; [lia|]. split; [destruct (100 <? _)%Z; lia|lia].
Qed.

Lemma accounted_refill y now :
  accounted y ->
  accounted (mkSys (refillTokens (rl y) now) (drainers y) (started y) (settled y)).
Proof.
  intros (T & D & B). unfold accounted. simpl.
  destruct (refill_fields (rl y) now) as (M & _ & _ & Tt & Dd & _ & _).
  rewrite M, Tt, Dd, refill_queue. auto.
Qed.

Lemma accounted_loop_head y now :
  accounted y -> accounted (fst (loop_head y now)) /\
  maxQueueSize (rl (fst (loop_head y now))) = maxQueueSize (rl y).
Proof.
  intros A. pose proof (accounted_refill y now A) as A1.
  destruct (refill_fields (rl y) now) as (M & _).
  destruct (loop_head_cases y now) as [[Q ->]|[Q [[_ ->]|[(_ & [u ->] & _)|(_ & _ & ->)]]]];
    simpl; try (split; [assumption|assumption]).
  - split; [exact A|reflexivity].
  - destruct (accounted_dispatch _ now A1) as [A2 M2]. split; [exact A2|].
    rewrite M2. exact M.
Qed.

Lemma accounted_add p : accounted (fst p) -> accounted (add_drainer p).
Proof. destruct p as [y [k|]]; auto. Qed.

Lemma accounted_replace i p : accounted (fst p) -> accounted (replace_drainer i p).
Proof. destruct p as [y [k|]]; auto. Qed.

Lemma accounted_step y e y' : accounted y -> step y e = Some y' -> accounted y'.
Proof.
  intros A S. destruct e as [f prio now|i now|i out now|l r t|now]; simpl in S.
  - injection S as <-. unfold throttle.
    destruct (maxQueueSize (rl y) <=? Z.of_nat (length (queue (rl y))))%Z eqn:F; [exact A|].
    simpl snd. unfold processQueue. cbn [rl processing set_queue].
    set (y1 := mkSys _ _ _ _).
    assert (A1 : accounted y1).
    { destruct A as (T & D & B). unfold accounted, y1. simpl.
      rewrite length_app. simpl. split; [exact T|]. split; [exact D|].
      apply Z.leb_gt in F. lia. }
    destruct (processing (rl y)); [exact A1|].
    apply accounted_add. apply accounted_loop_head. exact A1.
  - destruct (drainers y !! i) as [[u|u|r]|]; try discriminate;
      destruct (u <=? now)%Z; try discriminate; injection S as <-; apply accounted_replace;
      [apply accounted_loop_head | apply accounted_dispatch]; exact A.
  - destruct (drainers y !! i) as [[u|u|r]|]; try discriminate. injection S as <-.
    apply accounted_replace. apply accounted_loop_head. exact A.
  - destruct (updateFromHeaders _ _ _ _) as [e|s] eqn:E; injection S as <-; [exact A|].
    unfold updateFromHeaders in E. destruct (valid_time_value _); [|discriminate].
    injection E as <-. destruct l, r; try exact A. destruct (Qlt_le_dec _ _); exact A.
  - injection S as <-. destruct A as (T & D & B). unfold accounted. simpl.
    split; [exact T|]. split; [exact D|]. lia.
Qed.

Lemma accounted_run evs : forall y y', accounted y -> run y evs = Some y' -> accounted y'.
Proof.
  induction evs as [|e evs IH]; simpl; intros y y' A R.
  - now injection R as <-.
  - destruct (step y e) as [y1|] eqn:S; [|discriminate].
    eapply IH; [|eassumption]. eapply accounted_step; eassumption.
Qed.

Lemma accounted_new config now : accounted (new_Sys config now).
Proof. unfold accounted. simpl. lia. Qed.

End Accounting.

(** X1.  The statistics of [getStats()] count the requests: [totalRequests] is
    the number of requests whose [fn] has been called since the limiter was
    created, [delayedRequests] is between 0 and [totalRequests], and the
    reported token count is a whole number not above [maxTokens].  Nothing,
    [reset()] included, sets the counters back. *)
Theorem getStats_counts_started config now evs y :
  run (new_Sys config now) evs = Some y ->
  stats_totalRequests (getStats (rl y)) = Z.of_nat (length (started y)) /\
  0 <= stats_delayedRequests (getStats (rl y)) <= stats_totalRequests (getStats (rl y)) /\
  stats_queueSize (getStats (rl y)) = getQueueSize (rl y) /\
  (inject_Z (stats_tokens (getStats (rl y))) <= stats_maxTokens (getStats (rl y)))%Q.
Proof.
  intros R.
  destruct (accounted_run evs _ _ (accounted_new config now) R) as (T & D & _).
  split; [exact T|]. split; [exact D|]. split; [reflexivity|].
  simpl. apply (Qle_trans _ (tokens (rl y))); [apply Qfloor_le|].
  apply (run_upper evs _ _ R). simpl. apply Qle_refl.
Qed.

Lemma getStats_counts_started_witness :
  stats_totalRequests (getStats (rl (after (queued_1_5_3 ++ drain_3)))) = 4.
Proof.
  assert (R : run (new_Sys globalConfig 1000) (queued_1_5_3 ++ drain_3) =
              Some (after (queued_1_5_3 ++ drain_3))) by (vm_compute; reflexivity).
  destruct (getStats_counts_started globalConfig 1000 _ _ R) as (T & _).
  rewrite T. vm_compute. reflexivity.
Defined.


Section Readonly.
Local Arguments refillTokens : simpl never.
Local Arguments sort_queue : simpl never.
Local Arguments Z.ltb : simpl never.
Local Arguments Z.leb : simpl never.
Local Arguments Z.sub : simpl never.
Local Arguments Z.add : simpl never.

Lemma same_config_refl s : same_config s s.
Proof. repeat split. Qed.

Lemma same_config_trans s1 s2 s3 :
  same_config s1 s2 -> same_config s2 s3 -> same_config s1 s3.
Proof. unfold same_config. intros (?&?&?&?) (?&?&?&?). repeat split; congruence. Qed.

Lemma same_config_refill s now : same_config s (refillTokens s now).
Proof. unfold refillTokens. destruct (Qle_bool _ _); repeat split. Qed.

Lemma same_config_dispatch y now : same_config (rl y) (rl (fst (dispatch y now))).
Proof.
  unfold dispatch. destruct (sort_queue _); [repeat split|].
  destruct (100 <? _); repeat split.
Qed.

Lemma same_config_loop_head y now : same_config (rl y) (rl (fst (loop_head y now))).
Proof.
  unfold loop_head. destruct (queue (rl y)); [repeat split|].
  destruct (Qlt_le_dec _ _); [apply same_config_refill|].
  destruct (_ && _); [apply same_config_refill|].
  eapply same_config_trans; [apply (same_config_refill (rl y) now)|].
  apply (same_config_dispatch (mkSys (refillTokens (rl y) now) _ _ _)).
Qed.

Lemma same_config_step y e y' : step y e = Some y' -> same_config (rl y) (rl y').
Proof.
  intros S. destruct e as [f prio now|i now|i out now|l r t|now]; simpl in S.
  - injection S as <-. unfold throttle.
    destruct (_ <=? _); [apply same_config_refl|]. simpl snd.
    unfold processQueue. cbn [rl processing set_queue].
    destruct (processing (rl y)); [repeat split|].
    rewrite rl_add_drainer.
    eapply same_config_trans; [|apply same_config_loop_head]. repeat split.
  - destruct (drainers y !! i) as [[u|u|r]|]; try discriminate;
      destruct (u <=? now); try discriminate; injection S as <-;
      rewrite rl_replace_drainer; [apply same_config_loop_head | apply same_config_dispatch].
  - destruct (drainers y !! i) as [[u|u|r]|]; try discriminate. injection S as <-.
    rewrite rl_replace_drainer.
    apply (same_config_loop_head (mkSys (rl y) _ _ _)).
  - destruct (updateFromHeaders _ _ _ _) as [e|s] eqn:E; injection S as <-;
      [apply same_config_refl|].
    unfold updateFromHeaders in E. destruct (valid_time_value _); [|discriminate].
    injection E as <-. destruct l, r; try apply same_config_refl.
    destruct (Qlt_le_dec _ _); repeat split.
  - injection S as <-. repeat split.
Qed.

Lemma same_config_run evs : forall y y', run y evs = Some y' -> same_config (rl y) (rl y').
Proof.
  induction evs as [|e evs IH]; simpl; intros y y' R.
  - injection R as <-. apply same_config_refl.
  - destruct (step y e) as [y1|] eqn:S; [|discriminate].
    eapply same_config_trans; [eapply same_config_step; eassumption|]. now apply IH.
Qed.

End Readonly.

(** X2.  The queue never holds more than [maxQueueSize] requests, whatever the
    events; with a capacity that is not positive it stays empty. *)
Theorem queue_never_exceeds_maxQueueSize config now evs y :
  run (new_Sys config now) evs = Some y ->
  maxQueueSize (rl y) = orZ (cfg_maxQueueSize config) 100 /\
  Z.of_nat (getQueueSize (rl y)) <= Z.max 0 (maxQueueSize (rl y)).
Proof.
  intros R. split.
  - now destruct (same_config_run evs _ _ R) as (_ & M & _).
  - now destruct (accounted_run evs _ _ (accounted_new config now) R) as (_ & _ & B).
Qed.

Lemma queue_never_exceeds_maxQueueSize_witness :
  Z.of_nat (getQueueSize (rl full_queue)) <= 1.
Proof.
  assert (R : run (new_Sys small_queue 0)
                [EThrottle (Opaque 0) 0 10; EThrottle (Opaque 1) 0 11] = Some full_queue)
    by (vm_compute; reflexivity).
  destruct (queue_never_exceeds_maxQueueSize small_queue 0 _ _ R) as [M B].
  rewrite M in B. exact B.
Defined.

Section Loop.
Local Open Scope Q_scope.
Local Arguments refillTokens : simpl never.
Local Arguments sort_queue : simpl never.
Local Arguments Z.ltb : simpl never.
Local Arguments Z.leb : simpl never.
Local Arguments Z.sub : simpl never.
Local Arguments Z.add : simpl never.

(** A turn of the loop either suspends again, with the flag as it was, or
    ends with the flag down and nothing waiting. *)
Lemma dispatch_flag y now :
  (exists k, snd (dispatch y now) = Some k /\
             processing (rl (fst (dispatch y now))) = processing (rl y)) \/
  (snd (dispatch y now) = None /\
   processing (rl (fst (dispatch y now))) = false /\
   queue (rl (fst (dispatch y now))) = []).
Proof.
  destruct (dispatch_cases y now) as [[S ->]|(r & rest & y' & S & -> & _ & _ & _ & _ & P & _)].
  - right. auto.
  - left. eauto.
Qed.

Lemma loop_head_flag y now :
  (exists k, snd (loop_head y now) = Some k /\
             processing (rl (fst (loop_head y now))) = processing (rl y)) \/
  (snd (loop_head y now) = None /\
   processing (rl (fst (loop_head y now))) = false /\
   queue (rl (fst (loop_head y now))) = []).
Proof.
  destruct (refill_fields (rl y) now) as (_ & _ & P & _).
  destruct (loop_head_cases y now) as [[Q ->]|[Q [[_ ->]|[(_ & [u ->] & _)|(_ & _ & ->)]]]];
    simpl; eauto.
  destruct (dispatch_flag (mkSys (refillTokens (rl y) now) (drainers y) (started y) (settled y)) now)
    as [(k & -> & F)|N]; [left|right; exact N].
  simpl in F. rewrite F, P. eauto.
Qed.

Lemma drainers_dispatch y now : drainers (fst (dispatch y now)) = drainers y.
Proof. destruct (dispatch y now) as [y' k] eqn:E. now apply dispatch_spec in E. Qed.

Lemma drainers_loop_head y now : drainers (fst (loop_head y now)) = drainers y.
Proof. destruct (loop_head y now) as [y' k] eqn:E. now apply loop_head_spec in E. Qed.

(** The activation at [i], the only one, moves on. *)
Lemma one_loop_replace y0 i p :
  processing (rl y0) = true -> length (drainers y0) = 1%nat -> is_Some (drainers y0 !! i) ->
  drainers (fst p) = drainers y0 ->
  ((exists k, snd p = Some k /\ processing (rl (fst p)) = processing (rl y0)) \/
   (snd p = None /\ processing (rl (fst p)) = false /\ queue (rl (fst p)) = [])) ->
  one_loop (replace_drainer i p).
Proof.
  intros P L I D H. destruct p as [y k]. simpl in *.
  destruct (drainers y0) as [|k0 [|]] eqn:E; try discriminate.
  destruct i as [|i]; [|destruct I as [? I]; destruct i; discriminate].
  destruct H as [(k1 & -> & F)|(-> & F & Q)]; unfold one_loop; simpl; rewrite D; simpl.
  - left. split; [congruence|reflexivity].
  - right. auto.
Qed.

Lemma one_loop_step y e y' :
  no_reset e = true -> step y e = Some y' -> one_loop y -> one_loop y'.
Proof.
  intros N S O. destruct e as [f prio now|i now|i out now|l r t|now]; try discriminate;
    simpl in S.
  - injection S as <-. unfold throttle.
    destruct (_ <=? _)%Z; [exact O|]. simpl snd.
    unfold processQueue. cbn [rl processing set_queue].
    destruct O as [[P L]|(P & D & Q)]; rewrite P.
    + left. auto.
    + set (y1 := mkSys _ _ _ _).
      pose proof (drainers_loop_head y1 now) as D1.
      destruct (loop_head_flag y1 now) as [(k & K & F)|(K & F & Q1)];
        destruct (loop_head y1 now) as [y2 k2]; simpl in *; subst k2; simpl.
      * left. simpl. rewrite F, length_app, D1, D. auto.
      * right. simpl. rewrite D1, D. auto.
  - destruct O as [[P L]|(P & D & Q)]; [|rewrite D in S; discriminate].
    destruct (drainers y !! i) as [[u|u|r]|] eqn:I; try discriminate;
      destruct (u <=? now)%Z; try discriminate; injection S as <-.
    + apply (one_loop_replace y); eauto using drainers_loop_head, loop_head_flag.
    + apply (one_loop_replace y); eauto using drainers_dispatch, dispatch_flag.
  - destruct O as [[P L]|(P & D & Q)]; [|rewrite D in S; discriminate].
    destruct (drainers y !! i) as [[u|u|r]|] eqn:I; try discriminate. injection S as <-.
    apply (one_loop_replace y); eauto.
    + apply (drainers_loop_head (mkSys (rl y) _ _ _)).
    + apply (loop_head_flag (mkSys (rl y) _ _ _)).
  - destruct (updateFromHeaders _ _ _ _) as [e|s] eqn:E; injection S as <-; [exact O|].
    unfold updateFromHeaders in E. destruct (valid_time_value _); [|discriminate].
    injection E as <-. destruct l, r; try exact O. destruct (Qlt_le_dec _ _); exact O.
Qed.

Lemma one_loop_run evs : forall y y',
  forallb no_reset evs = true -> run y evs = Some y' -> one_loop y -> one_loop y'.
Proof.
  induction evs as [|e evs IH]; simpl; intros y y' N R O.
  - now injection R as <-.
  - apply andb_true_iff in N as [N1 N2].
    destruct (step y e) as [y1|] eqn:S; [|discriminate].
    eapply IH; eauto using one_loop_step.
Qed.

(** ** A rate below one request per minute *)

Lemma starved_loop_head y now :
  starved y ->
  starved (fst (loop_head y now)) /\
  (forall k, snd (loop_head y now) = Some k -> is_token_wait k = true).
Proof.
  intros (M & T & F & St & Se).
  pose proof (refill_upper (rl y) now T) as U.
  pose proof (refill_maxTokens (rl y) now) as RM.
  destruct (loop_head_cases y now) as [[Q ->]|[Q [[_ ->]|[(T1 & _)|(T1 & _)]]]];
    try (exfalso; lra); simpl.
  - split; [|discriminate]. repeat split; assumption.
  - split; [|intros k [= <-]; reflexivity].
    unfold starved. simpl. rewrite RM. repeat split; assumption.
Qed.

Lemma starved_step y e y' : starved y -> step y e = Some y' -> starved y'.
Proof.
  intros H S. pose proof H as (M & T & F & St & Se).
  destruct e as [f prio now|i now|i out now|l r t|now]; simpl in S.
  - injection S as <-. unfold throttle.
    destruct (_ <=? _)%Z; [exact H|]. simpl snd.
    unfold processQueue. cbn [rl processing set_queue].
    destruct (processing (rl y)); [repeat split; assumption|].
    set (y1 := mkSys _ _ _ _).
    assert (H1 : starved y1) by (repeat split; assumption).
    destruct (starved_loop_head y1 now H1) as [(M2 & T2 & F2 & St2 & Se2) K].
    destruct (loop_head y1 now) as [y2 [k|]]; simpl in *; [|repeat split; assumption].
    repeat split; try assumption. apply Forall_app. split; [assumption|].
    constructor; [now apply K|constructor].
  - destruct (drainers y !! i) as [[u|u|r]|] eqn:I; try discriminate.
    + destruct (u <=? now)%Z; try discriminate; injection S as <-.
      destruct (starved_loop_head y now H) as [(M2 & T2 & F2 & St2 & Se2) K].
      destruct (loop_head y now) as [y2 [k|]]; simpl in *; repeat split; try assumption.
      * apply Forall_insert; [assumption|now apply K].
      * now apply Forall_delete.
    + apply (Forall_lookup_1 _ _ _ _ F) in I. discriminate.
  - destruct (drainers y !! i) as [[u|u|r]|] eqn:I; try discriminate.
    apply (Forall_lookup_1 _ _ _ _ F) in I. discriminate.
  - destruct (updateFromHeaders _ _ _ _) as [e|s] eqn:E; injection S as <-; [exact H|].
    apply updateFromHeaders_upper in E as [M' T'].
    unfold starved. simpl. rewrite M'. repeat split; try assumption. lra.
  - injection S as <-. unfold starved. simpl. repeat split; try assumption. lra.
Qed.

Lemma starved_run evs : forall y y', starved y -> run y evs = Some y' -> starved y'.
Proof.
  induction evs as [|e evs IH]; simpl; intros y y' H R.
  - now injection R as <-.
  - destruct (step y e) as [y1|] eqn:S; [|discriminate].
    eapply IH; [|eassumption]. eapply starved_step; eassumption.
Qed.

(** ** What happens to the requests *)

Lemma perm_dispatch y now :
  Permutation (started (fst (dispatch y now)) ++ queue (rl (fst (dispatch y now))))
              (started y ++ queue (rl y)).
Proof.
  destruct (dispatch_cases y now) as [[S ->]|(r & rest & y' & S & -> & _ & _ & St & Q & _)].
  - simpl. apply sort_queue_nil_inv in S. now rewrite S.
  - simpl. rewrite St, Q, <- app_assoc. apply Permutation_app_head.
    simpl. rewrite <- S. apply sort_queue_perm.
Qed.

Lemma perm_loop_head y now :
  Permutation (started (fst (loop_head y now)) ++ queue (rl (fst (loop_head y now))))
              (started y ++ queue (rl y)).
Proof.
  destruct (loop_head_cases y now) as [[Q ->]|[Q [[_ ->]|[(_ & [u ->] & _)|(_ & _ & ->)]]]];
    simpl; rewrite ?refill_queue; try reflexivity.
  etransitivity; [apply perm_dispatch|]. simpl. now rewrite refill_queue.
Qed.

Lemma perm_replace i p (l : list QueuedRequest) :
  Permutation (started (fst p) ++ queue (rl (fst p))) l ->
  Permutation (started (replace_drainer i p) ++ queue (rl (replace_drainer i p))) l.
Proof. destruct p as [y [k|]]; auto. Qed.

Lemma perm_add p (l : list QueuedRequest) :
  Permutation (started (fst p) ++ queue (rl (fst p))) l ->
  Permutation (started (add_drainer p) ++ queue (rl (add_drainer p))) l.
Proof. destruct p as [y [k|]]; auto. Qed.

Lemma perm_step y e y' :
  step y e = Some y' -> no_reset e = true ->
  Permutation (started y' ++ queue (rl y')) ((started y ++ queue (rl y)) ++ accepted y e).
Proof.
  intros S N. destruct e as [f prio now|i now|i out now|l r t|now]; try discriminate;
    simpl in S; cbn [accepted]; rewrite ?app_nil_r.
  - injection S as <-. unfold throttle.
    destruct (maxQueueSize (rl y) <=? Z.of_nat (length (queue (rl y))))%Z; simpl snd.
    { now rewrite app_nil_r. }
    unfold processQueue. cbn [rl processing set_queue].
    set (y1 := mkSys _ _ _ _).
    assert (E : (started y1 ++ queue (rl y1) =
                 (started y ++ queue (rl y)) ++
                 [{| fn := f; priority := prio; timestamp := now |}])%list).
    { unfold y1. simpl. now rewrite app_assoc. }
    rewrite <- E. destruct (processing (rl y)); [reflexivity|].
    apply perm_add. etransitivity; [apply perm_loop_head|]. reflexivity.
  - destruct (drainers y !! i) as [[u|u|r]|]; try discriminate;
      destruct (u <=? now)%Z; try discriminate; injection S as <-; apply (perm_replace i);
      [apply perm_loop_head|apply perm_dispatch].
  - destruct (drainers y !! i) as [[u|u|r]|]; try discriminate. injection S as <-.
    apply (perm_replace i). apply (perm_loop_head (mkSys (rl y) _ _ _)).
  - destruct (updateFromHeaders _ _ _ _) as [e|s] eqn:E; injection S as <-; [reflexivity|].
    unfold updateFromHeaders in E. destruct (valid_time_value _); [|discriminate].
    injection E as <-. destruct l, r; try reflexivity. destruct (Qlt_le_dec _ _); reflexivity.
Qed.

Lemma perm_run evs : forall y y',
  run y evs = Some y' -> forallb no_reset evs = true ->
  Permutation (started y' ++ queue (rl y')) ((started y ++ queue (rl y)) ++ enqueued y evs).
Proof.
  induction evs as [|e evs IH]; intros y y' R N.
  - injection R as <-. simpl. now rewrite app_nil_r.
  - simpl in R, N. apply andb_true_iff in N as [N1 N2].
    destruct (step y e) as [y1|] eqn:S; [|discriminate].
    etransitivity; [apply (IH _ _ R N2)|].
    simpl enqueued. rewrite S, app_assoc.
    apply Permutation_app_tail. now apply perm_step.
Qed.

End Loop.

(** X3.  Without [reset()], the [processing] flag keeps the drain loop single:
    at most one activation of [processQueue] exists, the flag is set exactly
    while it does, and a request never waits in the queue without one. *)
Theorem one_drain_loop_without_reset config now evs y :
  forallb no_reset evs = true ->
  run (new_Sys config now) evs = Some y ->
  (length (drainers y) <= 1)%nat /\
  (processing (rl y) = true <-> drainers y <> []) /\
  (isThrottled (rl y) = true -> processing (rl y) = true).
Proof.
  intros N R.
  assert (O : one_loop (new_Sys config now)) by (right; auto).
  destruct (one_loop_run evs _ _ N R O) as [[P L]|(P & D & Q)].
  - split; [lia|]. split; [|auto]. split; [|auto].
    intros _ E. rewrite E in L. discriminate.
  - rewrite D. split; [simpl; lia|]. split.
    + split; [congruence|intros H; now destruct H].
    + unfold isThrottled. rewrite Q. discriminate.
Qed.

Lemma one_drain_loop_without_reset_witness :
  (length (drainers (after queued_1_5_3)) <= 1)%nat.
Proof.
  assert (R : run (new_Sys globalConfig 1000) queued_1_5_3 = Some (after queued_1_5_3))
    by (vm_compute; reflexivity).
  apply (one_drain_loop_without_reset globalConfig 1000 queued_1_5_3 _ eq_refl R).
Defined.

(** X4.  A limiter configured with a rate below one request per minute never
    runs anything: its bucket cannot hold a whole token, so whatever the
    events no [fn] is ever called, the drain loop settles no promise, and
    its activations do nothing but wait for a token.  A request that
    [throttle] has accepted stays in the queue until [reset()] drops it;
    the only promises of [throttle] that settle are those of the calls
    rejected at once because the queue is full. *)
Theorem rate_below_one_never_runs config now evs y :
  (orQ (cfg_requestsPerMinute config) 60 < 1)%Q ->
  run (new_Sys config now) evs = Some y ->
  started y = [] /\ settled y = [] /\
  Forall (fun k => is_token_wait k = true) (drainers y) /\
  (forallb no_reset evs = true ->
   Permutation (queue (rl y)) (enqueued (new_Sys config now) evs)).
Proof.
  intros L R.
  assert (H : starved (new_Sys config now)).
  { unfold starved. simpl. split; [exact L|]. split; [apply Qle_refl|]. auto. }
  destruct (starved_run evs _ _ H R) as (_ & _ & F & St & Se).
  split; [exact St|]. split; [exact Se|]. split; [exact F|].
  intros N. pose proof (perm_run evs _ _ R N) as P. rewrite St in P. exact P.
Qed.

Lemma rate_below_one_never_runs_witness :
  started (default (new_Sys half_a_request 0) (run (new_Sys half_a_request 0) four_minutes)) = [] /\
  List.map fn (queue (rl (default (new_Sys half_a_request 0)
                            (run (new_Sys half_a_request 0) four_minutes)))) = [Opaque 1].
Proof.
  destruct (rate_below_one_never_runs half_a_request 0 four_minutes
              (default (new_Sys half_a_request 0) (run (new_Sys half_a_request 0) four_minutes)))
    as (St & _); [reflexivity|vm_compute; reflexivity|].
  split; [exact St|vm_compute; reflexivity].
Defined.

Section Settlements.
Local Arguments refillTokens : simpl never.
Local Arguments sort_queue : simpl never.
Local Arguments Z.ltb : simpl never.
Local Arguments Z.leb : simpl never.
Local Arguments Z.sub : simpl never.
Local Arguments Z.add : simpl never.

Lemma dispatch_started y now y' k :
  dispatch y now = (y', k) ->
  settled y' = settled y /\ drainers y' = drainers y /\
  (forall r, In r (started y) -> In r (started y')) /\ awaited_opt (started y') k.
Proof.
  destruct (dispatch_cases y now) as [(_ & E)|(r & rest & y1 & _ & E & D & Se & St & _)];
    rewrite E; intros [= <- <-]; simpl.
  - auto.
  - rewrite St. repeat split; auto; intros; apply in_or_app; simpl; auto.
Qed.

Lemma loop_head_started y now y' k :
  loop_head y now = (y', k) ->
  settled y' = settled y /\ drainers y' = drainers y /\
  (forall r, In r (started y) -> In r (started y')) /\ awaited_opt (started y') k.
Proof.
  destruct (loop_head_cases y now) as [(_ & E)|(_ & [(_ & E)|[(_ & (u & E) & _)|(_ & _ & E)]])];
    rewrite E; try (intros [= <- <-]; simpl; auto).
  intros D. apply dispatch_started in D. exact D.
Qed.

Lemma logs_add_drainer p :
  started (add_drainer p) = started (fst p) /\ settled (add_drainer p) = settled (fst p).
Proof. destruct p as [y [k|]]; split; reflexivity. Qed.
Lemma logs_replace_drainer i p :
  started (replace_drainer i p) = started (fst p) /\
  settled (replace_drainer i p) = settled (fst p).
Proof. destruct p as [y [k|]]; split; reflexivity. Qed.

(** The activation of a turn that ended in [k], put at the end or in the
    place of activation [i]. *)
Lemma only_started_turn y0 y1 k ds :
  only_started y0 ->
  settled y1 = settled y0 -> drainers y1 = drainers y0 ->
  (forall r, In r (started y0) -> In r (started y1)) -> awaited_opt (started y1) k ->
  (ds = match k with Some c => (drainers y1 ++ [c])%list | None => drainers y1 end \/
   exists i, ds = match k with Some c => <[i:=c]> (drainers y1) | None => delete i (drainers y1) end) ->
  Forall (fun x => In (fst x) (started y1)) (settled y1) /\
  Forall (awaited_started (started y1)) ds.
Proof.
  intros (S0 & D0) Se Dr St K Ds. split.
  - rewrite Se. eapply Forall_impl; [exact S0|]. intros x; apply St.
  - assert (F : Forall (awaited_started (started y1)) (drainers y1)).
    { rewrite Dr. eapply Forall_impl; [exact D0|]. intros [u|u|r]; simpl; auto. }
    destruct Ds as [->|[i ->]]; destruct k as [c|]; simpl in K.
    + apply Forall_app. split; [exact F|]. constructor; [exact K|constructor].
    + exact F.
    + now apply Forall_insert.
    + now apply Forall_delete.
Qed.

Lemma only_started_step y e y' : only_started y -> step y e = Some y' -> only_started y'.
Proof.
  intros I S. pose proof I as (I1 & I2).
  destruct e as [f prio now|i now|i out now|l r t|now]; simpl in S.
  - injection S as <-. unfold throttle.
    destruct (_ <=? _)%Z; [exact I|]. simpl snd. unfold processQueue. cbn [rl processing set_queue].
    destruct (processing (rl y)); [exact I|].
    match goal with |- only_started (add_drainer (loop_head ?a ?b)) =>
      destruct (loop_head a b) as [y1 k] eqn:E end.
    apply loop_head_started in E as (Se & Dr & St & K). simpl in Se, Dr, St.
    unfold only_started. destruct (logs_add_drainer (y1, k)) as [-> ->].
    rewrite drainers_add_drainer. simpl fst.
    apply (only_started_turn y y1 k); auto.
  - destruct (drainers y !! i) as [[u|u|r]|] eqn:L; try discriminate;
      destruct (u <=? now)%Z; try discriminate; injection S as <-.
    + destruct (loop_head y now) as [y1 k] eqn:E.
      apply loop_head_started in E as (Se & Dr & St & K).
      unfold only_started. destruct (logs_replace_drainer i (y1, k)) as [-> ->].
      rewrite drainers_replace_drainer. simpl fst.
      apply (only_started_turn y y1 k); eauto.
    + destruct (dispatch y now) as [y1 k] eqn:E.
      apply dispatch_started in E as (Se & Dr & St & K).
      unfold only_started. destruct (logs_replace_drainer i (y1, k)) as [-> ->].
      rewrite drainers_replace_drainer. simpl fst.
      apply (only_started_turn y y1 k); eauto.
  - destruct (drainers y !! i) as [[u|u|r]|] eqn:L; try discriminate. injection S as <-.
    assert (R : In r (started y)) by (apply (Forall_lookup_1 _ _ _ _ I2 L)).
    set (y0 := mkSys (rl y) (drainers y) (started y) (settled y ++ [(r, out)])).
    assert (I0 : only_started y0).
    { split; simpl; [|exact I2]. apply Forall_app. split; [exact I1|].
      constructor; [exact R|constructor]. }
    destruct (loop_head y0 now) as [y1 k] eqn:E.
    apply loop_head_started in E as (Se & Dr & St & K).
    unfold only_started. destruct (logs_replace_drainer i (y1, k)) as [-> ->].
    rewrite drainers_replace_drainer. simpl fst.
    apply (only_started_turn y0 y1 k); eauto.
  - destruct (updateFromHeaders _ _ _ _) as [e|s]; injection S as <-; exact I.
  - injection S as <-. exact I.
Qed.

Lemma only_started_run evs : forall y y',
  only_started y -> run y evs = Some y' -> only_started y'.
Proof.
  induction evs as [|e evs IH]; simpl; intros y y' I R.
  - now injection R as <-.
  - destruct (step y e) as [y1|] eqn:S; [|discriminate].
    eapply IH; [|eassumption]. eapply only_started_step; eassumption.
Qed.

Lemma only_started_new config now : only_started (new_Sys config now).
Proof. split; constructor. Qed.

End Settlements.

(** X5.  [reset()] drops the requests that wait: it empties the queue and
    fills the bucket, settles no promise, and leaves the suspended
    activations where they are.  As long as [reset()] is not called again,
    the requests started or waiting are those started before the call and
    those accepted after it; so a request that waited at the call, unless
    the same request was started before or is accepted again, is never
    started, and the promise that [throttle] returned for it never
    settles. *)
Theorem reset_drops_waiting_requests y t y0 evs y' :
  step y (EReset t) = Some y0 ->
  forallb no_reset evs = true ->
  run y0 evs = Some y' ->
  queue (rl y0) = [] /\ tokens (rl y0) = maxTokens (rl y) /\
  processing (rl y0) = false /\
  started y0 = started y /\ drainers y0 = drainers y /\ settled y0 = settled y /\
  Permutation (started y' ++ queue (rl y')) (started y ++ enqueued y0 evs) /\
  forall config now0 evs0 r,
    run (new_Sys config now0) evs0 = Some y ->
    In r (queue (rl y)) -> ~ In r (started y) -> ~ In r (enqueued y0 evs) ->
    ~ In r (started y') /\ forall out, ~ In (r, out) (settled y').
Proof.
  intros S N R.
  assert (P : Permutation (started y' ++ queue (rl y')) (started y ++ enqueued y0 evs)).
  { pose proof (perm_run evs _ _ R N) as P.
    simpl in S. injection S as <-. simpl in P. now rewrite app_nil_r in P. }
  assert (O : only_started y -> only_started y').
  { intros I. eapply only_started_run; [|exact R]. eapply only_started_step; eassumption. }
  simpl in S. injection S as <-. simpl.
  repeat (split; [reflexivity|]). split; [exact P|].
  intros config now0 evs0 r R0 Q NS NE.
  assert (NS' : ~ In r (started y')).
  { intros H. apply NS.
    assert (H' : In r (started y ++ enqueued (mkSys (reset (rl y) t) (drainers y) (started y)
                                              (settled y)) evs)).
    { eapply Permutation_in; [exact P|]. apply in_or_app. now left. }
    apply in_app_or in H' as [H'|H']; [exact H'|contradiction]. }
  split; [exact NS'|]. intros out H.
  destruct (O (only_started_run evs0 _ _ (only_started_new config now0) R0)) as [F _].
  rewrite List.Forall_forall in F. apply NS'. exact (F _ H).
Qed.

Lemma reset_drops_waiting_requests_witness :
  exists y0 y',
    step before_reset (EReset 1250) = Some y0 /\
    run y0 after_reset = Some y' /\
    Permutation (started y' ++ queue (rl y')) (started before_reset ++ enqueued y0 after_reset) /\
    List.map fn (queue (rl before_reset)) = [Opaque 1; Opaque 2; Opaque 3] /\
    List.map fn (started y') = [Opaque 0; Opaque 9] /\
    List.map (fun x => fn (fst x)) (settled y') = [Opaque 0; Opaque 9].
Proof.
  eexists. eexists. split; [reflexivity|]. split; [vm_compute; reflexivity|].
  split; [|split; [|split]; vm_compute; reflexivity].
  apply (reset_drops_waiting_requests before_reset 1250 _ after_reset _ eq_refl eq_refl).
  vm_compute; reflexivity.
Defined.

Section Progress.
Local Open Scope Q_scope.
Local Arguments Qfloor : simpl never.
Local Arguments Qceiling : simpl never.
Local Arguments Qmin : simpl never.
Local Arguments Qplus : simpl never.
Local Arguments Qminus : simpl never.
Local Arguments Qmult : simpl never.
Local Arguments Qdiv : simpl never.
Local Arguments sort_queue : simpl never.
Local Arguments Z.ltb : simpl never.
Local Arguments Z.leb : simpl never.
Local Arguments Z.sub : simpl never.
Local Arguments Z.add : simpl never.

Lemma refill_ignores_queue s q b now :
  tokens (refillTokens (set_processing b (set_queue q s)) now) = tokens (refillTokens s now).
Proof. unfold refillTokens, tokensToAdd. simpl. destruct (Qle_bool _ _); reflexivity. Qed.

(** After [timeForNextToken] milliseconds a token is due. *)
Lemma token_due s now :
  0 < requestsPerMinute s ->
  (lastRefill s + timeForNextToken s <= now)%Z ->
  1 <= tokensToAdd s now.
Proof.
  intros P L. unfold tokensToAdd, timeForNextToken in *.
  set (rpm := requestsPerMinute s) in *.
  assert (C : 60000 / rpm <= inject_Z (now - lastRefill s)).
  { apply (Qle_trans _ (inject_Z (Qceiling (1 / (rpm / 60000))))).
    - apply (Qle_trans _ (1 / (rpm / 60000))); [|apply Qle_ceiling].
      apply Qle_lteq. right. field. intros Z. rewrite Z in P.
      now apply Qlt_irrefl in P.
    - rewrite <- Zle_Qle. lia. }
  apply Qle_shift_div_l; [reflexivity|]. rewrite Qmult_1_l.
  apply (Qle_trans _ (60000 / rpm * rpm)).
  - apply Qle_lteq. right. field. intros Z. rewrite Z in P. now apply Qlt_irrefl in P.
  - apply Qmult_le_compat_r; [exact C|]. now apply Qlt_le_weak.
Qed.

Lemma floor_ge_1 q : 1 <= q -> 1 <= inject_Z (Qfloor q).
Proof.
  intros H. apply Qfloor_resp_le in H. change (Qfloor 1) with 1%Z in H.
  change (inject_Z 1 <= inject_Z (Qfloor q)). now rewrite <- Zle_Qle.
Qed.

Lemma refill_gives_token s now :
  1 <= maxTokens s -> 0 <= tokens s -> 1 <= tokensToAdd s now ->
  1 <= tokens (refillTokens s now).
Proof.
  intros M T A. unfold refillTokens.
  assert (E : Qle_bool 1 (tokensToAdd s now) = true) by now apply Qle_bool_iff.
  rewrite E. simpl. apply Q.min_glb; [exact M|].
  pose proof (floor_ge_1 _ A) as F.
  generalize dependent (inject_Z (Qfloor (tokensToAdd s now))). intros; lra.
Qed.

End Progress.

(** X6.  [throttle] on an idle limiter that has a token, with no minimum delay
    due, calls [fn] before it returns: the request is started at once, one
    token is taken, and nothing is left in the queue. *)
Theorem throttle_on_idle_limiter_starts_at_once y f prio now :
  queue (rl y) = [] -> processing (rl y) = false ->
  0 < maxQueueSize (rl y) ->
  (1 <= tokens (refillTokens (rl y) now))%Q ->
  (minRequestDelay (rl y) <= 0 \/ minRequestDelay (rl y) <= now - lastRequestTime (rl y)) ->
  exists y',
    throttle y f prio now = (ThrottlePending, y') /\
    started y' = (started y ++ [{| fn := f; priority := prio; timestamp := now |}])%list /\
    drainers y' =
      (drainers y ++ [KAwaitFn {| fn := f; priority := prio; timestamp := now |}])%list /\
    queue (rl y') = [] /\ processing (rl y') = true /\
    tokens (rl y') = (tokens (refillTokens (rl y) now) - 1)%Q /\
    lastRequestTime (rl y') = now /\
    totalRequests (rl y') = totalRequests (rl y) + 1 /\
    delayedRequests (rl y') = delayedRequests (rl y).
Proof.
  intros Q P M T D.
  set (r := {| fn := f; priority := prio; timestamp := now |}).
  set (y1 := mkSys (set_processing true (set_queue [r] (rl y)))
                   (drainers y) (started y) (settled y)).
  assert (E : throttle y f prio now = (ThrottlePending, add_drainer (loop_head y1 now))).
  { unfold throttle. rewrite Q. simpl length.
    destruct (maxQueueSize (rl y) <=? Z.of_nat 0) eqn:F;
      [apply Z.leb_le in F; simpl in F; lia|].
    unfold processQueue. cbn [rl processing set_queue]. rewrite P. reflexivity. }
  assert (T1 : tokens (refillTokens (rl y1) now) = tokens (refillTokens (rl y) now))
    by apply (refill_ignores_queue (rl y) [r] true now).
  set (y2 := mkSys (refillTokens (rl y1) now) (drainers y) (started y) (settled y)).
  assert (H : loop_head y1 now = dispatch y2 now).
  { destruct (loop_head_cases y1 now) as [[Q1 _]|[_ [[L _]|[(_ & _ & D1 & D2)|(_ & _ & H)]]]].
    - discriminate.
    - rewrite T1 in L. exfalso. apply (Qlt_not_le _ _ L T).
    - simpl in D1, D2. lia.
    - exact H. }
  destruct (refill_fields (rl y1) now) as (_ & _ & P2 & Tt & Dd & _).
  destruct (dispatch_cases y2 now)
    as [[S _]|(r' & rest & y' & S & D2 & Dr & _ & St & Qu & Pr & _ & _ & Tk & Lr & Tr & De)].
  { simpl in S. rewrite refill_queue in S. discriminate. }
  simpl in S. rewrite refill_queue in S. change (sort_queue [r]) with [r] in S.
  injection S as <- <-.
  exists (add_drainer (y', Some (KAwaitFn r))). rewrite E, H, D2.
  split; [reflexivity|]. simpl.
  rewrite St, Dr, Qu, Pr, Tk, Lr, Tr, De. simpl.
  unfold y1 in P2, T1, Tt, Dd. simpl in P2, T1, Tt, Dd. rewrite P2, T1, Tt, Dd.
  replace (now - now) with 0 by lia.
  repeat split.
Qed.

Lemma throttle_on_idle_limiter_starts_at_once_witness :
  started (snd (throttle (new_Sys globalConfig 1000) (Opaque 1) 0 1000)) =
    [{| fn := Opaque 1; priority := 0; timestamp := 1000 |}].
Proof.
  assert (T : (1 <= tokens (refillTokens (rl (new_Sys globalConfig 1000)) 1000))%Q)
    by (vm_compute; discriminate).
  assert (D : minRequestDelay (rl (new_Sys globalConfig 1000)) <=
              1000 - lastRequestTime (rl (new_Sys globalConfig 1000)))
    by (vm_compute; discriminate).
  destruct (throttle_on_idle_limiter_starts_at_once (new_Sys globalConfig 1000) (Opaque 1) 0 1000
              eq_refl eq_refl eq_refl T (or_intror D))
    as (y' & E & S & _).
  rewrite E. exact S.
Defined.

(** X7.  The wait for the next token is long enough.  When the loop wakes
    [timeForNextToken] milliseconds or more after the last refill, and the
    rate is at least one request per minute, the refill gives it a whole
    token (provided the count has not been driven below zero): the loop does
    not go back to sleep for a token. *)
Theorem token_wait_is_long_enough y now :
  (1 <= requestsPerMinute (rl y))%Q -> (1 <= maxTokens (rl y))%Q ->
  (0 <= tokens (rl y))%Q ->
  lastRefill (rl y) + timeForNextToken (rl y) <= now ->
  (1 <= tokens (refillTokens (rl y) now))%Q /\
  forall u, snd (loop_head y now) <> Some (KSleepToken u).
Proof.
  intros R M T L.
  assert (G : (1 <= tokens (refillTokens (rl y) now))%Q).
  { apply refill_gives_token; [exact M|exact T|]. apply token_due; [|exact L].
    apply (Qlt_le_trans _ 1); [reflexivity|exact R]. }
  split; [exact G|]. intros u.
  destruct (loop_head_cases y now) as [[_ ->]|[_ [[B _]|[(_ & [v ->] & _)|(_ & _ & ->)]]]];
    simpl; try discriminate.
  - exfalso. apply (Qlt_not_le _ _ B G).
  - destruct (dispatch_cases
                (mkSys (refillTokens (rl y) now) (drainers y) (started y) (settled y)) now)
      as [[_ ->]|(r & rest & y' & _ & -> & _)]; discriminate.
Qed.

Lemma token_wait_is_long_enough_witness :
  (1 <= tokens (refillTokens (rl drained) 1000))%Q.
Proof.
  apply (token_wait_is_long_enough drained 1000); vm_compute; discriminate.
Defined.

(* ===================================================================== *)
(** * Properties of the request deduplicator                              *)
(* ===================================================================== *)

Import Dedup.

Section DedupFacts.

Lemma wf_empty : wf empty.
Proof. split; [|split]; apply map_Forall_empty. Qed.

Lemma coherent_empty : coherent empty.
Proof. apply map_Forall_empty. Qed.

Lemma wf_lookup y key p :
  wf y -> pending (dd y) !! key = Some p ->
  exists f, inflight y !! p = Some (key, f) /\ (p < next y)%nat.
Proof.
  intros (W1 & W2 & W3) P. specialize (W1 _ _ P). simpl in W1.
  destruct (inflight y !! p) as [[k f]|] eqn:I; [|discriminate].
  injection W1 as ->. exists f. split; [reflexivity|]. exact (W2 _ _ I).
Qed.

Lemma dedupe_hit y key f p :
  pending (dd y) !! key = Some p ->
  dedupe y key f =
    (p, mkSys (mkDD (pending (dd y))
                    (<[key := (count_or_1 (requestCounts (dd y) !! key) + 1)%nat]>
                       (requestCounts (dd y))))
              (inflight y) (next y) (results y) (invoked y)
              (returned y ++ [(key, p)])).
Proof. intros P. unfold dedupe. now rewrite P. Qed.

Lemma dedupe_miss y key f :
  pending (dd y) !! key = None ->
  dedupe y key f =
    (next y, mkSys (mkDD (<[key := next y]> (pending (dd y)))
                         (<[key := 1%nat]> (requestCounts (dd y))))
                   (<[next y := (key, f)]> (inflight y)) (S (next y)) (results y)
                   (invoked y ++ [(key, f)])
                   (returned y ++ [(key, next y)])).
Proof. intros P. unfold dedupe. now rewrite P. Qed.

(** [wf] is kept by every event. *)
Lemma wf_step y e y' : wf y -> step y e = Some y' -> wf y'.
Proof.
  intros W S. destruct e as [key f|q out|]; simpl in S.
  - injection S as <-. destruct (pending (dd y) !! key) as [p|] eqn:P.
    + rewrite (dedupe_hit _ _ _ _ P). exact W.
    + rewrite (dedupe_miss _ _ _ P). pose proof W as (W1 & W2 & W3).
      split; [|split]; simpl.
      * intros key' p' L. apply lookup_insert_Some in L as [[<- <-]|[N L]].
        -- now rewrite lookup_insert_eq.
        -- destruct (wf_lookup y key' p' W L) as (g & I & Lt).
           rewrite lookup_insert_ne by lia. now rewrite I.
      * intros p' kf L. apply lookup_insert_Some in L as [[<- <-]|[N L]]; [lia|].
        specialize (W2 _ _ L). simpl in W2. lia.
      * intros p' o L. specialize (W3 _ _ L). simpl in W3. lia.
  - unfold settle in S. destruct (inflight y !! q) as [[kq fq]|] eqn:I; [|discriminate].
    injection S as <-. pose proof W as (W1 & W2 & W3). split; [|split]; simpl.
    + intros key' p' L. apply lookup_delete_Some in L as [N L].
      destruct (wf_lookup y key' p' W L) as (g & I' & Lt).
      rewrite lookup_delete_ne; [now rewrite I'|]. intros ->. congruence.
    + intros p' kf L. apply lookup_delete_Some in L as [N L]. exact (W2 _ _ L).
    + intros p' o L. apply lookup_insert_Some in L as [[<- <-]|[N L]].
      * exact (W2 _ _ I).
      * exact (W3 _ _ L).
  - injection S as <-. destruct W as (W1 & W2 & W3).
    split; [|split]; simpl; [apply map_Forall_empty|exact W2|exact W3].
Qed.

(** [coherent] is kept by every event but [clear()]. *)
Lemma coherent_step y e y' :
  wf y -> coherent y -> e <> EClear -> step y e = Some y' -> coherent y'.
Proof.
  intros W C N S. destruct e as [key f|q out|]; simpl in S; [| |congruence].
  - injection S as <-. destruct (pending (dd y) !! key) as [p|] eqn:P.
    + rewrite (dedupe_hit _ _ _ _ P). exact C.
    + rewrite (dedupe_miss _ _ _ P). unfold coherent. simpl.
      intros p' [k' f'] L. simpl. apply lookup_insert_Some in L as [[<- [= <- <-]]|[Ne L]].
      * now rewrite lookup_insert_eq.
      * specialize (C _ _ L). simpl in C.
        rewrite lookup_insert_ne; [exact C|]. intros <-. congruence.
  - unfold settle in S. destruct (inflight y !! q) as [[kq fq]|] eqn:I; [|discriminate].
    injection S as <-. unfold coherent. simpl.
    intros p' [k' f'] L. simpl. apply lookup_delete_Some in L as [Ne L].
    pose proof (C _ _ L) as C1. pose proof (C _ _ I) as C2. simpl in C1, C2.
    rewrite lookup_delete_ne; [exact C1|]. intros <-. congruence.
Qed.

(** ** While the promise registered under [k] is unsettled *)

Lemma filter_key_app {A} k (l : list (string * A)) x :
  List.filter (key_is k) (l ++ [x]) =
  (List.filter (key_is k) l ++ (if key_is k x then [x] else []))%list.
Proof. rewrite List.filter_app. simpl. now destruct (key_is k x). Qed.

Lemma key_is_same {A} k (a : A) : key_is k (k, a) = true.
Proof. unfold key_is. simpl. apply String.eqb_refl. Qed.

Lemma key_is_other {A} k k' (a : A) : k' <> k -> key_is k (k', a) = false.
Proof. unfold key_is. simpl. intros N. now apply String.eqb_neq. Qed.

Lemma step_window k p f y e y' :
  registered k p f y -> leaves_unsettled p e = true -> step y e = Some y' ->
  registered k p f y' /\
  List.filter (key_is k) (invoked y') = List.filter (key_is k) (invoked y) /\
  List.filter (key_is k) (returned y') =
    (List.filter (key_is k) (returned y) ++ replicate (calls k [e]) (k, p))%list.
Proof.
  intros (W & C & P & I) U S.
  assert (W' : wf y') by (eapply wf_step; eassumption).
  assert (C' : coherent y').
  { apply (coherent_step y e y' W C); [|exact S]. intros E. rewrite E in U. discriminate. }
  destruct e as [key g|q out|]; simpl in S, U; [| |discriminate].
  - injection S as <-. unfold calls. simpl List.filter.
    destruct (String.eqb_spec key k) as [->|N].
    + rewrite (dedupe_hit _ _ _ _ P) in *. simpl in W', C' |- *.
      rewrite filter_key_app, key_is_same.
      refine (conj (conj W' (conj C' (conj P I))) (conj eq_refl eq_refl)).
    + destruct (pending (dd y) !! key) as [p'|] eqn:P'.
      * rewrite (dedupe_hit _ _ _ _ P') in *. simpl in W', C' |- *.
        rewrite filter_key_app, key_is_other, app_nil_r by assumption.
        refine (conj (conj W' (conj C' (conj P I))) (conj eq_refl eq_refl)).
      * rewrite (dedupe_miss _ _ _ P') in *. simpl in W', C' |- *.
        rewrite !filter_key_app, !key_is_other, !app_nil_r by assumption.
        destruct (wf_lookup y k p W P) as (g' & _ & Lt).
        refine (conj (conj W' (conj C' (conj _ _))) (conj eq_refl eq_refl)); simpl.
        -- rewrite lookup_insert_ne by congruence. exact P.
        -- rewrite lookup_insert_ne by lia. exact I.
  - unfold settle in S. destruct (inflight y !! q) as [[kq fq]|] eqn:Iq; [|discriminate].
    injection S as <-. simpl in W', C' |- *. rewrite app_nil_r.
    apply negb_true_iff, Nat.eqb_neq in U.
    pose proof (C _ _ Iq) as Cq. simpl in Cq.
    refine (conj (conj W' (conj C' (conj _ _))) (conj eq_refl eq_refl)); simpl.
    + rewrite lookup_delete_ne; [exact P|]. intros <-. congruence.
    + rewrite lookup_delete_ne; [exact I|]. congruence.
Qed.



(** ** After a settlement *)

Lemma dedupe_retired p y key g :
  retired p y -> fst (dedupe y key g) <> p /\ retired p (snd (dedupe y key g)).
Proof.
  intros (W & I & Lt).
  assert (W' : wf (snd (dedupe y key g))) by (eapply (wf_step y (EDedupe key g)); eauto).
  destruct (pending (dd y) !! key) as [q|] eqn:P.
  - rewrite (dedupe_hit _ _ _ _ P) in *. simpl.
    destruct (wf_lookup y key q W P) as (h & Iq & _).
    split; [congruence|]. split; [exact W'|]. split; assumption.
  - rewrite (dedupe_miss _ _ _ P) in *. simpl.
    split; [lia|]. split; [exact W'|]. split; simpl; [|lia].
    rewrite lookup_insert_ne by lia. exact I.
Qed.

Lemma step_retired p y e y' :
  retired p y -> step y e = Some y' ->
  retired p y' /\
  exists l, returned y' = (returned y ++ l)%list /\ Forall (fun x => snd x <> p) l.
Proof.
  intros R S. destruct e as [key g|q out|]; simpl in S.
  - injection S as <-. destruct (dedupe_retired p y key g R) as [N R'].
    split; [exact R'|]. exists [(key, fst (dedupe y key g))].
    split; [|repeat constructor; exact N].
    unfold dedupe. destruct (pending (dd y) !! key); reflexivity.
  - destruct R as (W & I & Lt).
    assert (W' : wf y') by (eapply (wf_step y (ESettle q out)); eauto).
    unfold settle in S. destruct (inflight y !! q) as [[kq fq]|] eqn:Iq; [|discriminate].
    injection S as <-. split.
    + split; [exact W'|]. split; simpl; [|exact Lt].
      destruct (decide (q = p)) as [->|N]; [apply lookup_delete_eq|].
      rewrite lookup_delete_ne by congruence. exact I.
    + exists []. simpl. rewrite app_nil_r. split; [reflexivity|constructor].
  - injection S as <-. destruct R as (W & I & Lt). split.
    + split; [eapply (wf_step y EClear); eauto|]. split; assumption.
    + exists []. simpl. rewrite app_nil_r. split; [reflexivity|constructor].
Qed.

Lemma run_retired p evs : forall y y',
  retired p y -> run y evs = Some y' ->
  exists l, returned y' = (returned y ++ l)%list /\ Forall (fun x => snd x <> p) l.
Proof.
  induction evs as [|e evs IH]; simpl; intros y y' R S.
  - injection S as <-. exists []. rewrite app_nil_r. split; [reflexivity|constructor].
  - destruct (step y e) as [y1|] eqn:E; [|discriminate].
    destruct (step_retired _ _ _ _ R E) as (R1 & l1 & E1 & F1).
    destruct (IH _ _ R1 S) as (l2 & E2 & F2).
    exists (l1 ++ l2)%list. rewrite E2, E1, app_assoc. split; [reflexivity|].
    apply Forall_app; split; assumption.
Qed.



End DedupFacts.



(** C9.  When the promise registered under [k] settles, to a value or to an
    error, the entry of [k] is gone in the state in which the settlement
    becomes observable; the next call with key [k] invokes its supplier and
    returns a new, unsettled promise; and no later call of [dedupe]
    whatsoever returns the settled promise again. *)
Theorem settled_key_starts_afresh y k p out :
  wf y ->
  pending (dd y) !! k = Some p ->
  exists y1,
    step y (ESettle p out) = Some y1 /\
    pending (dd y1) !! k = None /\
    isPending y1 k = false /\
    observe y1 p = Some out /\
    (forall g,
       fst (dedupe y1 k g) <> p /\
       invoked (snd (dedupe y1 k g)) = (invoked y1 ++ [(k, g)])%list /\
       observe (snd (dedupe y1 k g)) (fst (dedupe y1 k g)) = None) /\
    (forall evs y2,
       run y1 evs = Some y2 ->
       exists l, returned y2 = (returned y1 ++ l)%list /\ Forall (fun x => snd x <> p) l).
Proof.
  intros W P. destruct (wf_lookup y k p W P) as (f & I & Lt).
  simpl. unfold settle. rewrite I. eexists. split; [reflexivity|].
  set (y1 := mkSys _ _ _ _ _ _).
  assert (S : step y (ESettle p out) = Some y1) by (simpl; unfold settle; now rewrite I).
  assert (P1 : pending (dd y1) !! k = None) by apply lookup_delete_eq.
  assert (R : retired p y1).
  { split; [eapply wf_step; eassumption|]. split; [apply lookup_delete_eq|exact Lt]. }
  split; [exact P1|]. split.
  { unfold isPending. rewrite P1. apply bool_decide_eq_false. intros [? ?]. discriminate. }
  split; [apply lookup_insert_eq|]. split.
  - intros g. split; [apply dedupe_retired; exact R|].
    rewrite (dedupe_miss _ _ _ P1). simpl. split; [reflexivity|].
    unfold observe. simpl. rewrite lookup_insert_ne by lia.
    destruct W as (_ & _ & W3). destruct (results y !! next y) eqn:L; [|reflexivity].
    specialize (W3 _ _ L). simpl in W3. lia.
  - intros evs y2 E. eapply run_retired; eassumption.
Qed.


(** C9 at the failure of the first request for the project list. *)
Lemma settled_key_starts_afresh_witness :
  pending (dd (snd first_call)) !! "projects:list" = Some 0%nat /\
  exists y1,
    step (snd first_call) (ESettle 0 (Rejected (new_Error "offline"))) = Some y1 /\
    pending (dd y1) !! "projects:list" = None.
Proof.
  assert (P : pending (dd (snd first_call)) !! "projects:list" = Some 0%nat)
    by (vm_compute; reflexivity).
  split; [exact P|].
  destruct (settled_key_starts_afresh (snd first_call) "projects:list" 0
              (Rejected (new_Error "offline"))
              (wf_step empty (EDedupe "projects:list" (Opaque 1)) _ wf_empty eq_refl) P)
    as (y1 & S & N & _).
  exists y1. split; [exact S | exact N].
Defined.


(** * Further properties of the request deduplicator *)

Section DedupMore.

Lemma not_clear_ne e : not_clear e = true -> e <> EClear.
Proof. intros H ->. discriminate. Qed.

Lemma coherent_run evs : forall y y',
  wf y -> coherent y -> forallb not_clear evs = true -> run y evs = Some y' ->
  wf y' /\ coherent y'.
Proof.
  induction evs as [|e evs IH]; simpl; intros y y' W C N R.
  - injection R as <-. auto.
  - apply andb_true_iff in N as [N1 N2].
    destruct (step y e) as [y1|] eqn:S; [|discriminate].
    eapply IH; [| |eassumption|eassumption].
    + eapply wf_step; eassumption.
    + eapply coherent_step; eauto using not_clear_ne.
Qed.

Lemma balanced_step y e y' :
  wf y -> coherent y -> not_clear e = true -> step y e = Some y' ->
  size (pending (dd y)) = size (inflight y) ->
  size (pending (dd y')) = size (inflight y').
Proof.
  intros W C N S B. destruct e as [key f|q out|]; simpl in S; [| |discriminate].
  - injection S as <-. destruct (pending (dd y) !! key) as [p|] eqn:P.
    + rewrite (dedupe_hit _ _ _ _ P). exact B.
    + rewrite (dedupe_miss _ _ _ P). simpl.
      rewrite !map_size_insert_None; [congruence| |exact P].
      destruct W as (_ & W2 & _).
      destruct (inflight y !! next y) as [kf|] eqn:I; [|reflexivity].
      specialize (W2 _ _ I). simpl in W2. lia.
  - unfold settle in S. destruct (inflight y !! q) as [[kq fq]|] eqn:I; [|discriminate].
    injection S as <-. simpl. pose proof (C _ _ I) as P. simpl in P.
    rewrite (map_size_delete_Some _ _ (mk_is_Some _ _ P)),
      (map_size_delete_Some _ _ (mk_is_Some _ _ I)). congruence.
Qed.

Lemma balanced_run evs : forall y y',
  wf y -> coherent y -> forallb not_clear evs = true -> run y evs = Some y' ->
  size (pending (dd y)) = size (inflight y) ->
  size (pending (dd y')) = size (inflight y').
Proof.
  induction evs as [|e evs IH]; simpl; intros y y' W C N R B.
  - now injection R as <-.
  - apply andb_true_iff in N as [N1 N2].
    destruct (step y e) as [y1|] eqn:S; [|discriminate].
    eapply (IH y1); [| |eassumption|eassumption|].
    + eapply wf_step; eassumption.
    + eapply coherent_step; eauto using not_clear_ne.
    + eapply balanced_step; eassumption.
Qed.

Lemma holders_app k p y l x :
  returned y = (l ++ [x])%list ->
  holders k p y =
  (length (List.filter (fun x => String.eqb (fst x) k && (snd x =? p)%nat) l) +
   (if String.eqb (fst x) k && (snd x =? p)%nat then 1 else 0))%nat.
Proof.
  intros E. unfold holders. rewrite E, List.filter_app, length_app. simpl.
  now destruct (_ && _).
Qed.

Lemma holders_fresh k (p n : nat) (l : list (string * nat)) :
  Forall (fun x => (snd x < n)%nat) l -> (n <= p)%nat ->
  length (List.filter (fun x => String.eqb (fst x) k && (snd x =? p)%nat) l) = 0%nat.
Proof.
  induction 1 as [|x l H F IH]; intros L; [reflexivity|]. simpl.
  destruct (Nat.eqb_spec (snd x) p) as [E|E]; [lia|].
  rewrite andb_false_r. now apply IH.
Qed.

Lemma counted_empty : counted empty.
Proof.
  split; [|split].
  - intros k. simpl. now rewrite !lookup_empty.
  - intros k p. simpl. now rewrite lookup_empty.
  - constructor.
Qed.

(** [counted] is kept by every event, [clear()] included. *)
Lemma counted_step y e y' : wf y -> counted y -> step y e = Some y' -> counted y'.
Proof.
  intros W (C1 & C2 & C3) S. destruct e as [key f|q out|]; simpl in S.
  - injection S as <-. destruct (pending (dd y) !! key) as [p|] eqn:P.
    + rewrite (dedupe_hit _ _ _ _ P).
      set (y' := mkSys _ _ _ _ _ _).
      assert (H : forall k p', holders k p' y' =
                    (holders k p' y + if String.eqb key k && (p =? p')%nat then 1 else 0)%nat).
      { intros k p'. apply (holders_app k p' y' (returned y) (key, p)). reflexivity. }
      split; [|split].
      * intros k. simpl. destruct (String.eqb_spec key k) as [<-|Ne].
        -- rewrite lookup_insert_eq, P. simpl. rewrite H.
           rewrite String.eqb_refl, Nat.eqb_refl. simpl.
           rewrite (C1 key), P. simpl. f_equal.
           pose proof (C2 _ _ P). unfold count_or_1.
           destruct (holders key p y); [lia|reflexivity].
        -- rewrite lookup_insert_ne by exact Ne. rewrite C1.
           destruct (pending (dd y) !! k) as [p'|]; [|reflexivity]. simpl.
           rewrite H. apply String.eqb_neq in Ne. rewrite Ne. simpl. f_equal. lia.
      * intros k p' L. simpl in L. rewrite H. specialize (C2 _ _ L). lia.
      * simpl. apply Forall_app. split; [exact C3|]. constructor; [|constructor].
        simpl. now destruct (wf_lookup y key p W P) as (g & _ & Lt).
    + rewrite (dedupe_miss _ _ _ P).
      set (y' := mkSys _ _ _ _ _ _).
      assert (H : forall k p', holders k p' y' =
                    (holders k p' y +
                     if String.eqb key k && (next y =? p')%nat then 1 else 0)%nat).
      { intros k p'. apply (holders_app k p' y' (returned y) (key, next y)). reflexivity. }
      split; [|split].
      * intros k. simpl. destruct (String.eqb_spec key k) as [<-|Ne].
        -- rewrite !lookup_insert_eq. simpl. rewrite H.
           rewrite String.eqb_refl, Nat.eqb_refl. simpl. f_equal.
           unfold holders. rewrite (holders_fresh key (next y) (next y) _ C3); lia.
        -- rewrite !lookup_insert_ne by exact Ne. rewrite C1.
           destruct (pending (dd y) !! k) as [p'|]; [|reflexivity]. simpl.
           rewrite H. apply String.eqb_neq in Ne. rewrite Ne. simpl. f_equal. lia.
      * intros k p' L. simpl in L. rewrite H.
        apply lookup_insert_Some in L as [[<- <-]|[Ne L]].
        -- rewrite String.eqb_refl, Nat.eqb_refl. simpl. lia.
        -- specialize (C2 _ _ L). lia.
      * simpl. apply Forall_app. split.
        -- eapply Forall_impl; [exact C3|]. simpl. intros; lia.
        -- constructor; [simpl; lia|constructor].
  - unfold settle in S. destruct (inflight y !! q) as [[kq fq]|] eqn:I; [|discriminate].
    injection S as <-. split; [|split]; simpl.
    + intros k. destruct (String.eqb_spec kq k) as [<-|Ne].
      * now rewrite !lookup_delete_eq.
      * rewrite !lookup_delete_ne by exact Ne. apply C1.
    + intros k p L. apply lookup_delete_Some in L as [_ L]. exact (C2 _ _ L).
    + exact C3.
  - injection S as <-. split; [|split]; simpl.
    + intros k. now rewrite !lookup_empty.
    + intros k p. now rewrite lookup_empty.
    + exact C3.
Qed.

Lemma counted_run evs : forall y y',
  wf y -> counted y -> run y evs = Some y' -> counted y'.
Proof.
  induction evs as [|e evs IH]; simpl; intros y y' W C R.
  - now injection R as <-.
  - destruct (step y e) as [y1|] eqn:S; [|discriminate].
    eapply (IH y1); [| |eassumption].
    + eapply wf_step; eassumption.
    + eapply counted_step; eassumption.
Qed.

End DedupMore.

(** X8.  As long as [clear()] is not used, [isPending(key)] is true exactly while
    a request made under the key is unsettled. *)
Theorem isPending_iff_request_unsettled evs y k :
  forallb not_clear evs = true ->
  run empty evs = Some y ->
  isPending y k = true <-> exists p f, inflight y !! p = Some (k, f).
Proof.
  intros N R.
  destruct (coherent_run evs _ _ wf_empty coherent_empty N R) as [W C].
  unfold isPending. rewrite bool_decide_eq_true. split.
  - intros [p P]. destruct (wf_lookup y k p W P) as (f & I & _). eauto.
  - intros (p & f & I). exists p. exact (C _ _ I).
Qed.

Lemma isPending_iff_request_unsettled_witness :
  isPending four_calls_made "auth:check" = true.
Proof.
  apply (isPending_iff_request_unsettled four_calls); [reflexivity|vm_compute; reflexivity|].
  exists 1%nat, (Opaque 3). vm_compute. reflexivity.
Defined.

(** X9.  As long as [clear()] is not used, [getPendingCount()] is the number of
    unsettled requests.  [getStats()] reports the same number as [pending],
    and under [keys] the keys for which [isPending] holds, each once. *)
Theorem getPendingCount_counts_unsettled_requests evs y :
  forallb not_clear evs = true ->
  run empty evs = Some y ->
  getPendingCount y = size (inflight y) /\
  stats_pending (getStats y) = getPendingCount y /\
  length (stats_keys (getStats y)) = getPendingCount y /\
  NoDup (stats_keys (getStats y)) /\
  forall k, k ∈ stats_keys (getStats y) <-> isPending y k = true.
Proof.
  intros N R.
  split; [exact (balanced_run evs _ _ wf_empty coherent_empty N R eq_refl)|].
  split; [reflexivity|]. simpl. unfold getStats_keys, getPendingCount.
  split; [now rewrite length_fmap, length_map_to_list|].
  split; [apply NoDup_fst_map_to_list|].
  intros k. unfold isPending. rewrite bool_decide_eq_true, list_elem_of_fmap. split.
  - intros ([k' p] & -> & E). apply elem_of_map_to_list in E. now exists p.
  - intros [p P]. exists (k, p). split; [reflexivity|]. now apply elem_of_map_to_list.
Qed.

Lemma getPendingCount_counts_unsettled_requests_witness :
  getPendingCount four_calls_made = 2%nat.
Proof.
  destruct (getPendingCount_counts_unsettled_requests four_calls four_calls_made)
    as (E & _); [reflexivity|vm_compute; reflexivity|].
  rewrite E. vm_compute. reflexivity.
Defined.

Section Thrown.

Lemma wf_step_x y e y' : wf y -> step_x y e = Some y' -> wf y'.
Proof.
  destruct e as [e|key f e]; simpl; [apply wf_step|].
  intros W [= <-]. unfold dedupe_thrown.
  destruct (pending (dd y) !! key) as [p|] eqn:P.
  - apply (wf_step y (EDedupe key f)); [exact W|reflexivity].
  - destruct W as (W1 & W2 & W3). split; [|split]; simpl.
    + exact W1.
    + eapply map_Forall_impl; [exact W2|]. simpl. intros; lia.
    + apply map_Forall_insert_2; [lia|].
      eapply map_Forall_impl; [exact W3|]. simpl. intros; lia.
Qed.

Lemma counted_x_usual y e y' : wf y -> counted_x y -> step y e = Some y' -> counted_x y'.
Proof.
  intros W (C1 & C2 & C3) S. destruct e as [key f|q out|]; simpl in S.
  - injection S as <-. destruct (pending (dd y) !! key) as [p|] eqn:P.
    + rewrite (dedupe_hit _ _ _ _ P).
      set (y' := mkSys _ _ _ _ _ _).
      assert (H : forall k p', holders k p' y' =
                    (holders k p' y + if String.eqb key k && (p =? p')%nat then 1 else 0)%nat).
      { intros k p'. apply (holders_app k p' y' (returned y) (key, p)). reflexivity. }
      split; [|split].
      * intros k. simpl. destruct (String.eqb_spec key k) as [<-|Ne].
        -- rewrite lookup_insert_eq, P. rewrite H.
           rewrite String.eqb_refl, Nat.eqb_refl. simpl.
           pose proof (C1 key) as C. rewrite P in C. rewrite C. f_equal.
           pose proof (C2 _ _ P). unfold count_or_1.
           destruct (holders key p y); [lia|reflexivity].
        -- rewrite lookup_insert_ne by exact Ne. specialize (C1 k).
           destruct (pending (dd y) !! k) as [p'|]; [|exact C1].
           rewrite H. apply String.eqb_neq in Ne. rewrite Ne. simpl. rewrite C1. f_equal. lia.
      * intros k p' L. simpl in L. rewrite H. specialize (C2 _ _ L). lia.
      * simpl. apply Forall_app. split; [exact C3|]. constructor; [|constructor].
        simpl. now destruct (wf_lookup y key p W P) as (g & _ & Lt).
    + rewrite (dedupe_miss _ _ _ P).
      set (y' := mkSys _ _ _ _ _ _).
      assert (H : forall k p', holders k p' y' =
                    (holders k p' y +
                     if String.eqb key k && (next y =? p')%nat then 1 else 0)%nat).
      { intros k p'. apply (holders_app k p' y' (returned y) (key, next y)). reflexivity. }
      split; [|split].
      * intros k. simpl. destruct (String.eqb_spec key k) as [<-|Ne].
        -- rewrite !lookup_insert_eq. rewrite H.
           rewrite String.eqb_refl, Nat.eqb_refl. simpl. f_equal.
           unfold holders. rewrite (holders_fresh key (next y) (next y) _ C3); lia.
        -- rewrite !lookup_insert_ne by exact Ne. specialize (C1 k).
           destruct (pending (dd y) !! k) as [p'|]; [|exact C1].
           rewrite H. apply String.eqb_neq in Ne. rewrite Ne. simpl. rewrite C1. f_equal. lia.
      * intros k p' L. simpl in L. rewrite H.
        apply lookup_insert_Some in L as [[<- <-]|[Ne L]].
        -- rewrite String.eqb_refl, Nat.eqb_refl. simpl. lia.
        -- specialize (C2 _ _ L). lia.
      * simpl. apply Forall_app. split.
        -- eapply Forall_impl; [exact C3|]. simpl. intros; lia.
        -- constructor; [simpl; lia|constructor].
  - unfold settle in S. destruct (inflight y !! q) as [[kq fq]|] eqn:I; [|discriminate].
    injection S as <-. split; [|split]; simpl.
    + intros k. destruct (String.eqb_spec kq k) as [<-|Ne].
      * rewrite !lookup_delete_eq. now left.
      * rewrite !lookup_delete_ne by exact Ne. apply C1.
    + intros k p L. apply lookup_delete_Some in L as [_ L]. exact (C2 _ _ L).
    + exact C3.
  - injection S as <-. split; [|split]; simpl.
    + intros k. rewrite !lookup_empty. now left.
    + intros k p. now rewrite lookup_empty.
    + exact C3.
Qed.

Lemma counted_x_step y e y' : wf y -> counted_x y -> step_x y e = Some y' -> counted_x y'.
Proof.
  destruct e as [e|key f e]; simpl; [apply counted_x_usual|].
  intros W C [= <-]. unfold dedupe_thrown.
  destruct (pending (dd y) !! key) as [p|] eqn:P.
  - (* the supplier is not called: the call is the usual one *)
    apply (counted_x_usual y (EDedupe key f)); [exact W|exact C|reflexivity].
  - destruct C as (C1 & C2 & C3).
    set (y' := mkSys _ _ _ _ _ _). change (counted_x y').
    assert (H : forall k p', pending (dd y) !! k = Some p' -> holders k p' y' = holders k p' y).
    { intros k p' L.
      rewrite (holders_app k p' y' (returned y) (key, next y) eq_refl). simpl.
      destruct (wf_lookup y k p' W L) as (g & _ & Lt).
      destruct (Nat.eqb_spec (next y) p'); [lia|]. rewrite andb_false_r. unfold holders. lia. }
    split; [|split].
    * intros k. simpl. destruct (String.eqb_spec key k) as [<-|Ne].
      -- rewrite P, lookup_insert_eq. now right.
      -- rewrite lookup_insert_ne by exact Ne. specialize (C1 k).
         destruct (pending (dd y) !! k) as [p'|] eqn:L; [|exact C1].
         transitivity (Some (holders k p' y)); [exact C1|].
         f_equal. symmetry. exact (H _ _ L).
    * intros k p' L. simpl in L. pose proof (H _ _ L) as E. pose proof (C2 _ _ L). lia.
    * simpl. apply Forall_app. split.
      -- eapply Forall_impl; [exact C3|]. simpl. intros; lia.
      -- constructor; [simpl; lia|constructor].
Qed.

Lemma counted_x_run evs : forall y y',
  wf y -> counted_x y -> run_x y evs = Some y' -> counted_x y'.
Proof.
  induction evs as [|e evs IH]; simpl; intros y y' W C R.
  - now injection R as <-.
  - destruct (step_x y e) as [y1|] eqn:S; [|discriminate].
    eapply (IH y1); [| |eassumption].
    + eapply wf_step_x; eassumption.
    + eapply counted_x_step; eassumption.
Qed.

Lemma counted_x_empty : counted_x empty.
Proof.
  split; [|split].
  - intros k. simpl. rewrite !lookup_empty. now left.
  - intros k p. simpl. now rewrite lookup_empty.
  - constructor.
Qed.

Lemma run_x_usual evs : forall y,
  forallb is_usual evs = true -> run_x y evs = run y (usual evs).
Proof.
  induction evs as [|[e|key f e] evs IH]; simpl; intros y U; [reflexivity| |discriminate].
  destruct (step y e); [now apply IH|reflexivity].
Qed.

End Thrown.

(** X10.  [requestCounts] counts the callers.  After any sequence of calls
    of [dedupe], settlements and calls of [clear()], suppliers that throw
    when called included, the count kept for a key with a pending request
    is the number of calls of [dedupe] that were handed the promise pending
    under it, the call that made the request included.  A key without a
    pending request has no count, or the count 1 that a supplier left
    behind when it threw; when every supplier has returned a promise, it
    has none, so that [requestCounts] has the keys of [pending]. *)
Theorem requestCounts_count_the_callers evs y k :
  run_x empty evs = Some y ->
  match pending (dd y) !! k with
  | Some p => requestCounts (dd y) !! k = Some (holders k p y) /\ (1 <= holders k p y)%nat
  | None =>
      (requestCounts (dd y) !! k = None \/ requestCounts (dd y) !! k = Some 1%nat) /\
      (forallb is_usual evs = true -> requestCounts (dd y) !! k = None)
  end.
Proof.
  intros R. destruct (counted_x_run evs _ _ wf_empty counted_x_empty R) as (C1 & C2 & _).
  specialize (C1 k). destruct (pending (dd y) !! k) as [p|] eqn:P.
  - split; [exact C1|exact (C2 _ _ P)].
  - split; [exact C1|]. intros U. rewrite (run_x_usual evs empty U) in R.
    destruct (counted_run _ _ _ wf_empty counted_empty R) as (D1 & _).
    rewrite D1, P. reflexivity.
Qed.

Lemma requestCounts_count_the_callers_witness :
  requestCounts (dd four_calls_made) !! "projects:list" = Some 3%nat /\
  pending (dd supplier_thrown) !! "projects:list" = None /\
  requestCounts (dd supplier_thrown) !! "projects:list" = Some 1%nat.
Proof.
  assert (R : run_x empty (Usual <$> four_calls) = Some four_calls_made)
    by (vm_compute; reflexivity).
  pose proof (requestCounts_count_the_callers (Usual <$> four_calls) _ "projects:list" R) as H.
  assert (P : pending (dd four_calls_made) !! "projects:list" = Some 0%nat)
    by (vm_compute; reflexivity).
  rewrite P in H. destruct H as [H _]. rewrite H.
  split; [vm_compute; reflexivity|]. split; vm_compute; reflexivity.
Defined.

(** X11.  [clear()] forgets a request without stopping it.  With a request for
    [k] in flight, after [clear()] nothing is pending, the next [dedupe]
    with [k] starts a second request; when the forgotten one settles, its
    [finally] callback removes the entry of the second, so that [isPending]
    is false while the second request is still running and a third call
    starts a third request. *)
Theorem clear_lets_an_old_request_unregister_a_new_one y k p f g out :
  wf y -> inflight y !! p = Some (k, f) ->
  (forall k', isPending (clear y) k' = false) /\
  getPendingCount (clear y) = 0%nat /\
  fst (dedupe (clear y) k g) = next y /\ next y <> p /\
  invoked (snd (dedupe (clear y) k g)) = (invoked y ++ [(k, g)])%list /\
  exists y3,
    settle (snd (dedupe (clear y) k g)) p out = Some y3 /\
    inflight y3 !! next y = Some (k, g) /\
    observe y3 (next y) = None /\
    isPending y3 k = false /\
    forall h, invoked (snd (dedupe y3 k h)) = (invoked y ++ [(k, g); (k, h)])%list.
Proof.
  intros W I.
  assert (Lt : (p < next y)%nat) by (destruct W as (_ & W2 & _); exact (W2 _ _ I)).
  assert (E : pending (dd (clear y)) !! k = None) by apply lookup_empty.
  split.
  { intros k'. unfold isPending. apply bool_decide_eq_false. simpl.
    rewrite lookup_empty. intros [? ?]. discriminate. }
  split; [reflexivity|].
  rewrite (dedupe_miss _ _ _ E). simpl.
  split; [reflexivity|]. split; [lia|]. split; [reflexivity|].
  unfold settle. simpl. rewrite lookup_insert_ne by lia. rewrite I.
  eexists. split; [reflexivity|]. simpl.
  split; [rewrite lookup_delete_ne by lia; apply lookup_insert_eq|].
  split.
  { unfold observe. simpl. rewrite lookup_insert_ne by lia.
    destruct W as (_ & _ & W3). destruct (results y !! next y) eqn:Rn; [|reflexivity].
    specialize (W3 _ _ Rn). simpl in W3. lia. }
  assert (P3 : delete k (<[k:=next y]> (∅ : gmap string nat)) !! k = None)
    by apply lookup_delete_eq.
  split.
  { unfold isPending. apply bool_decide_eq_false. simpl. rewrite P3.
    intros [? ?]. discriminate. }
  intros h. unfold dedupe. simpl. rewrite P3. simpl. now rewrite <- app_assoc.
Qed.

Lemma clear_lets_an_old_request_unregister_a_new_one_witness :
  exists y3,
    settle (snd (dedupe (clear (snd first_call)) "projects:list" (Opaque 2))) 0
           (Resolved "[]") = Some y3 /\
    isPending y3 "projects:list" = false /\
    inflight y3 !! 1%nat = Some ("projects:list", Opaque 2).
Proof.
  destruct (clear_lets_an_old_request_unregister_a_new_one (snd first_call)
              "projects:list" 0 (Opaque 1) (Opaque 2) (Resolved "[]"))
    as (_ & _ & _ & _ & _ & y3 & S & I & _ & P & _).
  - exact (wf_step empty (EDedupe "projects:list" (Opaque 1)) _ wf_empty eq_refl).
  - vm_compute. reflexivity.
  - exists y3. split; [exact S|]. split; [exact P|]. exact I.
Defined.

(* ===================================================================== *)
(** * Properties of the API client                                        *)
(* ===================================================================== *)

Import Api.

Section ApiFacts.

Ltac unM := unfold mbind, mret, M_bind, M_ret, bind, ret, throw, try_catch, get, modify in *.

Lemma only_lowered_refl s : only_lowered s s.
Proof. split; [now destruct s | apply Qle_refl]. Qed.

Lemma only_lowered_trans s1 s2 s3 :
  only_lowered s1 s2 -> only_lowered s2 s3 -> only_lowered s1 s3.
Proof.
  intros [E1 L1] [E2 L2]. split; [|eapply Qle_trans; eassumption].
  rewrite E2 at 1. rewrite E1. reflexivity.
Qed.

(** ** What a computation leaves alone *)

Lemma quiet_ret {A} (a : A) : quiet (ret a).
Proof. intros w. split; reflexivity. Qed.
Lemma quiet_throw {A} e : quiet (@throw A e).
Proof. intros w. split; reflexivity. Qed.
Lemma quiet_bind {A B} (m : M A) (k : A -> M B) :
  quiet m -> (forall a, quiet (k a)) -> quiet (m ≫= k).
Proof.
  intros Hm Hk w. unM. specialize (Hm w). destruct (m w) as [[a|e] w1]; simpl in *.
  - destruct (Hk a w1) as [H1 H2]. destruct Hm as [H3 H4]. split; congruence.
  - exact Hm.
Qed.
Lemma quiet_try_catch {A} (m : M A) h :
  quiet m -> (forall e, quiet (h e)) -> quiet (try_catch m h).
Proof.
  intros Hm Hh w. unM. specialize (Hm w). destruct (m w) as [[a|e] w1]; simpl in *.
  - exact Hm.
  - destruct (Hh e w1) as [H1 H2]. destruct Hm as [H3 H4]. split; congruence.
Qed.
Lemma quiet_modify f :
  (forall w, dispatches (log (f w)) = dispatches (log w) /\ limiter (f w) = limiter w) ->
  quiet (modify f).
Proof. intros H w. apply H. Qed.

Lemma dispatches_add_log e w :
  dispatches (log (add_log e w)) = (dispatches (log w) ++ (if is_dispatch e then [e] else []))%list.
Proof. unfold dispatches. simpl. rewrite List.filter_app. simpl. now destruct (is_dispatch e). Qed.

Lemma quiet_log e : is_dispatch e = false -> quiet (modify (add_log e)).
Proof.
  intros H. apply quiet_modify. intros w. rewrite dispatches_add_log, H, app_nil_r. auto.
Qed.

Lemma quiet_storage_access : quiet storage_access.
Proof. intros w. unfold storage_access. destruct (faults w) as [|[e|] fs]; auto. Qed.

Lemma quiet_storage_get {A} (f : Storage -> A) : quiet (storage_get f).
Proof.
  unfold storage_get. apply quiet_bind; [apply quiet_storage_access|]. intros _.
  apply quiet_bind; [intros w; split; reflexivity|]. intros a. apply quiet_ret.
Qed.

Lemma quiet_storage_update f : quiet (storage_update f).
Proof.
  unfold storage_update. apply quiet_bind; [apply quiet_storage_access|]. intros _.
  apply quiet_modify. auto.
Qed.

Lemma quiet_getApiBaseUrl : quiet getApiBaseUrl.
Proof.
  unfold getApiBaseUrl. apply quiet_try_catch.
  - apply quiet_bind; [apply quiet_storage_get|]. intros a. apply quiet_ret.
  - intros e. apply quiet_bind; [now apply quiet_log|]. intros _. apply quiet_ret.
Qed.

Lemma quiet_fetch : quiet fetch.
Proof. intros w. unfold fetch. destruct (network w) as [|[r|e] n]; auto. Qed.

Lemma quiet_fetchWithTimeout entry t : is_dispatch entry = false -> quiet (fetchWithTimeout entry t).
Proof.
  intros H. unfold fetchWithTimeout. apply quiet_bind; [now apply quiet_log|]. intros _.
  apply quiet_try_catch; [apply quiet_fetch|]. intros e.
  destruct (decide _); apply quiet_throw.
Qed.

Lemma quiet_fetchCsrfToken : quiet fetchCsrfToken.
Proof.
  unfold fetchCsrfToken. apply quiet_bind; [apply quiet_getApiBaseUrl|]. intros base.
  apply quiet_try_catch.
  - apply quiet_bind; [now apply quiet_fetchWithTimeout|]. intros r.
    destruct (negb (ok r)); [apply quiet_throw|].
    destruct (truthy _); [|apply quiet_throw].
    apply quiet_bind; [apply quiet_modify; auto|]. intros _.
    apply quiet_bind; [apply quiet_storage_update|]. intros _. apply quiet_ret.
  - intros e. apply quiet_bind; [now apply quiet_log|]. intros _. apply quiet_throw.
Qed.

Lemma quiet_getCsrfToken : quiet getCsrfToken.
Proof.
  unfold getCsrfToken. apply quiet_bind; [intros w; split; reflexivity|]. intros w0.
  destruct (truthy (csrfToken w0)); [apply quiet_ret|].
  apply quiet_bind; [apply quiet_storage_get|]. intros stored.
  destruct (truthy stored); [|apply quiet_fetchCsrfToken].
  apply quiet_bind; [apply quiet_modify; auto|]. intros _. apply quiet_ret.
Qed.

Lemma quiet_clearCsrfToken : quiet clearCsrfToken.
Proof.
  unfold clearCsrfToken. apply quiet_bind; [apply quiet_modify; auto|]. intros _.
  apply quiet_storage_update.
Qed.

Lemma quiet_attach_cookie options h : quiet (attach_cookie options h).
Proof.
  unfold attach_cookie. destruct (default false _); [apply quiet_ret|].
  apply quiet_try_catch.
  - apply quiet_bind.
    + intros w. unfold cookies_getAll. destruct (cookie_jar w); auto.
    + intros [|c cs]; apply quiet_ret.
  - intros e. apply quiet_bind; [now apply quiet_log|]. intros _. apply quiet_ret.
Qed.

Lemma quiet_attach_csrf options h : quiet (attach_csrf options h).
Proof.
  unfold attach_csrf. destruct (_ && _); [|apply quiet_ret].
  apply quiet_try_catch.
  - apply quiet_bind; [apply quiet_getCsrfToken|]. intros t. apply quiet_ret.
  - intros e. apply quiet_bind; [now apply quiet_log|]. intros _. apply quiet_ret.
Qed.

Lemma quiet_compose endpoint options : quiet (compose endpoint options).
Proof.
  unfold compose. apply quiet_bind; [apply quiet_getApiBaseUrl|]. intros base.
  apply quiet_bind; [apply quiet_attach_cookie|]. intros h1.
  apply quiet_bind; [apply quiet_attach_csrf|]. intros h2. apply quiet_ret.
Qed.

Lemma quiet_silent {A} (m : M A) : quiet m -> silent m.
Proof.
  intros H w. destruct (H w) as [H1 H2]. split; [exact H1|]. rewrite H2.
  apply only_lowered_refl.
Qed.

Lemma silent_bind {A B} (m : M A) (k : A -> M B) :
  silent m -> (forall a, silent (k a)) -> silent (m ≫= k).
Proof.
  intros Hm Hk w. unM. specialize (Hm w). destruct (m w) as [[a|e] w1]; simpl in *.
  - destruct (Hk a w1) as [H1 H2]. destruct Hm as [H3 H4].
    split; [congruence | eapply only_lowered_trans; eassumption].
  - exact Hm.
Qed.

Lemma silent_try_catch {A} (m : M A) h :
  silent m -> (forall e, silent (h e)) -> silent (try_catch m h).
Proof.
  intros Hm Hh w. unM. specialize (Hm w). destruct (m w) as [[a|e] w1]; simpl in *.
  - exact Hm.
  - destruct (Hh e w1) as [H1 H2]. destruct Hm as [H3 H4].
    split; [congruence | eapply only_lowered_trans; eassumption].
Qed.

Lemma updateFromHeaders_only_lowered s l r t s' :
  Limiter.updateFromHeaders s l r t = inr s' -> only_lowered s s'.
Proof.
  unfold Limiter.updateFromHeaders. destruct (Limiter.valid_time_value _); [|discriminate].
  intros [= <-]. destruct l as [l|], r as [r|]; try apply only_lowered_refl.
  destruct (Qlt_le_dec _ _); [|apply only_lowered_refl].
  split; [reflexivity|]. simpl. apply Q.le_min_l.
Qed.

Lemma silent_limiter_updateFromHeaders info : silent (limiter_updateFromHeaders info).
Proof.
  intros w. unfold limiter_updateFromHeaders.
  destruct (Limiter.updateFromHeaders _ _ _ _) as [e|s] eqn:E; simpl.
  - split; [reflexivity|apply only_lowered_refl].
  - split; [reflexivity|]. eapply updateFromHeaders_only_lowered; eassumption.
Qed.

Lemma quiet_setRateLimitInfo info : quiet (setRateLimitInfo info).
Proof.
  unfold setRateLimitInfo. apply quiet_try_catch; [apply quiet_storage_update|].
  intros e. apply quiet_bind; [now apply quiet_log|]. intros _. apply quiet_throw.
Qed.

Lemma silent_note_rate_limit r : silent (note_rate_limit r).
Proof.
  unfold note_rate_limit. destruct (parseRateLimitHeaders _); [|apply quiet_silent, quiet_ret].
  apply silent_bind; [apply silent_limiter_updateFromHeaders|]. intros _.
  apply quiet_silent, quiet_try_catch; [apply quiet_setRateLimitInfo|].
  intros e. now apply quiet_log.
Qed.

Lemma handleErrorResponse_throws r :
  exists e, forall A w, @handleErrorResponse A r w = (Throw e, w).
Proof.
  unfold handleErrorResponse. destruct (errorMessage r) as [s|[] s|s];
    repeat match goal with |- context [if ?c then _ else _] => destruct c end;
    eexists; intros A w; reflexivity.
Qed.

Lemma quiet_handleErrorResponse {A} r : quiet (@handleErrorResponse A r).
Proof.
  intros w. destruct (handleErrorResponse_throws r) as [e H]. rewrite H. simpl. auto.
Qed.

Lemma quiet_json r : quiet (json r).
Proof. unfold json. destruct (body r); [apply quiet_throw|apply quiet_ret..]. Qed.

Lemma quiet_classify {A} e : quiet (@classify A e).
Proof.
  unfold classify.
  repeat match goal with |- quiet (if ?c then _ else _) => destruct c end; apply quiet_throw.
Qed.

Lemma attempt_unfold url h options w :
  attempt url h options w =
  after_dispatch options (add_log (LDispatch url (method options) h (req_body options)) w).
Proof. reflexivity. Qed.

Lemma silent_after_dispatch options : silent (after_dispatch options).
Proof.
  unfold after_dispatch. apply silent_try_catch; [|intros e; apply quiet_silent, quiet_classify].
  apply silent_bind.
  { apply quiet_silent, quiet_try_catch; [apply quiet_fetch|]. intros e.
    destruct (decide _); apply quiet_throw. }
  intros r. apply silent_bind; [apply silent_note_rate_limit|]. intros _.
  destruct (_ && _).
  - apply quiet_silent, quiet_bind; [apply quiet_clearCsrfToken|]. intros _. apply quiet_ret.
  - apply quiet_silent, quiet_bind.
    + destruct (negb (ok r)); [apply quiet_handleErrorResponse|apply quiet_ret].
    + intros _. apply quiet_bind; [apply quiet_json|]. intros v. apply quiet_ret.
Qed.

(** One attempt is one network call for the request. *)
Lemma attempt_one_dispatch url h options w :
  dispatches (log (snd (attempt url h options w))) =
    (dispatches (log w) ++ [LDispatch url (method options) h (req_body options)])%list /\
  only_lowered (limiter w) (limiter (snd (attempt url h options w))).
Proof.
  rewrite attempt_unfold.
  destruct (silent_after_dispatch options
              (add_log (LDispatch url (method options) h (req_body options)) w)) as [D L].
  rewrite D, dispatches_add_log. simpl. split; [reflexivity|exact L].
Qed.

(** ** Totality of the composition phase *)

Lemma total_ret {A} (a : A) : total (ret a).
Proof. intros w. now exists a. Qed.
Lemma total_bind {A B} (m : M A) (k : A -> M B) :
  total m -> (forall a, total (k a)) -> total (m ≫= k).
Proof.
  intros Hm Hk w. unM. destruct (Hm w) as [a Ha]. destruct (m w) as [[a'|e] w1]; simpl in *;
    [|discriminate]. apply Hk.
Qed.
Lemma total_try_catch {A} (m : M A) h : (forall e, total (h e)) -> total (try_catch m h).
Proof.
  intros Hh w. unM. destruct (m w) as [[a|e] w1]; simpl; [now exists a|apply Hh].
Qed.

Lemma total_compose endpoint options : total (compose endpoint options).
Proof.
  unfold compose. apply total_bind.
  { unfold getApiBaseUrl. apply total_try_catch. intros e.
    apply total_bind; [intros w; now exists tt|]. intros _. apply total_ret. }
  intros base. apply total_bind.
  { unfold attach_cookie. destruct (default false _); [apply total_ret|].
    apply total_try_catch. intros e.
    apply total_bind; [intros w; now exists tt|]. intros _. apply total_ret. }
  intros h1. apply total_bind; [|intros h2; apply total_ret].
  unfold attach_csrf. destruct (_ && _); [|apply total_ret].
  apply total_try_catch. intros e.
  apply total_bind; [intros w; now exists tt|]. intros _. apply total_ret.
Qed.

(** ** The shape of [apiRequest] *)

Lemma apiRequest_body_unfold again endpoint options w :
  exists url h w1,
    compose endpoint options w = (Ok (url, h), w1) /\
    apiRequest_body again endpoint options w =
      match attempt url h options w1 with
      | (Ok (Done data), w2) => (Ok data, w2)
      | (Ok Retry, w2) => again endpoint (without_retry options) w2
      | (Throw e, w2) => (Throw e, w2)
      end.
Proof.
  destruct (total_compose endpoint options w) as [[url h] E].
  destruct (compose endpoint options w) as [c w1] eqn:C. simpl in E. subst c.
  exists url, h, w1. split; [reflexivity|].
  unfold apiRequest_body. unM. rewrite C. simpl.
  destruct (attempt url h options w1) as [[[v|]|e] w2]; reflexivity.
Qed.

Lemma classify_caught {A} e w : @classify A e w = (Throw (caught e), w).
Proof.
  unfold classify, caught.
  repeat match goal with |- context [if ?c then _ else _] => destruct c end; reflexivity.
Qed.

Lemma classify_throws {A} e w : exists e', @classify A e w = (Throw e', w).
Proof.
  unfold classify.
  repeat match goal with |- context [if ?c then _ else _] => destruct c end; eexists; reflexivity.
Qed.

Lemma note_rate_limit_ok r w :
  rate_limit_in_order r = true ->
  exists w', note_rate_limit r w = (Ok tt, w') /\
             network w' = network w /\ csrfToken w' = csrfToken w /\
             (healthy w = true -> healthy w' = true).
Proof.
  unfold rate_limit_in_order, note_rate_limit.
  destruct (parseRateLimitHeaders (headers r)) as [info|]; [|intros _; exists w; auto].
  intros V. unM. unfold limiter_updateFromHeaders, Limiter.updateFromHeaders. rewrite V.
  unfold setRateLimitInfo, storage_update, storage_access, logger_warn, logger_error. unM.
  simpl. unfold healthy. destruct (faults w) as [|[e|] fs] eqn:F; simpl;
    eexists; (split; [reflexivity|]); simpl; rewrite ?F;
    (split; [reflexivity|split; [reflexivity|]]); simpl; intros; auto; discriminate.
Qed.

(** With the retry disabled, or on any status but 401, an attempt ends the
    call. *)
Lemma attempt_answer url h options w r rest :
  network w = Responds r :: rest ->
  rate_limit_in_order r = true ->
  (status r =? HTTP_STATUS_UNAUTHORIZED) && default true (retryOn401 options) = false ->
  (ok r = true ->
     fst (attempt url h options w) =
       match body r with
       | BodyUnreadable e => Throw (caught e)
       | BodyNull => Ok (Done "null")
       | BodyJson _ _ v => Ok (Done v)
       end) /\
  (ok r = false ->
     forall A e w0 w', @handleErrorResponse A r w0 = (Throw e, w') ->
                       fst (attempt url h options w) = Throw (caught e)).
Proof.
  intros N V F. rewrite attempt_unfold. unfold after_dispatch. unM.
  unfold fetch. simpl network. rewrite N.
  set (w0 := set_network rest _).
  destruct (note_rate_limit_ok r w0 V) as (w1 & E & _). rewrite E, F.
  split; intros K; rewrite K; cbv beta iota delta [negb].
  - unfold json. destruct (body r); simpl; rewrite ?classify_caught; reflexivity.
  - intros A e wa wb Ha. destruct (handleErrorResponse_throws r) as (e' & H).
    rewrite H in Ha. injection Ha as <- _. rewrite H. simpl. now rewrite classify_caught.
Qed.


Lemma attempt_never_retries url h options w :
  default true (retryOn401 options) = false ->
  fst (attempt url h options w) <> Ok Retry.
Proof.
  intros R. rewrite attempt_unfold. unfold after_dispatch. unM.
  set (w0 := add_log _ w).
  destruct (fetch w0) as [[r|e] w1].
  2:{ destruct (decide _);
        match goal with |- context [classify ?x ?y] =>
          destruct (classify_throws (A:=Completion) x y) as [e' ->] end; discriminate. }
  destruct (note_rate_limit r w1) as [[[]|e] w2];
    [|destruct (classify_throws (A:=Completion) e w2) as [e' ->]; discriminate].
  rewrite R, andb_false_r.
  destruct (negb (ok r)).
  - destruct (handleErrorResponse_throws r) as (e & H). rewrite H.
    destruct (classify_throws (A:=Completion) e w2) as [e' ->]. discriminate.
  - unfold json. destruct (body r); simpl; rewrite ?classify_caught; discriminate.
Qed.

(** A call with [retryOn401: false] never reaches the recursive call. *)
Lemma apiRequest_final_never_recurs again again' endpoint options w :
  default true (retryOn401 options) = false ->
  apiRequest_body again endpoint options w = apiRequest_body again' endpoint options w.
Proof.
  intros R.
  destruct (apiRequest_body_unfold again endpoint options w) as (url & h & w1 & C & ->).
  destruct (apiRequest_body_unfold again' endpoint options w) as (url' & h' & w1' & C' & ->).
  rewrite C in C'. injection C' as <- <- <-.
  pose proof (attempt_never_retries url h options w1 R) as N.
  destruct (attempt url h options w1) as [[[v|]|e] w2]; simpl in N; congruence.
Qed.

(** ** Counting the network calls *)

Lemma apiRequest_final_dispatches endpoint options w :
  ndispatches (snd (apiRequest_final endpoint options w)) = S (ndispatches w) /\
  only_lowered (limiter w) (limiter (snd (apiRequest_final endpoint options w))).
Proof.
  unfold apiRequest_final.
  destruct (apiRequest_body_unfold (fun _ _ => throw unreachable) endpoint options w)
    as (url & h & w1 & C & ->).
  destruct (quiet_compose endpoint options w) as [Q1 Q2]. rewrite C in Q1, Q2. simpl in Q1, Q2.
  destruct (attempt_one_dispatch url h options w1) as [D L].
  unfold ndispatches. rewrite <- Q1, <- Q2.
  destruct (attempt url h options w1) as [[[v|]|e] w2]; simpl in *;
    rewrite D, length_app; simpl; split; try lia; exact L.
Qed.

Lemma apiRequest_dispatches endpoint options w :
  (ndispatches (snd (apiRequest endpoint options w)) = S (ndispatches w) \/
   ndispatches (snd (apiRequest endpoint options w)) = S (S (ndispatches w))) /\
  only_lowered (limiter w) (limiter (snd (apiRequest endpoint options w))).
Proof.
  unfold apiRequest.
  destruct (apiRequest_body_unfold apiRequest_final endpoint options w)
    as (url & h & w1 & C & ->).
  destruct (quiet_compose endpoint options w) as [Q1 Q2]. rewrite C in Q1, Q2. simpl in Q1, Q2.
  destruct (attempt_one_dispatch url h options w1) as [D L].
  assert (N1 : ndispatches (snd (attempt url h options w1)) = S (ndispatches w)).
  { unfold ndispatches. rewrite D, length_app, Q1. simpl. lia. }
  rewrite Q2 in L.
  destruct (attempt url h options w1) as [[[v|]|e] w2]; simpl in *; try (split; [left; exact N1|exact L]).
  destruct (apiRequest_final_dispatches endpoint (without_retry options) w2) as [N2 L2].
  split; [right; lia|]. eapply only_lowered_trans; eassumption.
Qed.

Lemma attach_cookie_csrf_header options h w h' :
  fst (attach_cookie options h w) = Ok h' ->
  h' !! "X-CSRF-Token" = h !! "X-CSRF-Token".
Proof.
  unfold attach_cookie. destruct (default false _); [now intros [= <-]|].
  unM. unfold cookies_getAll, logger_warn. unM.
  destruct (cookie_jar w) as [e|[|c cs]]; simpl; intros [= <-]; try reflexivity.
  now rewrite lookup_insert_ne.
Qed.

Lemma base_headers_csrf options :
  base_headers options !! "X-CSRF-Token" = req_headers options !! "X-CSRF-Token".
Proof.
  unfold base_headers. rewrite lookup_union.
  rewrite lookup_singleton_ne by discriminate.
  now destruct (req_headers options !! "X-CSRF-Token").
Qed.


Lemma note_rate_limit_in_order r w :
  rate_limit_in_order r = true ->
  exists w', note_rate_limit r w = (Ok tt, w') /\
             network w' = network w /\ csrfToken w' = csrfToken w /\
             csrf_token (store w') = csrf_token (store w) /\
             faults w' = match parseRateLimitHeaders (headers r) with
                         | Some _ => tail (faults w)
                         | None => faults w
                         end.
Proof.
  unfold rate_limit_in_order, note_rate_limit.
  destruct (parseRateLimitHeaders (headers r)) as [info|]; [|intros _; exists w; auto].
  intros V. unM. unfold limiter_updateFromHeaders, Limiter.updateFromHeaders. rewrite V.
  unfold setRateLimitInfo, storage_update, storage_access, logger_warn, logger_error. unM.
  simpl. destruct (faults w) as [|[e|] fs] eqn:F; simpl;
    eexists; (split; [reflexivity|]); simpl; rewrite ?F; auto.
Qed.

(** A 401 with the retry enabled: the token is dropped from memory, and the
    attempt ends as the storage call that removes it from storage does. *)
Lemma attempt_401 url h options w r rest :
  network w = Responds r :: rest ->
  rate_limit_in_order r = true ->
  status r = HTTP_STATUS_UNAUTHORIZED ->
  default true (retryOn401 options) = true ->
  exists w2,
    csrfToken w2 = None /\ network w2 = rest /\
    match removal_fault r w with
    | None => attempt url h options w = (Ok Retry, w2) /\ csrf_token (store w2) = None
    | Some e => attempt url h options w = (Throw (caught e), w2) /\
                csrf_token (store w2) = csrf_token (store w)
    end.
Proof.
  intros N V S R. rewrite attempt_unfold. unfold after_dispatch. unM.
  unfold fetch. simpl network. rewrite N.
  set (w0 := set_network rest _).
  destruct (note_rate_limit_in_order r w0 V) as (w1 & E & Nw & _ & St & Fl). rewrite E, S, R.
  simpl. unfold clearCsrfToken, storage_update, storage_access. unM. simpl.
  unfold removal_fault. change (faults w) with (faults w0). rewrite <- Fl.
  destruct (faults w1) as [|[e|] fs]; simpl; rewrite ?classify_caught;
    eexists; (split; [|split; [|split; [reflexivity|]]]); simpl; auto.
Qed.

Lemma apiRequest_first_attempt endpoint options w url h w1 :
  compose endpoint options w = (Ok (url, h), w1) ->
  apiRequest endpoint options w =
    match attempt url h options w1 with
    | (Ok (Done data), w2) => (Ok data, w2)
    | (Ok Retry, w2) => apiRequest_final endpoint (without_retry options) w2
    | (Throw e, w2) => (Throw e, w2)
    end.
Proof.
  intros C. unfold apiRequest.
  destruct (apiRequest_body_unfold apiRequest_final endpoint options w)
    as (url' & h' & w1' & C' & ->).
  rewrite C in C'. now injection C' as <- <- <-.
Qed.

(** The call that has sent one request and is not retried. *)
Lemma one_request endpoint options w url h w1 :
  compose endpoint options w = (Ok (url, h), w1) ->
  fst (attempt url h options w1) <> Ok Retry ->
  ndispatches (snd (apiRequest endpoint options w)) = (ndispatches w + 1)%nat.
Proof.
  intros C NR. rewrite (apiRequest_first_attempt _ _ _ _ _ _ C).
  destruct (quiet_compose endpoint options w) as [Q _]. rewrite C in Q. simpl in Q.
  destruct (attempt_one_dispatch url h options w1) as [D _].
  destruct (attempt url h options w1) as [[[v|]|e] w2]; simpl in *;
    try (unfold ndispatches; rewrite D, length_app, Q; simpl; lia).
  now elim NR.
Qed.

(** An attempt whose [fetch] rejects. *)
Lemma attempt_fetch_fails url h options w err rest :
  network w = Fails err :: rest ->
  attempt url h options w =
    classify (if decide (cls err = AbortError)
              then new_Error ("Request timed out after " ++ pretty REQUEST_TIMEOUT_MS ++ "ms")
              else err)
             (answered url options h rest w).
Proof.
  intros N. rewrite attempt_unfold. unfold after_dispatch. unM.
  unfold fetch. simpl network. rewrite N. destruct (decide _); reflexivity.
Qed.


(** An attempt asks for the retry only on a 401 with the retry enabled. *)
Lemma attempt_Retry_inv url h options w :
  fst (attempt url h options w) = Ok Retry ->
  exists r rest, network w = Responds r :: rest /\ status r = HTTP_STATUS_UNAUTHORIZED /\
                 default true (retryOn401 options) = true.
Proof.
  rewrite attempt_unfold. unfold after_dispatch. unM.
  unfold fetch. simpl network.
  destruct (network w) as [|[r|e] rest] eqn:N.
  1,3: destruct (decide _); rewrite classify_caught; discriminate.
  set (w0 := set_network rest _).
  destruct (note_rate_limit r w0) as [[[]|e] w1]; [|rewrite classify_caught; discriminate].
  destruct ((status r =? HTTP_STATUS_UNAUTHORIZED) && default true (retryOn401 options)) eqn:F.
  - intros _. apply andb_true_iff in F as [F1 F2]. apply Z.eqb_eq in F1. eauto.
  - destruct (negb (ok r)).
    + destruct (handleErrorResponse_throws r) as (e & H). rewrite H.
      simpl. rewrite classify_caught. discriminate.
    + unfold json. destruct (body r); simpl; rewrite ?classify_caught; discriminate.
Qed.

End ApiFacts.



(** ** Concrete worlds *)

Example retry_then_success :
  fst (apiRequest API_ENDPOINTS_PROJECTS get_options world_401_200) = Ok "[]" /\
  ndispatches (snd (apiRequest API_ENDPOINTS_PROJECTS get_options world_401_200)) = 2%nat.
Proof. split; vm_compute; reflexivity. Qed.

Example retry_then_failure :
  fst (apiRequest API_ENDPOINTS_PROJECTS get_options world_401_401) =
    Throw (new_AuthenticationError "Token has expired") /\
  ndispatches (snd (apiRequest API_ENDPOINTS_PROJECTS get_options world_401_401)) = 2%nat.
Proof. split; vm_compute; reflexivity. Qed.





(** C10 fails as stated in its last clause: when the answer to the request
    sent without the token is a 401 and the retry is enabled, the request
    is sent a second time, here with a token that the second attempt to
    get one obtained, and the caller receives the answer to the second
    request. *)
Lemma tokenless_request_can_be_retried :
  fst (getCsrfToken world_csrf_down_then_401) = Throw failed_to_fetch /\
  fst (apiRequest API_ENDPOINTS_PROJECTS post_options world_csrf_down_then_401) = Ok "[]" /\
  dispatches (log (snd (apiRequest API_ENDPOINTS_PROJECTS post_options
                          world_csrf_down_then_401))) =
    [ LDispatch projects_url (Some "POST") get_headers (Some "{}");
      LDispatch projects_url (Some "POST") (<[ "X-CSRF-Token" := "tok" ]> get_headers)
                (Some "{}") ] /\
  get_headers !! "X-CSRF-Token" = None.
Proof. repeat split; vm_compute; reflexivity. Qed.

(** C10, as amended.  In an authenticated request with a method other than
    GET, if [getCsrfToken] throws, the composition of the request still
    succeeds: a warning is logged, the headers are those built before,
    without an X-CSRF-Token unless the caller supplied one, and the request
    goes out with these headers.  Unless its answer is a 401 with the retry
    enabled, no other request is sent and what the caller gets is what that
    attempt gives.  On such a 401 (its rate-limit headers in order, the
    storage call that removes the token not rejecting) the call goes on as
    the call with [retryOn401: false], the token gone, and the caller gets
    the result of that second call. *)
Theorem csrf_failure_does_not_abort endpoint options w base h1 w1 err w1' :
  default false (skipAuth options) = false ->
  state_mutating (method options) = true ->
  before_csrf options w = (Ok (base, h1), w1) ->
  getCsrfToken w1 = (Throw err, w1') ->
  let sent := add_log (LWarn csrf_warning) w1' in
  compose endpoint options w = (Ok (base ++ endpoint, h1), sent) /\
  (req_headers options !! "X-CSRF-Token" = None -> h1 !! "X-CSRF-Token" = None) /\
  dispatches (log (snd (attempt (base ++ endpoint) h1 options sent))) =
    (dispatches (log w) ++
     [LDispatch (base ++ endpoint) (method options) h1 (req_body options)])%list /\
  ((forall r rest, network w1' = Responds r :: rest ->
                   status r = HTTP_STATUS_UNAUTHORIZED ->
                   default true (retryOn401 options) = false) ->
   fst (attempt (base ++ endpoint) h1 options sent) <> Ok Retry /\
   (forall data w3, attempt (base ++ endpoint) h1 options sent = (Ok (Done data), w3) ->
                    apiRequest endpoint options w = (Ok data, w3)) /\
   (forall e w3, attempt (base ++ endpoint) h1 options sent = (Throw e, w3) ->
                 apiRequest endpoint options w = (Throw e, w3)) /\
   dispatches (log (snd (apiRequest endpoint options w))) =
     (dispatches (log w) ++
      [LDispatch (base ++ endpoint) (method options) h1 (req_body options)])%list) /\
  (forall r rest, network w1' = Responds r :: rest ->
                  status r = HTTP_STATUS_UNAUTHORIZED ->
                  default true (retryOn401 options) = true ->
                  rate_limit_in_order r = true -> removal_fault r sent = None ->
     exists w2,
       attempt (base ++ endpoint) h1 options sent = (Ok Retry, w2) /\
       csrfToken w2 = None /\ csrf_token (store w2) = None /\
       apiRequest endpoint options w = apiRequest_final endpoint (without_retry options) w2).
Proof.
  intros Sk Mu B G sent.
  assert (C : compose endpoint options w = (Ok (base ++ endpoint, h1), sent)).
  { unfold compose, before_csrf in *.
    unfold mbind, mret, M_bind, M_ret, bind, ret in *.
    destruct (getApiBaseUrl w) as [[b|e] wa]; [|discriminate].
    destruct (attach_cookie options (base_headers options) wa) as [[hh|e] wb]; [|discriminate].
    injection B as -> -> ->.
    unfold attach_csrf. rewrite Sk, Mu. cbv beta iota delta [negb andb].
    unfold try_catch, mbind, M_bind, bind. rewrite G. reflexivity. }
  pose proof (apiRequest_first_attempt _ _ _ _ _ _ C) as E.
  assert (D : dispatches (log (snd (attempt (base ++ endpoint) h1 options sent))) =
              (dispatches (log w) ++
               [LDispatch (base ++ endpoint) (method options) h1 (req_body options)])%list).
  { destruct (attempt_one_dispatch (base ++ endpoint) h1 options sent) as [D _].
    rewrite D. f_equal.
    destruct (quiet_compose endpoint options w) as [Q _]. rewrite C in Q. exact Q. }
  split; [exact C|]. split; [|split; [exact D|split]].
  - intros NoTok. unfold before_csrf in B.
    unfold mbind, mret, M_bind, M_ret, bind, ret in B.
    destruct (getApiBaseUrl w) as [[b|e] wa]; [|discriminate].
    destruct (attach_cookie options (base_headers options) wa) as [[hh|e] wb] eqn:AC;
      [|discriminate].
    injection B as -> -> ->.
    rewrite (attach_cookie_csrf_header options (base_headers options) wa h1)
      by (now rewrite AC).
    now rewrite base_headers_csrf.
  - intros No.
    assert (NR : fst (attempt (base ++ endpoint) h1 options sent) <> Ok Retry).
    { intros A. apply attempt_Retry_inv in A as (r & rest & N & S & R).
      rewrite (No r rest N S) in R. discriminate. }
    split; [exact NR|]. rewrite E.
    destruct (attempt (base ++ endpoint) h1 options sent) as [[[v|]|e] w2];
      simpl in NR, D |- *; try (now elim NR);
      (split; [intros ? ? [= <- <-] || intros ? ? [=]|split; [intros ? ? [= <- <-] || intros ? ? [=]|exact D]]);
      reflexivity.
  - intros r rest N S R V F.
    destruct (attempt_401 (base ++ endpoint) h1 options sent r rest N V S R)
      as (w2 & T1 & _ & A).
    rewrite F in A. destruct A as [A T2].
    exists w2. split; [exact A|]. split; [exact T1|]. split; [exact T2|].
    rewrite E, A. reflexivity.
Qed.

(** C10 at a POST while the token endpoint is unreachable. *)
Lemma csrf_failure_does_not_abort_witness :
  before_csrf post_options world_csrf_down =
    (Ok (DEFAULT_API_BASE_URL, get_headers), world_csrf_down) /\
  getCsrfToken world_csrf_down = (Throw failed_to_fetch, world_csrf_failed) /\
  get_headers !! "X-CSRF-Token" = None /\
  fst (apiRequest API_ENDPOINTS_PROJECTS post_options world_csrf_down) = Ok "[]".
Proof.
  assert (B : before_csrf post_options world_csrf_down =
              (Ok (DEFAULT_API_BASE_URL, get_headers), world_csrf_down))
    by (vm_compute; reflexivity).
  assert (G : getCsrfToken world_csrf_down = (Throw failed_to_fetch, world_csrf_failed))
    by (vm_compute; reflexivity).
  split; [exact B|]. split; [exact G|].
  destruct (csrf_failure_does_not_abort API_ENDPOINTS_PROJECTS post_options world_csrf_down
              _ _ _ _ _ eq_refl eq_refl B G) as (_ & H & _ & E & _).
  split; [apply H; reflexivity|].
  assert (No : forall r rest, network world_csrf_failed = Responds r :: rest ->
                 status r = HTTP_STATUS_UNAUTHORIZED ->
                 default true (retryOn401 post_options) = false).
  { intros r rest N S. vm_compute in N. injection N as <- _. discriminate. }
  destruct (E No) as (_ & E1 & _).
  rewrite (E1 "[]" (snd (attempt (DEFAULT_API_BASE_URL ++ API_ENDPOINTS_PROJECTS) get_headers
                           post_options (add_log (LWarn csrf_warning) world_csrf_failed))));
    [reflexivity|vm_compute; reflexivity].
Defined.


Section ClientFacts.

Lemma call_dedupe r c :
  call r c = (fst (Dedup.dedupe (dedup c) (op_key r) (supplier r)),
              mkClient (world c) (snd (Dedup.dedupe (dedup c) (op_key r) (supplier r)))).
Proof. unfold call. now destruct (Dedup.dedupe _ _ _). Qed.

Lemma client_step_dedup c e c' :
  client_step c e = Some c' ->
  exists de, Dedup.step (dedup c) de = Some (dedup c') /\
             (forall p, Dedup.leaves_unsettled p de = keeps_waiting p e) /\
             (forall k, calls k [de] = calls_of k [e]).
Proof.
  destruct e as [r|q]; simpl.
  - intros [= <-]. exists (Dedup.EDedupe (op_key r) (supplier r)).
    rewrite call_dedupe. simpl. split; [reflexivity|]. split; intros; [reflexivity|].
    unfold calls, calls_of. simpl. now destruct (_ =? _)%string.
  - unfold finish. destruct (Dedup.inflight (dedup c) !! q) as [[k [n|endpoint options]]|] eqn:I;
      try discriminate.
    destruct (apiRequest endpoint options (world c)) as [res w].
    destruct (Dedup.settle (dedup c) q (settlement id res)) as [y|] eqn:S; [|discriminate].
    intros [= <-]. exists (Dedup.ESettle q (settlement id res)). simpl.
    split; [exact S|]. split; intros; reflexivity.
Qed.

Lemma calls_of_cons k e evs : calls_of k (e :: evs) = (calls_of k [e] + calls_of k evs)%nat.
Proof.
  unfold calls_of. simpl. destruct e; simpl; try reflexivity. now destruct (_ =? _)%string.
Qed.

Lemma client_run_window k p f evs : forall c c',
  registered k p f (dedup c) ->
  forallb (keeps_waiting p) evs = true ->
  client_run c evs = Some c' ->
  registered k p f (dedup c') /\
  List.filter (key_is k) (Dedup.invoked (dedup c')) =
    List.filter (key_is k) (Dedup.invoked (dedup c)) /\
  List.filter (key_is k) (Dedup.returned (dedup c')) =
    (List.filter (key_is k) (Dedup.returned (dedup c)) ++
     replicate (calls_of k evs) (k, p))%list.
Proof.
  induction evs as [|e evs IH]; simpl; intros c c' R U S.
  - injection S as <-. rewrite app_nil_r. auto.
  - apply andb_true_iff in U as [U1 U2].
    destruct (client_step c e) as [c1|] eqn:E; [|discriminate].
    destruct (client_step_dedup _ _ _ E) as (de & D & L & K).
    rewrite <- L in U1.
    destruct (step_window _ _ _ _ _ _ R U1 D) as (R1 & I1 & T1).
    destruct (IH _ _ R1 U2 S) as (R2 & I2 & T2).
    split; [exact R2|]. split; [congruence|].
    rewrite T2, T1, K, (calls_of_cons k e evs), replicate_add, app_assoc. reflexivity.
Qed.

End ClientFacts.

(** C1, as amended.  Each read operation hands [dedupe] its key and the
    supplier [() => apiRequest(endpoint, { method: 'GET' })].  Calls made
    while the first call's request is running start no second request and
    get the promise of the first; when the request ends, all of them observe
    its result.  The request is one run of [apiRequest], one network call
    or two, and the rate limiter takes no part in it: nothing is queued or
    counted, and its token count can only have been lowered by the headers
    of the responses. *)
Theorem reads_are_deduplicated_not_throttled r c evs c' :
  is_read_operation r ->
  Dedup.wf (dedup c) -> Dedup.coherent (dedup c) ->
  Dedup.pending (Dedup.dd (dedup c)) !! op_key r = None ->
  forallb (keeps_waiting (fst (call r c))) evs = true ->
  client_run (snd (call r c)) evs = Some c' ->
  supplier r = ApiRequest (op_endpoint r) get_options /\
  List.filter (key_is (op_key r)) (Dedup.invoked (dedup c')) =
    (List.filter (key_is (op_key r)) (Dedup.invoked (dedup c)) ++
     [(op_key r, ApiRequest (op_endpoint r) get_options)])%list /\
  List.filter (key_is (op_key r)) (Dedup.returned (dedup c')) =
    (List.filter (key_is (op_key r)) (Dedup.returned (dedup c)) ++
     replicate (1 + calls_of (op_key r) evs) (op_key r, fst (call r c)))%list /\
  exists c'',
    finish (fst (call r c)) c' = Some c'' /\
    world c'' = snd (apiRequest (op_endpoint r) get_options (world c')) /\
    Dedup.observe (dedup c'') (fst (call r c)) =
      Some (settlement id (fst (apiRequest (op_endpoint r) get_options (world c')))) /\
    (ndispatches (world c'') = S (ndispatches (world c')) \/
     ndispatches (world c'') = S (S (ndispatches (world c')))) /\
    only_lowered (limiter (world c')) (limiter (world c'')).
Proof.
  intros _ W C P U R. split; [reflexivity|].
  assert (R0 : registered (op_key r) (Dedup.next (dedup c)) (supplier r)
                 (snd (Dedup.dedupe (dedup c) (op_key r) (supplier r)))).
  { split; [eapply (wf_step (dedup c) (Dedup.EDedupe (op_key r) (supplier r))); eauto|].
    split; [eapply (coherent_step (dedup c) (Dedup.EDedupe (op_key r) (supplier r)));
            eauto; discriminate|].
    rewrite (dedupe_miss _ _ _ P). simpl. split; apply lookup_insert_eq. }
  rewrite call_dedupe in U, R |- *.
  rewrite (dedupe_miss _ _ _ P) in U, R, R0 |- *. simpl fst in *. simpl snd in *.
  destruct (client_run_window _ _ _ evs (mkClient (world c) _) c' R0 U R) as ((W' & C' & P' & I') & Inv & Ret).
  simpl in Inv, Ret.
  rewrite filter_key_app, key_is_same in Inv. rewrite filter_key_app, key_is_same in Ret.
  split; [exact Inv|]. split; [rewrite Ret, <- app_assoc; reflexivity|].
  unfold finish. rewrite I'. unfold supplier.
  destruct (apiRequest (op_endpoint r) get_options (world c')) as [res w'] eqn:A.
  unfold Dedup.settle. rewrite I'. eexists. split; [reflexivity|]. simpl.
  split; [reflexivity|]. split; [unfold Dedup.observe; simpl; apply lookup_insert_eq|].
  pose proof (apiRequest_dispatches (op_endpoint r) get_options (world c')) as [D L].
  rewrite A in D, L. simpl in D, L. split; assumption.
Qed.

(** C1 fails as stated: after a response that reports the quota as used up
    the bucket holds no token, and the next read goes out at once; the
    limiter has admitted nothing. *)
Lemma reads_bypass_the_rate_limiter :
  client_run client_0 first_read = Some (client_after first_read) /\
  (Limiter.tokens (limiter (world (client_after first_read))) < 1)%Q /\
  client_run (client_after first_read) second_read =
    Some (client_after (first_read ++ second_read)) /\
  ndispatches (world (client_after (first_read ++ second_read))) =
    S (ndispatches (world (client_after first_read))) /\
  Limiter.totalRequests (limiter (world (client_after (first_read ++ second_read)))) =
    Limiter.totalRequests (limiter (world (client_after first_read))) /\
  ~ passes_admission (world (client_after first_read))
                             (world (client_after (first_read ++ second_read))).
Proof.
  split; [vm_compute; reflexivity|]. split; [vm_compute; reflexivity|].
  split; [vm_compute; reflexivity|]. split; [vm_compute; reflexivity|].
  split; [vm_compute; reflexivity|].
  unfold passes_admission. vm_compute. intros H. apply H. reflexivity.
Qed.

(** C1 at three reads, two of them of the project list. *)
Lemma reads_are_deduplicated_not_throttled_witness :
  client_run (snd (call getProjects client_0)) three_reads =
    Some (client_after (CCall getProjects :: three_reads)) /\
  List.filter (key_is "projects:list")
              (Dedup.invoked (dedup (client_after (CCall getProjects :: three_reads)))) =
    [("projects:list", ApiRequest API_ENDPOINTS_PROJECTS get_options)] /\
  List.filter (key_is "projects:list")
              (Dedup.returned (dedup (client_after (CCall getProjects :: three_reads)))) =
    replicate 3 ("projects:list", 0%nat).
Proof.
  assert (R : client_run (snd (call getProjects client_0)) three_reads =
              Some (client_after (CCall getProjects :: three_reads)))
    by (vm_compute; reflexivity).
  split; [exact R|].
  destruct (reads_are_deduplicated_not_throttled getProjects client_0 three_reads _
              read_getProjects wf_empty coherent_empty eq_refl eq_refl R) as (_ & I & T & _).
  split; [exact I | exact T].
Defined.

(** * Further properties of the API client *)

Section ApiErrors.

Lemma classify_ExtensionError {A} e w :
  exists e', @classify A e w = (Throw e', w) /\ instanceof_ExtensionError e' = true.
Proof.
  unfold classify. destruct (instanceof_ExtensionError e) eqn:I; [eauto|].
  repeat match goal with |- context [if ?c then _ else _] => destruct c end; eauto.
Qed.

Lemma attempt_throws_ExtensionError url h options w e :
  fst (attempt url h options w) = Throw e -> instanceof_ExtensionError e = true.
Proof.
  unfold attempt. unfold try_catch at 1.
  match goal with |- context [match ?m with _ => _ end] => destruct m as [[c|e0] w2] end.
  - discriminate.
  - destruct (classify_ExtensionError (A:=Completion) e0 w2) as (e' & -> & I).
    now intros [= <-].
Qed.

Lemma apiRequest_final_throws_ExtensionError endpoint options w e :
  default true (retryOn401 options) = false ->
  fst (apiRequest_final endpoint options w) = Throw e -> instanceof_ExtensionError e = true.
Proof.
  intros R. unfold apiRequest_final.
  destruct (apiRequest_body_unfold (fun _ _ => throw unreachable) endpoint options w)
    as (url & h & w1 & C & ->).
  pose proof (attempt_never_retries url h options w1 R) as N.
  pose proof (attempt_throws_ExtensionError url h options w1) as T.
  destruct (attempt url h options w1) as [[[v|]|e0] w2]; simpl in *; try congruence.
  intros [= <-]. now apply T.
Qed.

End ApiErrors.

(** X12.  Whatever goes wrong, [apiRequest] rejects with an [ExtensionError] (or
    one of its subclasses): no other thrown value reaches its caller. *)
Theorem apiRequest_rejects_with_ExtensionError_only endpoint options w e :
  fst (apiRequest endpoint options w) = Throw e ->
  instanceof_ExtensionError e = true.
Proof.
  unfold apiRequest.
  destruct (apiRequest_body_unfold apiRequest_final endpoint options w)
    as (url & h & w1 & C & ->).
  pose proof (attempt_throws_ExtensionError url h options w1) as T.
  destruct (attempt url h options w1) as [[[v|]|e0] w2]; simpl in *.
  - discriminate.
  - now apply apiRequest_final_throws_ExtensionError.
  - intros [= <-]. now apply T.
Qed.

Lemma apiRequest_rejects_with_ExtensionError_only_witness :
  exists e, fst (apiRequest API_ENDPOINTS_PROJECTS get_options (fresh_world [])) = Throw e /\
            instanceof_ExtensionError e = true.
Proof.
  eexists. split; [vm_compute; reflexivity|].
  eapply (apiRequest_rejects_with_ExtensionError_only API_ENDPOINTS_PROJECTS get_options
            (fresh_world [])).
  vm_compute. reflexivity.
Defined.


(** X13.  A request that gets no answer is not retried and rejects with a
    [NetworkError]: with the time-out message when [fetchWithTimeout] gave
    up after [REQUEST_TIMEOUT_MS], with the connection message when [fetch]
    failed with a [TypeError] that mentions [fetch]. *)
Theorem unanswered_request_rejects_with_NetworkError endpoint options w url h w1 err rest :
  compose endpoint options w = (Ok (url, h), w1) ->
  network w1 = Fails err :: rest ->
  (cls err = AbortError ->
   apiRequest endpoint options w =
     (Throw (new_NetworkError REQUEST_TIMEOUT), answered url options h rest w1)) /\
  (cls err = TypeError -> includes "fetch" (message err) = true ->
   includes "timed out" (message err) = false ->
   apiRequest endpoint options w =
     (Throw (new_NetworkError NETWORK_ERROR), answered url options h rest w1)).
Proof.
  intros C N. rewrite (apiRequest_first_attempt _ _ _ _ _ _ C).
  rewrite (attempt_fetch_fails _ _ _ _ _ _ N). split.
  - intros A. destruct (decide _); [|contradiction]. reflexivity.
  - intros T F O. destruct (decide _); [congruence|].
    unfold classify, instanceof_ExtensionError, instanceof_TypeError. rewrite T, O, F.
    reflexivity.
Qed.

Lemma unanswered_request_rejects_with_NetworkError_witness :
  apiRequest API_ENDPOINTS_PROJECTS get_options (fresh_world [Fails aborted]) =
    (Throw (new_NetworkError REQUEST_TIMEOUT),
     answered projects_url get_options get_headers [] (fresh_world [Fails aborted])) /\
  apiRequest API_ENDPOINTS_PROJECTS get_options (fresh_world [Fails failed_to_fetch]) =
    (Throw (new_NetworkError NETWORK_ERROR),
     answered projects_url get_options get_headers [] (fresh_world [Fails failed_to_fetch])).
Proof.
  split.
  - apply (unanswered_request_rejects_with_NetworkError API_ENDPOINTS_PROJECTS get_options
             (fresh_world [Fails aborted]) projects_url get_headers
             (fresh_world [Fails aborted]) aborted []); reflexivity.
  - apply (unanswered_request_rejects_with_NetworkError API_ENDPOINTS_PROJECTS get_options
             (fresh_world [Fails failed_to_fetch]) projects_url get_headers
             (fresh_world [Fails failed_to_fetch]) failed_to_fetch []); reflexivity.
Defined.

(** X14.  An answer whose status is an error, other than a 401 with the retry
    enabled and other than 429, is turned into an error by its status.  403
    gives an [AuthenticationError] (whose [statusCode] is 401), with the
    e-mail verification message when the server's message is a string that
    contains [email] or an array that has [email] among its elements, and
    with the server's message otherwise; but when the server's message is a
    number, [true] or an object, the call of [includes] throws and the
    caller gets the UNKNOWN_ERROR error.  400 gives a [ValidationError]
    with the server's message; any other status gives an [ExtensionError]
    with code [API_ERROR], that status, and the server's message or, if it
    is the empty string, the default one.  The server's message is the
    [error] field of the body if it is truthy, else its [message] field if
    that is truthy, else the status text. *)
Theorem error_status_decides_the_error endpoint options w url h w1 r rest :
  compose endpoint options w = (Ok (url, h), w1) ->
  network w1 = Responds r :: rest ->
  rate_limit_in_order r = true ->
  ok r = false ->
  (status r =? HTTP_STATUS_UNAUTHORIZED) && default true (retryOn401 options) = false ->
  (status r = 403 ->
   fst (apiRequest endpoint options w) =
     Throw match errorMessage r with
           | FString s =>
               new_AuthenticationError (if includes "email" s then EMAIL_NOT_VERIFIED else s)
           | FArray has_email s =>
               new_AuthenticationError (if has_email then EMAIL_NOT_VERIFIED else s)
           | FOther _ => unknown_error
           end) /\
  (status r = 400 ->
   fst (apiRequest endpoint options w) =
     Throw (new_ValidationError (shown_as (errorMessage r)))) /\
  (status r <> 400 -> status r <> 401 -> status r <> 403 -> status r <> 429 ->
   fst (apiRequest endpoint options w) =
     Throw (new_ExtensionError (or_field (errorMessage r) SERVER_ERROR) (Some "API_ERROR")
              (Some (status r)))) /\
  ndispatches (snd (apiRequest endpoint options w)) = S (ndispatches w).
Proof.
  intros C N V K F.
  destruct (attempt_answer url h options w1 r rest N V F) as [_ E].
  destruct (handleErrorResponse_throws r) as (e & H).
  specialize (E K unit e w1 w1 (H _ _)).
  assert (NR : fst (attempt url h options w1) <> Ok Retry) by (rewrite E; discriminate).
  assert (G : fst (apiRequest endpoint options w) = Throw (caught e)).
  { rewrite (apiRequest_first_attempt _ _ _ _ _ _ C).
    destruct (attempt url h options w1) as [[c|e'] w2]; simpl in E; [discriminate|].
    simpl. congruence. }
  rewrite G. specialize (H unit w1). unfold handleErrorResponse in H.
  split; [|split; [|split]].
  - intros S. rewrite S in H. simpl in H.
    destruct (errorMessage r) as [s|[] s|s]; try destruct (includes _ _);
      injection H as <-; reflexivity.
  - intros S. rewrite S in H. simpl in H. injection H as <-. reflexivity.
  - intros S1 S2 S3 S4. unfold HTTP_STATUS_UNAUTHORIZED, HTTP_STATUS_FORBIDDEN,
      HTTP_STATUS_BAD_REQUEST, HTTP_STATUS_TOO_MANY_REQUESTS in H.
    destruct (Z.eqb_spec (status r) 401); [contradiction|].
    destruct (Z.eqb_spec (status r) 403); [contradiction|].
    destruct (Z.eqb_spec (status r) 400); [contradiction|].
    destruct (Z.eqb_spec (status r) 429); [contradiction|].
    injection H as <-. reflexivity.
  - rewrite (one_request _ _ _ _ _ _ C NR). lia.
Qed.

Lemma error_status_decides_the_error_witness :
  fst (apiRequest API_ENDPOINTS_PROJECTS get_options (fresh_world [Responds forbidden])) =
    Throw (new_AuthenticationError EMAIL_NOT_VERIFIED) /\
  fst (apiRequest API_ENDPOINTS_PROJECTS get_options (fresh_world [Responds forbidden_42])) =
    Throw unknown_error.
Proof.
  split.
  - refine (proj1 (error_status_decides_the_error API_ENDPOINTS_PROJECTS get_options
                     (fresh_world [Responds forbidden]) projects_url get_headers
                     (fresh_world [Responds forbidden]) forbidden [] _ _ _ _ _) eq_refl);
      reflexivity.
  - refine (proj1 (error_status_decides_the_error API_ENDPOINTS_PROJECTS get_options
                     (fresh_world [Responds forbidden_42]) projects_url get_headers
                     (fresh_world [Responds forbidden_42]) forbidden_42 [] _ _ _ _ _) eq_refl);
      reflexivity.
Defined.

(** X15.  An answer with a success status whose body is not JSON, such as an
    empty 204, makes the request fail with what the [catch] clause makes of
    the [SyntaxError] of [response.json()]: the UNKNOWN_ERROR error, unless
    the message of the [SyntaxError] contains [timed out] (an engine that
    quotes the body in it does so for a body like [Gateway timed out]),
    when it is the [NetworkError] of a time-out.  So does
    [deleteReference], although the answer reports success. *)
Theorem success_without_json_body_is_rejected endpoint options w url h w1 r rest e :
  compose endpoint options w = (Ok (url, h), w1) ->
  network w1 = Responds r :: rest ->
  rate_limit_in_order r = true ->
  ok r = true -> body r = BodyUnreadable e -> cls e = SyntaxError ->
  let rejection := if includes "timed out" (message e)
                   then new_NetworkError REQUEST_TIMEOUT else unknown_error in
  fst (apiRequest endpoint options w) = Throw rejection /\
  forall referenceId,
    endpoint = API_ENDPOINTS_REFERENCE_DETAIL referenceId ->
    options = write_options "DELETE" None ->
    fst (deleteReference referenceId w) = Throw rejection.
Proof.
  intros C N V K D Cl rejection.
  assert (F : (status r =? HTTP_STATUS_UNAUTHORIZED) && default true (retryOn401 options) = false).
  { unfold ok in K. apply andb_true_iff in K as [_ K]. apply Z.leb_le in K.
    unfold HTTP_STATUS_UNAUTHORIZED. destruct (Z.eqb_spec (status r) 401); [lia|reflexivity]. }
  destruct (attempt_answer url h options w1 r rest N V F) as [E _]. specialize (E K).
  rewrite D in E.
  assert (Ca : caught e = rejection).
  { unfold caught, rejection, instanceof_ExtensionError, instanceof_TypeError.
    rewrite Cl. destruct (includes _ _); reflexivity. }
  rewrite Ca in E.
  assert (G : fst (apiRequest endpoint options w) = Throw rejection).
  { rewrite (apiRequest_first_attempt _ _ _ _ _ _ C).
    destruct (attempt url h options w1) as [[c|e'] w2]; simpl in E; [discriminate|].
    injection E as ->. reflexivity. }
  split; [exact G|]. intros referenceId -> ->. unfold deleteReference.
  unfold mbind, M_bind, bind.
  destruct (apiRequest _ _ w) as [[v|e'] w2]; simpl in G |- *; congruence.
Qed.

Lemma success_without_json_body_is_rejected_witness :
  fst (deleteReference 7 (with_token [Responds no_content])) = Throw unknown_error /\
  fst (deleteReference 7 (with_token [Responds gateway_timed_out])) =
    Throw (new_NetworkError REQUEST_TIMEOUT).
Proof.
  split.
  - edestruct (success_without_json_body_is_rejected (API_ENDPOINTS_REFERENCE_DETAIL 7)
                 (write_options "DELETE" None) (with_token [Responds no_content]))
      as [_ H]; [reflexivity..|].
    exact (H 7 eq_refl eq_refl).
  - edestruct (success_without_json_body_is_rejected (API_ENDPOINTS_REFERENCE_DETAIL 7)
                 (write_options "DELETE" None) (with_token [Responds gateway_timed_out]))
      as [_ H]; [reflexivity..|].
    exact (H 7 eq_refl eq_refl).
Defined.



Section Monad.

Lemma bind_run {A B} (m : M A) (k : A -> M B) w a w1 :
  m w = (Ok a, w1) -> (m ≫= k) w = k a w1.
Proof. intros E. unfold mbind, M_bind, bind. now rewrite E. Qed.

Lemma bind_throws {A B} (m : M A) (k : A -> M B) w e w1 :
  m w = (Throw e, w1) -> (m ≫= k) w = (Throw e, w1).
Proof. intros E. unfold mbind, M_bind, bind. now rewrite E. Qed.

Lemma bind_Ok_inv {A B} (m : M A) (k : A -> M B) w b w' :
  (m ≫= k) w = (Ok b, w') -> exists a w1, m w = (Ok a, w1) /\ k a w1 = (Ok b, w').
Proof.
  unfold mbind, M_bind, bind. destruct (m w) as [[a|e] w1]; [eauto|discriminate].
Qed.

Lemma try_catch_run {A} (m : M A) h w a w1 :
  m w = (Ok a, w1) -> try_catch m h w = (Ok a, w1).
Proof. intros E. unfold try_catch. now rewrite E. Qed.

Lemma try_catch_caught {A} (m : M A) h w e w1 :
  m w = (Throw e, w1) -> try_catch m h w = h e w1.
Proof. intros E. unfold try_catch. now rewrite E. Qed.

Lemma try_catch_Ok_inv {A} (m : M A) h w a w' :
  try_catch m h w = (Ok a, w') ->
  m w = (Ok a, w') \/ exists e w1, m w = (Throw e, w1) /\ h e w1 = (Ok a, w').
Proof. unfold try_catch. destruct (m w) as [[a'|e] w1]; eauto. Qed.

(** A handler that logs and throws on. *)
Lemma rethrow_Ok_inv {A} (m : M A) msg w a w' :
  try_catch m (fun error => logger_error msg ;; throw error) w = (Ok a, w') ->
  m w = (Ok a, w').
Proof.
  intros H. apply try_catch_Ok_inv in H as [H|(e & w1 & _ & H)]; [exact H|discriminate].
Qed.

Lemma truthy_Some s t : truthy s = Some t -> s = Some t /\ t <> "".
Proof.
  destruct s as [[|c s]|]; simpl; try discriminate.
  intros [= <-]. split; [reflexivity|discriminate].
Qed.

Lemma truthy_of t : t <> "" -> truthy (Some t) = Some t.
Proof. destruct t; [contradiction|reflexivity]. Qed.

(** ** The storage API *)

Lemma storage_access_works w :
  storage_works w = true -> storage_access w = (Ok tt, next_storage w).
Proof.
  unfold storage_works, storage_access, next_storage.
  destruct (faults w) as [|[e|] fs]; [reflexivity|discriminate|reflexivity].
Qed.

Lemma storage_access_fails w :
  storage_works w = false -> exists e, storage_access w = (Throw e, next_storage w).
Proof.
  unfold storage_works, storage_access, next_storage.
  destruct (faults w) as [|[e|] fs]; try discriminate. eauto.
Qed.

Lemma storage_access_Ok_inv w u w' :
  storage_access w = (Ok u, w') -> storage_works w = true /\ w' = next_storage w.
Proof.
  unfold storage_works, storage_access, next_storage.
  destruct (faults w) as [|[e|] fs]; intros [= <-]; auto.
Qed.

Lemma next_storage_fields w :
  csrfToken (next_storage w) = csrfToken w /\ store (next_storage w) = store w /\
  cookie_jar (next_storage w) = cookie_jar w /\ network (next_storage w) = network w /\
  limiter (next_storage w) = limiter w /\ log (next_storage w) = log w.
Proof. unfold next_storage. destruct (faults w); repeat split. Qed.




Lemma storage_get_works {A} (field : Storage -> A) w :
  storage_works w = true ->
  storage_get field w = (Ok (field (store w)), next_storage w).
Proof.
  intros H. unfold storage_get.
  rewrite (bind_run _ _ _ _ _ (storage_access_works w H)).
  unfold mbind, M_bind, bind, get, ret.
  now destruct (next_storage_fields w) as (_ & -> & _).
Qed.

Lemma storage_get_fails {A} (field : Storage -> A) w :
  storage_works w = false -> exists e, storage_get field w = (Throw e, next_storage w).
Proof.
  intros H. destruct (storage_access_fails w H) as [e E]. exists e.
  unfold storage_get. now rewrite (bind_throws _ _ _ _ _ E).
Qed.

Lemma storage_update_works f w :
  storage_works w = true ->
  storage_update f w = (Ok tt, set_store (f (store w)) (next_storage w)).
Proof.
  intros H. unfold storage_update.
  rewrite (bind_run _ _ _ _ _ (storage_access_works w H)).
  unfold modify. now destruct (next_storage_fields w) as (_ & -> & _).
Qed.

Lemma storage_update_Ok_inv f w u w' :
  storage_update f w = (Ok u, w') ->
  storage_works w = true /\ w' = set_store (f (store w)) (next_storage w).
Proof.
  intros H. unfold storage_update in H.
  apply bind_Ok_inv in H as ([] & w1 & A & H).
  apply storage_access_Ok_inv in A as [S ->]. split; [exact S|].
  unfold modify in H. injection H as H. subst w'.
  destruct (next_storage_fields w) as (_ & E & _). now rewrite E.
Qed.

End Monad.

Section Csrf.

Lemma getApiBaseUrl_spec w :
  getApiBaseUrl w =
    (Ok (if storage_works w
         then default DEFAULT_API_BASE_URL (truthy (api_base_url (store w)))
         else DEFAULT_API_BASE_URL),
     if storage_works w then next_storage w
     else add_log (LError "Error getting API base URL:") (next_storage w)).
Proof.
  unfold getApiBaseUrl. destruct (storage_works w) eqn:S.
  - apply try_catch_run.
    now rewrite (bind_run _ _ _ _ _ (storage_get_works api_base_url w S)).
  - destruct (storage_get_fails api_base_url w S) as [e E].
    erewrite try_catch_caught; [reflexivity|].
    now rewrite (bind_throws _ _ _ _ _ E).
Qed.

Lemma fetchCsrfToken_Ok_inv w t w1 :
  fetchCsrfToken w = (Ok t, w1) ->
  t <> "" /\ csrfToken w1 = Some t /\ csrf_token (store w1) = Some t.
Proof.
  intros H. unfold fetchCsrfToken in H.
  apply bind_Ok_inv in H as (base & w0 & _ & H).
  apply rethrow_Ok_inv in H.
  apply bind_Ok_inv in H as (r & w2 & _ & H).
  destruct (negb (ok r)); [discriminate|].
  destruct (truthy (headers r !! "X-CSRF-Token")) as [token|] eqn:T; [|discriminate].
  apply truthy_Some in T as [_ Ne].
  apply bind_Ok_inv in H as ([] & w3 & M & H). unfold modify in M. injection M as <-.
  apply bind_Ok_inv in H as ([] & w4 & U & H). unfold mret, M_ret, ret in H.
  injection H as <- <-.
  apply storage_update_Ok_inv in U as [_ ->]. simpl.
  destruct (next_storage_fields (set_csrfToken (Some token) w2)) as (C & _).
  auto.
Qed.

Lemma getCsrfToken_unfold w :
  getCsrfToken w =
    match truthy (csrfToken w) with
    | Some token => (Ok token, w)
    | None =>
        (stored ← storage_get csrf_token;
         match truthy stored with
         | Some token => modify (set_csrfToken (Some token)) ;; ret token
         | None => fetchCsrfToken
         end) w
    end.
Proof.
  unfold getCsrfToken. unfold mbind at 1, M_bind at 1, bind at 1, get.
  destruct (truthy (csrfToken w)); reflexivity.
Qed.

Lemma getCsrfToken_cached w t :
  csrfToken w = Some t -> t <> "" -> getCsrfToken w = (Ok t, w).
Proof. intros C Ne. now rewrite getCsrfToken_unfold, C, (truthy_of t Ne). Qed.

Lemma getCsrfToken_stored w t :
  truthy (csrfToken w) = None -> csrf_token (store w) = Some t -> t <> "" ->
  storage_works w = true ->
  getCsrfToken w = (Ok t, set_csrfToken (Some t) (next_storage w)).
Proof.
  intros C St Ne S. rewrite getCsrfToken_unfold, C.
  rewrite (bind_run _ _ _ _ _ (storage_get_works csrf_token w S)).
  rewrite St, (truthy_of t Ne). reflexivity.
Qed.

End Csrf.

(** X17.  A CSRF token is fetched once.  After [fetchCsrfToken] has succeeded,
    [getCsrfToken] returns the token from memory, with no call of the
    storage API or of the network; and if the module variable is lost while
    the storage is kept, [getCsrfToken] reads the token back from storage,
    again without a network call. *)
Theorem csrf_token_is_fetched_once w t w1 :
  fetchCsrfToken w = (Ok t, w1) ->
  getCsrfToken w1 = (Ok t, w1) /\
  forall w2,
    truthy (csrfToken w2) = None -> store w2 = store w1 -> storage_works w2 = true ->
    getCsrfToken w2 = (Ok t, set_csrfToken (Some t) (next_storage w2)).
Proof.
  intros H. apply fetchCsrfToken_Ok_inv in H as (Ne & C & St).
  split; [now apply getCsrfToken_cached|].
  intros w2 C2 E S. apply getCsrfToken_stored; try assumption. now rewrite E.
Qed.

Lemma csrf_token_is_fetched_once_witness :
  getCsrfToken token_fetched = (Ok "tok", token_fetched).
Proof.
  refine (proj1 (csrf_token_is_fetched_once (fresh_world [Responds (csrf_answer "tok")])
                   "tok" token_fetched _)).
  vm_compute. reflexivity.
Defined.

(** X18.  [setApiBaseUrl(url)] followed by [getApiBaseUrl()] gives [url] back,
    except that the empty string reads back as the default URL.
    [getApiBaseUrl] never rejects and never answers the empty string; when
    the storage read fails it answers the default URL, whatever is
    stored. *)
Theorem api_base_url_round_trip url w w1 :
  setApiBaseUrl url w = (Ok tt, w1) ->
  (storage_works w1 = true ->
   fst (getApiBaseUrl w1) = Ok (if decide (url = "") then DEFAULT_API_BASE_URL else url)) /\
  (storage_works w1 = false -> fst (getApiBaseUrl w1) = Ok DEFAULT_API_BASE_URL) /\
  forall w', exists u, fst (getApiBaseUrl w') = Ok u /\ u <> "".
Proof.
  intros H. unfold setApiBaseUrl in H. apply rethrow_Ok_inv in H.
  apply storage_update_Ok_inv in H as [_ ->].
  split; [|split].
  - intros S. rewrite getApiBaseUrl_spec, S. simpl.
    destruct url; destruct (decide _); try reflexivity; congruence.
  - intros S. now rewrite getApiBaseUrl_spec, S.
  - intros w'. rewrite getApiBaseUrl_spec. eexists. split; [reflexivity|].
    destruct (storage_works w'); [|discriminate].
    destruct (truthy (api_base_url (store w'))) as [u|] eqn:T; simpl; [|discriminate].
    now apply truthy_Some in T.
Qed.

Lemma api_base_url_round_trip_witness :
  fst (getApiBaseUrl (snd (setApiBaseUrl "http://localhost:5000" (fresh_world [])))) =
    Ok "http://localhost:5000".
Proof.
  refine (proj1 (api_base_url_round_trip "http://localhost:5000" (fresh_world []) _ _) _);
    reflexivity.
Defined.

Section RateLimitInfo.


(** What the rate-limit headers of an answer leave behind. *)
Lemma note_rate_limit_stores r w info :
  parseRateLimitHeaders (headers r) = Some info ->
  rate_limit_in_order r = true ->
  storage_works w = true ->
  exists l,
    Limiter.updateFromHeaders (limiter w) (limit info) (remaining info) (reset info) = inr l /\
    note_rate_limit r w =
      (Ok tt,
       set_store (mkStorage (api_base_url (store w)) (csrf_token (store w)) (Some info))
                 (next_storage (set_limiter l w))).
Proof.
  intros P V S. unfold rate_limit_in_order in V. rewrite P in V.
  unfold note_rate_limit. rewrite P.
  assert (U : exists l, Limiter.updateFromHeaders (limiter w) (limit info) (remaining info)
                          (reset info) = inr l).
  { unfold Limiter.updateFromHeaders. rewrite V. eauto. }
  destruct U as [l U]. exists l. split; [exact U|].
  assert (L : limiter_updateFromHeaders info w = (Ok tt, set_limiter l w)).
  { unfold limiter_updateFromHeaders. now rewrite U. }
  rewrite (bind_run _ _ _ _ _ L).
  apply try_catch_run. unfold setRateLimitInfo. apply try_catch_run.
  now rewrite storage_update_works.
Qed.


End RateLimitInfo.



Section NoToken.

Lemma csrf_fetches_add_log e w :
  csrf_fetches (log (add_log e w)) =
    (csrf_fetches (log w) ++ if is_csrf_fetch e then [e] else [])%list.
Proof. unfold csrf_fetches. simpl. rewrite List.filter_app. simpl. now destruct (is_csrf_fetch e). Qed.

Lemma asks_no_token_ret {A} (a : A) : asks_no_token (ret a).
Proof. intros w. reflexivity. Qed.

Lemma asks_no_token_throw {A} e : asks_no_token (@throw A e).
Proof. intros w. reflexivity. Qed.

Lemma asks_no_token_bind {A B} (m : M A) (k : A -> M B) :
  asks_no_token m -> (forall a, asks_no_token (k a)) -> asks_no_token (m ≫= k).
Proof.
  intros Hm Hk w. unfold mbind, M_bind, bind. specialize (Hm w).
  destruct (m w) as [[a|e] w1]; simpl in *; [|exact Hm]. now rewrite Hk.
Qed.

Lemma asks_no_token_try_catch {A} (m : M A) h :
  asks_no_token m -> (forall e, asks_no_token (h e)) -> asks_no_token (try_catch m h).
Proof.
  intros Hm Hh w. unfold try_catch. specialize (Hm w).
  destruct (m w) as [[a|e] w1]; simpl in *; [exact Hm|]. now rewrite Hh.
Qed.

Lemma asks_no_token_modify f :
  (forall w, log (f w) = log w) -> asks_no_token (modify f).
Proof. intros H w. unfold modify. simpl. now rewrite H. Qed.

Lemma asks_no_token_log e : is_csrf_fetch e = false -> asks_no_token (modify (add_log e)).
Proof.
  intros H w. unfold modify. simpl snd. rewrite csrf_fetches_add_log, H. apply app_nil_r.
Qed.

Lemma asks_no_token_storage_access : asks_no_token storage_access.
Proof. intros w. unfold storage_access. now destruct (faults w) as [|[e|] fs]. Qed.

Lemma asks_no_token_storage_get {A} (f : Storage -> A) : asks_no_token (storage_get f).
Proof.
  apply asks_no_token_bind; [apply asks_no_token_storage_access|]. intros _.
  apply asks_no_token_bind; [intros w; reflexivity|]. intros w. apply asks_no_token_ret.
Qed.

Lemma asks_no_token_storage_update f : asks_no_token (storage_update f).
Proof.
  apply asks_no_token_bind; [apply asks_no_token_storage_access|]. intros _.
  now apply asks_no_token_modify.
Qed.

Lemma asks_no_token_getApiBaseUrl : asks_no_token getApiBaseUrl.
Proof.
  apply asks_no_token_try_catch.
  - apply asks_no_token_bind; [apply asks_no_token_storage_get|]. intros a.
    apply asks_no_token_ret.
  - intros e. apply asks_no_token_bind; [now apply asks_no_token_log|]. intros _.
    apply asks_no_token_ret.
Qed.

Lemma asks_no_token_attach_cookie options h : asks_no_token (attach_cookie options h).
Proof.
  unfold attach_cookie. destruct (default false _); [apply asks_no_token_ret|].
  apply asks_no_token_try_catch.
  - apply asks_no_token_bind.
    + intros w. unfold cookies_getAll. now destruct (cookie_jar w).
    + intros [|c cs]; apply asks_no_token_ret.
  - intros e. apply asks_no_token_bind; [now apply asks_no_token_log|]. intros _.
    apply asks_no_token_ret.
Qed.

Lemma asks_no_token_compose endpoint options :
  needs_token options = false -> asks_no_token (compose endpoint options).
Proof.
  intros N. unfold compose.
  apply asks_no_token_bind; [apply asks_no_token_getApiBaseUrl|]. intros base.
  apply asks_no_token_bind; [apply asks_no_token_attach_cookie|]. intros h1.
  apply asks_no_token_bind; [|intros h2; apply asks_no_token_ret].
  unfold attach_csrf. unfold needs_token in N. rewrite N. apply asks_no_token_ret.
Qed.

Lemma asks_no_token_note_rate_limit r : asks_no_token (note_rate_limit r).
Proof.
  unfold note_rate_limit. destruct (parseRateLimitHeaders _) as [info|];
    [|apply asks_no_token_ret].
  apply asks_no_token_bind.
  { intros w. unfold limiter_updateFromHeaders.
    now destruct (Limiter.updateFromHeaders _ _ _ _). }
  intros _. apply asks_no_token_try_catch.
  - unfold setRateLimitInfo. apply asks_no_token_try_catch;
      [apply asks_no_token_storage_update|].
    intros e. apply asks_no_token_bind; [now apply asks_no_token_log|]. intros _.
    apply asks_no_token_throw.
  - intros e. now apply asks_no_token_log.
Qed.

Lemma asks_no_token_attempt url h options : asks_no_token (attempt url h options).
Proof.
  unfold attempt. apply asks_no_token_try_catch.
  2:{ intros e w. now destruct (classify_throws (A:=Completion) e w) as [e' ->]. }
  apply asks_no_token_bind.
  { unfold fetchWithTimeout. apply asks_no_token_bind; [now apply asks_no_token_log|].
    intros _. apply asks_no_token_try_catch.
    - intros w. unfold fetch. now destruct (network w) as [|[r|e] n].
    - intros e. destruct (decide _); apply asks_no_token_throw. }
  intros r. apply asks_no_token_bind; [apply asks_no_token_note_rate_limit|]. intros _.
  destruct (_ && _).
  - apply asks_no_token_bind; [|intros _; apply asks_no_token_ret].
    unfold clearCsrfToken. apply asks_no_token_bind; [now apply asks_no_token_modify|].
    intros _. apply asks_no_token_storage_update.
  - apply asks_no_token_bind.
    + destruct (negb (ok r)); [|apply asks_no_token_ret].
      intros w. now destruct (handleErrorResponse_throws r) as (e & ->).
    + intros _. apply asks_no_token_bind; [|intros v; apply asks_no_token_ret].
      unfold json. destruct (body r); [apply asks_no_token_throw|apply asks_no_token_ret..].
Qed.

Lemma asks_no_token_body again endpoint options :
  needs_token options = false ->
  (forall e o, needs_token o = false -> asks_no_token (again e o)) ->
  asks_no_token (apiRequest_body again endpoint options).
Proof.
  intros N H. unfold apiRequest_body.
  apply asks_no_token_bind; [now apply asks_no_token_compose|]. intros request.
  apply asks_no_token_bind; [apply asks_no_token_attempt|]. intros [data|].
  - apply asks_no_token_ret.
  - apply H. exact N.
Qed.

End NoToken.

(** X20.  A request that changes nothing on the server ([GET], or no method), or
    one made with [skipAuth], never asks the token endpoint for a CSRF
    token: the read operations and the version check cause no such call. *)
Theorem requests_that_only_read_ask_for_no_csrf_token endpoint options :
  needs_token options = false ->
  asks_no_token (apiRequest endpoint options).
Proof.
  intros N. unfold apiRequest. apply asks_no_token_body; [exact N|].
  intros e o No. unfold apiRequest_final. apply asks_no_token_body; [exact No|].
  intros e' o' _. apply asks_no_token_throw.
Qed.

Lemma requests_that_only_read_ask_for_no_csrf_token_witness :
  csrf_fetches (log (snd (apiRequest API_ENDPOINTS_PROJECTS get_options
                            (fresh_world [Responds projects_ok])))) = [].
Proof.
  apply (requests_that_only_read_ask_for_no_csrf_token API_ENDPOINTS_PROJECTS
           get_options eq_refl).
Defined.

Section Dispatched.

(** The requests that a call sends: one, or two when it goes into the
    retry, each as [compose] has made it. *)
Lemma apiRequest_dispatched endpoint options w :
  exists l,
    dispatches (log (snd (apiRequest endpoint options w))) = (dispatches (log w) ++ l)%list /\
    (length l = 1%nat \/ length l = 2%nat) /\
    Forall (fun d => exists url h w0 w1,
                       compose endpoint options w0 = (Ok (url, h), w1) /\
                       d = dispatch_of url options h) l.
Proof.
  unfold apiRequest.
  destruct (apiRequest_body_unfold apiRequest_final endpoint options w)
    as (url & h & w1 & C & ->).
  destruct (quiet_compose endpoint options w) as [Q1 _]. rewrite C in Q1. simpl in Q1.
  destruct (attempt_one_dispatch url h options w1) as [D _]. rewrite Q1 in D.
  assert (F1 : exists url0 h0 w0 w1',
                 compose endpoint options w0 = (Ok (url0, h0), w1') /\
                 LDispatch url (method options) h (req_body options) =
                   dispatch_of url0 options h0) by (exists url, h, w, w1; auto).
  destruct (attempt url h options w1) as [[[v|]|e] w2]; simpl in D |- *;
    try (eexists; split; [exact D|]; split; [left; reflexivity|];
         constructor; [exact F1|constructor]).
  unfold apiRequest_final.
  destruct (apiRequest_body_unfold (fun _ _ => throw unreachable) endpoint
              (without_retry options) w2) as (url' & h' & w3 & C' & ->).
  destruct (quiet_compose endpoint (without_retry options) w2) as [Q2 _].
  rewrite C' in Q2. simpl in Q2.
  destruct (attempt_one_dispatch url' h' (without_retry options) w3) as [D' _].
  rewrite Q2, D in D'.
  exists [LDispatch url (method options) h (req_body options);
          LDispatch url' (method options) h' (req_body options)].
  split.
  { destruct (attempt url' h' (without_retry options) w3) as [[[v|]|e] w4]; simpl in D' |- *;
      rewrite D', <- app_assoc; reflexivity. }
  split; [right; reflexivity|].
  constructor; [exact F1|]. constructor; [|constructor].
  exists url', h', w2, w3. split; [exact C'|reflexivity].
Qed.

Lemma compose_skipAuth endpoint options w url h w1 :
  skipAuth options = Some true ->
  compose endpoint options w = (Ok (url, h), w1) -> h = base_headers options.
Proof.
  intros S C. unfold compose, attach_cookie, attach_csrf in C. rewrite S in C. simpl in C.
  apply bind_Ok_inv in C as (base & w0 & _ & C). now injection C as _ <- _.
Qed.

End Dispatched.

(** X21.  [getBackendVersion] never rejects: it resolves to the decoded answer
    of the version endpoint, or, when the request fails in any way, to the
    version 1.0.0 literal after logging an error.  The requests it sends
    are [GET]s that carry no [Cookie] and no [X-CSRF-Token] header. *)
Theorem getBackendVersion_never_rejects w :
  (forall data w', apiRequest API_ENDPOINTS_VERSION version_options w = (Ok data, w') ->
                   getBackendVersion w = (Ok (FromBackend data), w')) /\
  (forall e w', apiRequest API_ENDPOINTS_VERSION version_options w = (Throw e, w') ->
                getBackendVersion w =
                  (Ok (Fallback (mkBackendVersion "1.0.0" "1" "1.0.0")),
                   add_log (LError "Failed to fetch backend version:") w')) /\
  (exists v, fst (getBackendVersion w) = Ok v) /\
  exists l,
    dispatches (log (snd (getBackendVersion w))) = (dispatches (log w) ++ l)%list /\
    Forall (fun d => exists url,
                       d = LDispatch url (Some "GET")
                             {[ "Content-Type" := "application/json" ]} None) l.
Proof.
  assert (A : forall data w', apiRequest API_ENDPOINTS_VERSION version_options w = (Ok data, w') ->
                getBackendVersion w = (Ok (FromBackend data), w')).
  { intros data w' E. unfold getBackendVersion. apply try_catch_run.
    now rewrite (bind_run _ _ _ _ _ E). }
  assert (B : forall e w', apiRequest API_ENDPOINTS_VERSION version_options w = (Throw e, w') ->
                getBackendVersion w =
                  (Ok (Fallback (mkBackendVersion "1.0.0" "1" "1.0.0")),
                   add_log (LError "Failed to fetch backend version:") w')).
  { intros e w' E. unfold getBackendVersion.
    erewrite try_catch_caught; [reflexivity|]. now rewrite (bind_throws _ _ _ _ _ E). }
  split; [exact A|]. split; [exact B|].
  destruct (apiRequest_dispatched API_ENDPOINTS_VERSION version_options w) as (l & D & _ & F).
  destruct (apiRequest API_ENDPOINTS_VERSION version_options w) as [[data|e] w'] eqn:E.
  - rewrite (A _ _ eq_refl). split; [eauto|]. exists l. split; [exact D|].
    eapply Forall_impl; [exact F|]. intros d (url & h & w0 & w1 & C & ->).
    exists url. apply compose_skipAuth in C as ->; reflexivity.
  - rewrite (B _ _ eq_refl). split; [eauto|]. exists l. split.
    { simpl snd. rewrite dispatches_add_log. simpl. rewrite app_nil_r. exact D. }
    eapply Forall_impl; [exact F|]. intros d (url & h & w0 & w1 & C & ->).
    exists url. apply compose_skipAuth in C as ->; reflexivity.
Qed.

Section Refresh.

Lemma calm_next w : faults w = [] -> next_storage w = w /\ storage_works w = true.
Proof. intros F. unfold next_storage, storage_works. now rewrite F. Qed.

Lemma calm_getApiBaseUrl w : faults w = [] -> getApiBaseUrl w = (Ok (configured_base w), w).
Proof.
  intros F. destruct (calm_next w F) as [N S]. now rewrite getApiBaseUrl_spec, S, N.
Qed.

Lemma calm_storage_get {A} (field : Storage -> A) w :
  faults w = [] -> storage_get field w = (Ok (field (store w)), w).
Proof.
  intros F. destruct (calm_next w F) as [N S]. now rewrite (storage_get_works field w S), N.
Qed.

Lemma calm_storage_update f w :
  faults w = [] -> storage_update f w = (Ok tt, set_store (f (store w)) w).
Proof.
  intros F. destruct (calm_next w F) as [N S]. now rewrite (storage_update_works f w S), N.
Qed.

Lemma calm_attach_cookie options h w cs :
  default false (skipAuth options) = false -> cookie_jar w = inr cs ->
  attach_cookie options h w = (Ok (with_cookie cs h), w).
Proof.
  intros S C. unfold attach_cookie. rewrite S. apply try_catch_run.
  assert (G : cookies_getAll w = (Ok cs, w)) by (unfold cookies_getAll; now rewrite C).
  rewrite (bind_run _ _ _ _ _ G). now destruct cs.
Qed.

(** The token endpoint is asked, and answers with [t]. *)
Lemma calm_fetchCsrfToken w c rest t :
  faults w = [] -> network w = Responds c :: rest ->
  ok c = true -> truthy (headers c !! "X-CSRF-Token") = Some t ->
  fetchCsrfToken w =
    (Ok t,
     set_store (mkStorage (api_base_url (store w)) (Some t) (rate_limit_info (store w)))
       (set_csrfToken (Some t)
          (set_network rest
             (add_log (LCsrfFetch (configured_base w ++ API_ENDPOINTS_CSRF_TOKEN)) w)))).
Proof.
  intros F N K T. unfold fetchCsrfToken.
  rewrite (bind_run _ _ _ _ _ (calm_getApiBaseUrl w F)).
  apply try_catch_run.
  set (e := LCsrfFetch _).
  assert (G : fetchWithTimeout e CSRF_TIMEOUT_MS w = (Ok c, set_network rest (add_log e w))).
  { unfold fetchWithTimeout. rewrite (bind_run _ _ _ tt (add_log e w)) by reflexivity.
    apply try_catch_run. unfold fetch. simpl network. now rewrite N. }
  rewrite (bind_run _ _ _ _ _ G). rewrite K, T. change (negb true) with false. cbv beta iota.
  rewrite (bind_run _ _ _ tt (set_csrfToken (Some t) (set_network rest (add_log e w))))
    by reflexivity.
  rewrite (bind_run _ _ _ _ _
             (calm_storage_update _ (set_csrfToken (Some t) (set_network rest (add_log e w))) F)).
  reflexivity.
Qed.

Lemma calm_attach_csrf_cached options h w t :
  needs_token options = true -> csrfToken w = Some t -> t <> "" ->
  attach_csrf options h w = (Ok (<[ "X-CSRF-Token" := t ]> h), w).
Proof.
  intros Nt C Ne. unfold attach_csrf. unfold needs_token in Nt. rewrite Nt.
  apply try_catch_run. now rewrite (bind_run _ _ _ _ _ (getCsrfToken_cached w t C Ne)).
Qed.

Lemma calm_attach_csrf_fetched options h w c rest t :
  needs_token options = true ->
  faults w = [] -> truthy (csrfToken w) = None -> truthy (csrf_token (store w)) = None ->
  network w = Responds c :: rest ->
  ok c = true -> truthy (headers c !! "X-CSRF-Token") = Some t ->
  attach_csrf options h w =
    (Ok (<[ "X-CSRF-Token" := t ]> h),
     set_store (mkStorage (api_base_url (store w)) (Some t) (rate_limit_info (store w)))
       (set_csrfToken (Some t)
          (set_network rest
             (add_log (LCsrfFetch (configured_base w ++ API_ENDPOINTS_CSRF_TOKEN)) w)))).
Proof.
  intros Nt F C St N K T. unfold attach_csrf. unfold needs_token in Nt. rewrite Nt.
  apply try_catch_run.
  assert (G : getCsrfToken w = fetchCsrfToken w).
  { rewrite getCsrfToken_unfold, C.
    rewrite (bind_run _ _ _ _ _ (calm_storage_get csrf_token w F)). now rewrite St. }
  rewrite (calm_fetchCsrfToken w c rest t F N K T) in G.
  now rewrite (bind_run _ _ _ _ _ G).
Qed.

(** The attempt that is answered by a 401, in a world whose storage works. *)
Lemma calm_attempt_retry url h options w r rest :
  faults w = [] -> network w = Responds r :: rest ->
  rate_limit_in_order r = true ->
  status r = HTTP_STATUS_UNAUTHORIZED -> default true (retryOn401 options) = true ->
  exists w2,
    attempt url h options w = (Ok Retry, w2) /\
    faults w2 = [] /\ cookie_jar w2 = cookie_jar w /\ network w2 = rest /\
    csrfToken w2 = None /\ csrf_token (store w2) = None /\
    api_base_url (store w2) = api_base_url (store w) /\
    log w2 = (log w ++ [dispatch_of url options h])%list.
Proof.
  intros F N V S R. rewrite attempt_unfold. unfold after_dispatch.
  set (wa := add_log _ w).
  assert (Fe : try_catch fetch
                 (fun error => if decide (cls error = AbortError)
                               then throw (new_Error ("Request timed out after " ++
                                                      pretty REQUEST_TIMEOUT_MS ++ "ms"))
                               else throw error) wa = (Ok r, set_network rest wa)).
  { apply try_catch_run. unfold fetch. simpl network. now rewrite N. }
  set (wb := set_network rest wa) in *.
  assert (Fb : faults wb = []) by exact F.
  assert (Nr : exists wc, note_rate_limit r wb = (Ok tt, wc) /\
                 faults wc = [] /\ cookie_jar wc = cookie_jar w /\ network wc = rest /\
                 csrfToken wc = csrfToken w /\
                 api_base_url (store wc) = api_base_url (store w) /\
                 log wc = (log w ++ [dispatch_of url options h])%list).
  { destruct (parseRateLimitHeaders (headers r)) as [info|] eqn:P.
    - destruct (note_rate_limit_stores r wb info P V (proj2 (calm_next wb Fb)))
        as (l & _ & ->).
      eexists. split; [reflexivity|].
      assert (Fc : faults (set_limiter l wb) = []) by exact F.
      rewrite (proj1 (calm_next _ Fc)). simpl. auto 10.
    - exists wb. unfold note_rate_limit. rewrite P. simpl. auto 10. }
  destruct Nr as (wc & Nc & Fc & Cj & Nw & Ct & Ab & Lg).
  assert (Cl : clearCsrfToken wc =
               (Ok tt, set_store (mkStorage (api_base_url (store wc)) None
                                    (rate_limit_info (store wc)))
                         (set_csrfToken None wc))).
  { unfold clearCsrfToken.
    rewrite (bind_run _ _ _ tt (set_csrfToken None wc)) by reflexivity.
    now rewrite (calm_storage_update _ (set_csrfToken None wc) Fc). }
  eexists. split.
  { apply try_catch_run. rewrite (bind_run _ _ _ _ _ Fe).
    rewrite (bind_run _ _ _ _ _ Nc). rewrite S, R, Z.eqb_refl. change (true && true) with true. cbv beta iota.
    rewrite (bind_run _ _ _ _ _ Cl). reflexivity. }
  simpl. auto 10.
Qed.

End Refresh.

(** X22.  The retry after a 401 is made with a new CSRF token.  Take a write
    request in a session whose storage and cookie APIs work, with a token
    in memory that the server answers by 401, the rate-limit headers of
    that answer in order, and let the token endpoint hand out a token when
    asked.  The token is dropped, the
    token endpoint is asked once, and the request is sent a second time,
    the same but for the [X-CSRF-Token] header, which now carries the token
    just handed out; that token is then the one in memory and in
    storage. *)
Theorem retry_after_401_uses_a_new_csrf_token endpoint options w cs t r1 c rest t' :
  needs_token options = true -> default true (retryOn401 options) = true ->
  faults w = [] -> cookie_jar w = inr cs ->
  csrfToken w = Some t -> t <> "" ->
  network w = Responds r1 :: Responds c :: rest ->
  status r1 = HTTP_STATUS_UNAUTHORIZED -> rate_limit_in_order r1 = true ->
  ok c = true -> truthy (headers c !! "X-CSRF-Token") = Some t' ->
  let url := configured_base w ++ endpoint in
  let h := with_cookie cs (base_headers options) in
  exists w2 w3,
    attempt url (<[ "X-CSRF-Token" := t ]> h) options w = (Ok Retry, w2) /\
    compose endpoint (without_retry options) w2 =
      (Ok (url, <[ "X-CSRF-Token" := t' ]> h), w3) /\
    csrfToken w3 = Some t' /\ csrf_token (store w3) = Some t' /\ network w3 = rest /\
    apiRequest endpoint options w = apiRequest_final endpoint (without_retry options) w2 /\
    dispatches (log (snd (apiRequest endpoint options w))) =
      (dispatches (log w) ++
       [dispatch_of url options (<[ "X-CSRF-Token" := t ]> h);
        dispatch_of url options (<[ "X-CSRF-Token" := t' ]> h)])%list /\
    csrf_fetches (log (snd (apiRequest endpoint options w))) =
      (csrf_fetches (log w) ++
       [LCsrfFetch (configured_base w ++ API_ENDPOINTS_CSRF_TOKEN)])%list.
Proof.
  intros Nt R F Cj Ct Ne N S V K T url h.
  assert (Sk : default false (skipAuth options) = false).
  { unfold needs_token in Nt. now destruct (default false (skipAuth options)). }
  assert (C1 : compose endpoint options w = (Ok (url, <[ "X-CSRF-Token" := t ]> h), w)).
  { unfold compose. rewrite (bind_run _ _ _ _ _ (calm_getApiBaseUrl w F)).
    rewrite (bind_run _ _ _ _ _ (calm_attach_cookie options _ w cs Sk Cj)).
    now rewrite (bind_run _ _ _ _ _ (calm_attach_csrf_cached options _ w t Nt Ct Ne)). }
  destruct (calm_attempt_retry url (<[ "X-CSRF-Token" := t ]> h) options w r1 _ F N V S R)
    as (w2 & A & F2 & Cj2 & N2 & Ct2 & St2 & Ab2 & Lg2).
  assert (B2 : configured_base w2 = configured_base w)
    by (unfold configured_base; now rewrite Ab2).
  rewrite Cj in Cj2.
  assert (Ct2' : truthy (csrfToken w2) = None) by now rewrite Ct2.
  assert (St2' : truthy (csrf_token (store w2)) = None) by now rewrite St2.
  pose proof (calm_attach_csrf_fetched (without_retry options) h w2 c rest t'
                Nt F2 Ct2' St2' N2 K T) as A3.
  set (w3 := set_store _ _) in A3.
  assert (C2 : compose endpoint (without_retry options) w2 =
               (Ok (url, <[ "X-CSRF-Token" := t' ]> h), w3)).
  { unfold compose. rewrite (bind_run _ _ _ _ _ (calm_getApiBaseUrl w2 F2)).
    rewrite (bind_run _ _ _ _ _ (calm_attach_cookie (without_retry options) _ w2 cs Sk Cj2)).
    change (base_headers (without_retry options)) with (base_headers options).
    fold h. rewrite (bind_run _ _ _ _ _ A3). unfold url. now rewrite B2. }
  assert (E : apiRequest endpoint options w =
              apiRequest_final endpoint (without_retry options) w2).
  { rewrite (apiRequest_first_attempt _ _ _ _ _ _ C1). now rewrite A. }
  exists w2, w3. split; [exact A|]. split; [exact C2|].
  split; [reflexivity|]. split; [reflexivity|]. split; [reflexivity|]. split; [exact E|].
  rewrite E. unfold apiRequest_final.
  destruct (apiRequest_body_unfold (fun _ _ => throw unreachable) endpoint
              (without_retry options) w2) as (url' & h' & w3' & C2' & ->).
  rewrite C2 in C2'. injection C2' as <- <- <-.
  destruct (attempt_one_dispatch url (<[ "X-CSRF-Token" := t' ]> h) (without_retry options) w3)
    as [D _].
  pose proof (asks_no_token_attempt url (<[ "X-CSRF-Token" := t' ]> h)
                (without_retry options) w3) as Q.
  assert (D3 : dispatches (log w3) =
               (dispatches (log w) ++ [dispatch_of url options (<[ "X-CSRF-Token" := t ]> h)])%list).
  { unfold w3. simpl log. unfold dispatches.
    rewrite List.filter_app, Lg2, List.filter_app. simpl. now rewrite app_nil_r. }
  assert (Q3 : csrf_fetches (log w3) =
               (csrf_fetches (log w) ++
                [LCsrfFetch (configured_base w ++ API_ENDPOINTS_CSRF_TOKEN)])%list).
  { unfold w3. simpl log. unfold csrf_fetches.
    rewrite List.filter_app, Lg2, List.filter_app, B2. simpl. now rewrite app_nil_r. }
  rewrite D3 in D. rewrite Q3 in Q.
  destruct (attempt url _ (without_retry options) w3) as [[[v|]|e] w4]; simpl in D, Q |- *;
    rewrite D, Q, <- app_assoc; split; reflexivity.
Qed.

Lemma retry_after_401_uses_a_new_csrf_token_witness :
  csrf_fetches (log (snd (apiRequest API_ENDPOINTS_PROJECTS post_options world_stale_token))) =
    [LCsrfFetch "https://ref-lex.site/api/csrf-token"] /\
  fst (apiRequest API_ENDPOINTS_PROJECTS post_options world_stale_token) = Ok "[]".
Proof.
  destruct (retry_after_401_uses_a_new_csrf_token API_ENDPOINTS_PROJECTS post_options
              world_stale_token ["jwt"] "tok" unauthorized (csrf_answer "tok2")
              [Responds projects_ok] "tok2"
              eq_refl eq_refl eq_refl eq_refl eq_refl ltac:(discriminate)
              eq_refl eq_refl eq_refl eq_refl eq_refl)
    as (w2 & w3 & _ & _ & _ & _ & _ & _ & _ & Q).
  split; [exact Q|]. vm_compute. reflexivity.
Defined.

Lemma getBackendVersion_never_rejects_witness :
  getBackendVersion (fresh_world []) =
    (Ok (Fallback (mkBackendVersion "1.0.0" "1" "1.0.0")),
     add_log (LError "Failed to fetch backend version:")
       (snd (apiRequest API_ENDPOINTS_VERSION version_options (fresh_world [])))).
Proof.
  destruct (getBackendVersion_never_rejects (fresh_world [])) as (_ & B & _).
  apply (B (new_NetworkError NETWORK_ERROR)). vm_compute. reflexivity.
Defined.

(** X23.  A write request in a session whose storage and cookie APIs work, with
    a CSRF token in memory, is sent without any call of the token endpoint
    and with three headers set: [X-CSRF-Token] is the token in memory and
    [Cookie] the session cookie, whatever the caller gave under these
    names, while [Content-Type] is [application/json] only if the caller
    gave none. *)
Theorem write_requests_carry_the_credentials endpoint options w c cs t :
  needs_token options = true ->
  faults w = [] -> cookie_jar w = inr (c :: cs) ->
  csrfToken w = Some t -> t <> "" ->
  exists h,
    compose endpoint options w = (Ok (configured_base w ++ endpoint, h), w) /\
    h !! "X-CSRF-Token" = Some t /\
    h !! "Cookie" = Some ("access_token_cookie=" ++ c) /\
    h !! "Content-Type" =
      Some (default "application/json" (req_headers options !! "Content-Type")) /\
    exists l,
      dispatches (log (snd (apiRequest endpoint options w))) =
        (dispatches (log w) ++ dispatch_of (configured_base w ++ endpoint) options h :: l)%list.
Proof.
  intros Nt F Cj Ct Ne.
  assert (Sk : default false (skipAuth options) = false).
  { unfold needs_token in Nt. now destruct (default false (skipAuth options)). }
  eexists. split.
  { unfold compose. rewrite (bind_run _ _ _ _ _ (calm_getApiBaseUrl w F)).
    rewrite (bind_run _ _ _ _ _ (calm_attach_cookie options _ w _ Sk Cj)).
    now rewrite (bind_run _ _ _ _ _ (calm_attach_csrf_cached options _ w t Nt Ct Ne)). }
  split; [apply lookup_insert_eq|].
  split; [rewrite lookup_insert_ne by discriminate; apply lookup_insert_eq|].
  split.
  { unfold with_cookie. rewrite !lookup_insert_ne by discriminate. unfold base_headers.
    rewrite lookup_union, lookup_singleton_eq. destruct (req_headers options !! "Content-Type"); reflexivity. }
  destruct (apiRequest_dispatched endpoint options w) as (l & D & _ & _).
  set (h := <[ "X-CSRF-Token" := t ]> _).
  assert (C : compose endpoint options w = (Ok (configured_base w ++ endpoint, h), w)).
  { unfold compose. rewrite (bind_run _ _ _ _ _ (calm_getApiBaseUrl w F)).
    rewrite (bind_run _ _ _ _ _ (calm_attach_cookie options _ w _ Sk Cj)).
    now rewrite (bind_run _ _ _ _ _ (calm_attach_csrf_cached options _ w t Nt Ct Ne)). }
  rewrite (apiRequest_first_attempt _ _ _ _ _ _ C).
  destruct (attempt_one_dispatch (configured_base w ++ endpoint) h options w) as [D1 _].
  destruct (attempt _ h options w) as [[[v|]|e] w2]; simpl in D1 |- *;
    try (exists []; exact D1).
  unfold apiRequest_final.
  destruct (apiRequest_body_unfold (fun _ _ => throw unreachable) endpoint
              (without_retry options) w2) as (url' & h' & w3 & C' & ->).
  destruct (quiet_compose endpoint (without_retry options) w2) as [Q2 _].
  rewrite C' in Q2. simpl in Q2.
  destruct (attempt_one_dispatch url' h' (without_retry options) w3) as [D' _].
  rewrite Q2, D1 in D'.
  exists [LDispatch url' (method options) h' (req_body options)].
  destruct (attempt url' h' (without_retry options) w3) as [[[v|]|e] w4]; simpl in D' |- *;
    rewrite D', <- app_assoc; reflexivity.
Qed.

Lemma write_requests_carry_the_credentials_witness :
  exists h,
    compose API_ENDPOINTS_PROJECTS (write_options "POST" (Some "{}"))
            (with_token [Responds projects_ok]) =
      (Ok (projects_url, h), with_token [Responds projects_ok]) /\
    h !! "X-CSRF-Token" = Some "tok".
Proof.
  destruct (write_requests_carry_the_credentials API_ENDPOINTS_PROJECTS
              (write_options "POST" (Some "{}")) (with_token [Responds projects_ok])
              "jwt" [] "tok" eq_refl eq_refl eq_refl eq_refl ltac:(discriminate))
    as (h & C & T & _).
  exists h. split; [exact C|exact T].
Defined.

Import Worker.

(** * Properties of the caches and of the message handlers *)

Section CacheFacts.

Lemma storage_call_works k :
  storage_works (world (client k)) = true ->
  storage_call k = (Ok tt, set_world (next_storage (world (client k))) k).
Proof. intros S. unfold storage_call. now rewrite (storage_access_works _ S). Qed.

Lemma storage_call_fails k :
  storage_works (world (client k)) = false ->
  exists e, storage_call k = (Throw e, set_world (next_storage (world (client k))) k).
Proof.
  intros S. unfold storage_call. destruct (storage_access_fails _ S) as [e ->]. eauto.
Qed.

Lemma storage_call_Ok_inv k u k1 :
  storage_call k = (Ok u, k1) ->
  storage_works (world (client k)) = true /\
  k1 = set_world (next_storage (world (client k))) k.
Proof.
  unfold storage_call. destruct (storage_access (world (client k))) as [r w] eqn:E.
  intros [= -> <-]. apply storage_access_Ok_inv in E as [S ->]. auto.
Qed.

Lemma setCachedProjects_Ok_inv v t k k1 :
  setCachedProjects v t k = (Ok tt, k1) ->
  storage_works (world (client k)) = true /\
  k1 = set_caches (mkCaches (Some (mkCached v t)) (cached_categories (caches k)))
                  (set_world (next_storage (world (client k))) k).
Proof.
  unfold setCachedProjects. destruct (storage_call k) as [[u|e] k'] eqn:E; [|discriminate].
  apply storage_call_Ok_inv in E as [S ->]. intros [= <-]. auto.
Qed.

End CacheFacts.

(** X24.  The projects cache serves for five minutes.  After [setCachedProjects]
    has stored a truthy value at time [t], [fetchAndCacheProjects()] returns
    that value without calling [getProjects] as long as the clock reads at
    most [t] plus 300000 ms and the storage can be read; a millisecond
    later, or with [forceRefresh], it calls [getProjects] and waits. *)
Theorem projects_cache_serves_for_five_minutes is_truthy v t k k1 now :
  setCachedProjects v t k = (Ok tt, k1) ->
  is_truthy v = true ->
  storage_works (world (client k1)) = true ->
  let k2 := set_world (next_storage (world (client k1))) k1 in
  (now <= t + 300000 ->
   fetchAndCacheProjects is_truthy false now k1 = (Finished (Ok v), k2)) /\
  (t + 300000 < now ->
   fetchAndCacheProjects is_truthy false now k1 =
     (Waiting (fst (start_read getProjects k2)), snd (start_read getProjects k2))) /\
  fetchAndCacheProjects is_truthy true now k1 =
    (Waiting (fst (start_read getProjects k1)), snd (start_read getProjects k1)).
Proof.
  intros H T S k2. apply setCachedProjects_Ok_inv in H as [_ E].
  assert (C : cached_projects (caches k2) = Some (mkCached v t)) by (unfold k2; now rewrite E).
  split; [|split].
  - intros L. unfold fetchAndCacheProjects, getCachedProjects.
    rewrite (storage_call_works k1 S). fold k2. rewrite C. simpl.
    unfold isExpired, PROJECTS_CACHE_TIMEOUT.
    destruct (Z.ltb_spec (5 * 60 * 1000) (now - t)); [lia|]. now rewrite T.
  - intros L. unfold fetchAndCacheProjects, getCachedProjects.
    rewrite (storage_call_works k1 S). fold k2. rewrite C. simpl.
    unfold isExpired, PROJECTS_CACHE_TIMEOUT.
    destruct (Z.ltb_spec (5 * 60 * 1000) (now - t)); [|lia].
    now destruct (start_read getProjects k2).
  - unfold fetchAndCacheProjects. now destruct (start_read getProjects k1).
Qed.

Lemma projects_cache_serves_for_five_minutes_witness :
  fetchAndCacheProjects not_null false 301000 projects_cached = (Finished (Ok "[]"), projects_cached) /\
  fst (fetchAndCacheProjects not_null false 301001 projects_cached) = Waiting 0.
Proof.
  destruct (projects_cache_serves_for_five_minutes not_null "[]" 1000 (fresh_state [])
              projects_cached 301000 eq_refl eq_refl eq_refl) as (H & _).
  destruct (projects_cache_serves_for_five_minutes not_null "[]" 1000 (fresh_state [])
              projects_cached 301001 eq_refl eq_refl eq_refl) as (_ & M & _).
  split.
  - rewrite H by lia. reflexivity.
  - rewrite M by lia. reflexivity.
Defined.

(** X25.  Storage failures around the projects cache.  When the storage cannot
    be read, [fetchAndCacheProjects] takes the cache as empty, whatever it
    holds, and calls [getProjects]; when the storage cannot be written
    after [getProjects] has answered, it rejects with the storage error,
    the answer is not handed to the caller and the cache stays as it
    was. *)
Theorem storage_failure_hides_the_projects is_truthy now k :
  storage_works (world (client k)) = false ->
  let k1 := set_world (next_storage (world (client k))) k in
  let k2 := log_error "Error getting cached projects:" k1 in
  fetchAndCacheProjects is_truthy false now k =
    (Waiting (fst (start_read getProjects k2)), snd (start_read getProjects k2)) /\
  forall v, exists e,
    fetchAndCacheProjects_resumed (Resolved v) now k =
      (Throw e, log_error "Error setting cached projects:" k1) /\
    caches (log_error "Error setting cached projects:" k1) = caches k.
Proof.
  intros S k1 k2. destruct (storage_call_fails k S) as [e E]. split.
  - unfold fetchAndCacheProjects, getCachedProjects. rewrite E. fold k1. fold k2.
    now destruct (start_read getProjects k2).
  - intros v. exists e. unfold fetchAndCacheProjects_resumed, setCachedProjects.
    rewrite E. auto.
Qed.

Lemma storage_failure_hides_the_projects_witness :
  cached_projects (caches (storage_down projects_cached)) = Some (mkCached "[]" 1000) /\
  fst (fetchAndCacheProjects not_null false 2000 (storage_down projects_cached)) = Waiting 0.
Proof.
  split; [reflexivity|].
  destruct (storage_failure_hides_the_projects not_null 2000 (storage_down projects_cached)
              eq_refl) as [H _].
  rewrite H. reflexivity.
Defined.

Section CategoriesFacts.

Lemma setCachedCategories_Ok_inv id v t k k1 :
  setCachedCategories id v t k = (Ok tt, k1) ->
  cached_categories (caches k1) =
    Some (<[id := mkCached v t]> (default ∅ (cached_categories (caches k)))) /\
  cached_projects (caches k1) = cached_projects (caches k) /\
  dedup (client k1) = dedup (client k).
Proof.
  unfold setCachedCategories. destruct (storage_call k) as [[u|e] k'] eqn:E; [|discriminate].
  apply storage_call_Ok_inv in E as [_ ->].
  destruct (storage_call _) as [[u'|e] k''] eqn:E2; [|discriminate].
  apply storage_call_Ok_inv in E2 as [_ ->]. intros [= <-]. auto.
Qed.

Lemma getCachedCategories_works id now k :
  storage_works (world (client k)) = true ->
  fst (getCachedCategories id now k) =
    match default ∅ (cached_categories (caches k)) !! id with
    | Some cached =>
        if isExpired (cached_at cached) CATEGORIES_CACHE_TIMEOUT now then None
        else Some (cached_value cached)
    | None => None
    end.
Proof.
  intros S. unfold getCachedCategories. rewrite (storage_call_works k S). simpl.
  destruct (cached_categories (caches k)) as [m|]; simpl; [reflexivity|].
  now rewrite lookup_empty.
Qed.

End CategoriesFacts.

(** X26.  The categories cache is kept per project.  After
    [setCachedCategories(A, v)] at time [t], [getCachedCategories(A)]
    returns [v] for five minutes and [null] after; for every other project
    it returns what it returned before the write; the projects cache is
    not touched. *)
Theorem categories_are_cached_per_project A v t k k1 :
  setCachedCategories A v t k = (Ok tt, k1) ->
  storage_works (world (client k1)) = true ->
  (forall now, fst (getCachedCategories A now k1) = if 300000 <? now - t then None else Some v) /\
  (forall B now, B <> A ->
     fst (getCachedCategories B now k1) =
     fst (getCachedCategories B now (set_caches (caches k) k1))) /\
  cached_projects (caches k1) = cached_projects (caches k).
Proof.
  intros H S. apply setCachedCategories_Ok_inv in H as (C & P & _).
  split; [|split; [|exact P]].
  - intros now. rewrite (getCachedCategories_works A now k1 S), C. simpl.
    now rewrite lookup_insert_eq.
  - intros B now Ne. rewrite (getCachedCategories_works B now k1 S).
    rewrite (getCachedCategories_works B now (set_caches (caches k) k1) S).
    rewrite C. simpl. now rewrite lookup_insert_ne by congruence.
Qed.

Lemma categories_are_cached_per_project_witness :
  fst (getCachedCategories 2 3000 categories_cached) = Some "[2]" /\
  fst (getCachedCategories 1 3000 categories_cached) = Some "[1]".
Proof.
  destruct (categories_are_cached_per_project 2 "[2]" 2000
              (snd (setCachedCategories 1 "[1]" 1000 (fresh_state []))) categories_cached
              eq_refl eq_refl) as (H1 & H2 & _).
  split.
  - rewrite H1. reflexivity.
  - rewrite (H2 1 3000) by discriminate. reflexivity.
Defined.

(** X27.  [clearCachedCategories(projectId)] removes the entry of that project
    and no other; called with 0, as called without argument, it removes the
    categories of every project. *)
Theorem clearCachedCategories_zero_clears_all projectId k k1 :
  clearCachedCategories projectId k = (Ok tt, k1) ->
  match projectId with
  | Some id =>
      if decide (id = 0) then cached_categories (caches k1) = None
      else
        cached_categories (caches k1) =
          Some (delete id (default ∅ (cached_categories (caches k)))) /\
        forall B, default ∅ (cached_categories (caches k1)) !! B =
                  if decide (B = id) then None
                  else default ∅ (cached_categories (caches k)) !! B
  | None => cached_categories (caches k1) = None
  end /\
  cached_projects (caches k1) = cached_projects (caches k).
Proof.
  unfold clearCachedCategories.
  assert (All : truthy_id projectId = None ->
                match storage_call k with
                | (Ok _, k1) => (Ok tt, set_caches (mkCaches (cached_projects (caches k1)) None) k1)
                | (Throw e, k1) => (Throw e, log_error "Error clearing cached categories:" k1)
                end = (Ok tt, k1) ->
                cached_categories (caches k1) = None /\
                cached_projects (caches k1) = cached_projects (caches k)).
  { intros _. destruct (storage_call k) as [[u|e] k'] eqn:E; [|discriminate].
    apply storage_call_Ok_inv in E as [_ ->]. intros [= <-]. auto. }
  destruct projectId as [id|]; [|intros H; now apply All].
  destruct (decide (id = 0)) as [->|Ne]; [intros H; now apply All|].
  assert (T : truthy_id (Some id) = Some id) by (destruct id; [contradiction|reflexivity|reflexivity]).
  rewrite T. destruct (storage_call k) as [[u|e] k'] eqn:E; [|discriminate].
  apply storage_call_Ok_inv in E as [_ ->].
  destruct (storage_call _) as [[u'|e] k''] eqn:E2; [|discriminate].
  apply storage_call_Ok_inv in E2 as [_ ->]. intros [= <-]. simpl.
  split; [|reflexivity]. split; [reflexivity|].
  intros B. destruct (decide (B = id)) as [->|NB].
  - apply lookup_delete_eq.
  - now apply lookup_delete_ne.
Qed.

Lemma clearCachedCategories_zero_clears_all_witness :
  cached_categories (caches (snd (clearCachedCategories (Some 0) categories_cached))) = None.
Proof.
  exact (proj1 (clearCachedCategories_zero_clears_all (Some 0) categories_cached _ eq_refl)).
Defined.

Section HandlerFacts.

(** A read operation that finds nothing pending, and the run of its
    request. *)
Lemma settle_read_after_start r k :
  Dedup.pending (Dedup.dd (dedup (client k))) !! op_key r = None ->
  exists k1 k2,
    start_read r k = (Dedup.next (dedup (client k)), k1) /\
    caches k1 = caches k /\ world (client k1) = world (client k) /\
    Dedup.invoked (dedup (client k1)) =
      (Dedup.invoked (dedup (client k)) ++ [(op_key r, supplier r)])%list /\
    settle_read (Dedup.next (dedup (client k))) k1 =
      Some (settlement id (fst (apiRequest (op_endpoint r) get_options (world (client k)))), k2) /\
    world (client k2) = snd (apiRequest (op_endpoint r) get_options (world (client k))) /\
    caches k2 = caches k.
Proof.
  intros P. unfold start_read. rewrite call_dedupe, (dedupe_miss _ _ _ P).
  destruct (apiRequest (op_endpoint r) get_options (world (client k))) as [res w'] eqn:A.
  eexists. eexists. split; [reflexivity|]. simpl.
  split; [reflexivity|]. split; [reflexivity|]. split; [reflexivity|].
  unfold settle_read, finish. simpl. rewrite lookup_insert_eq. unfold supplier.
  rewrite A. unfold Dedup.settle. simpl. rewrite lookup_insert_eq. simpl.
  unfold Dedup.observe. simpl. rewrite lookup_insert_eq.
  split; [reflexivity|]. split; reflexivity.
Qed.

End HandlerFacts.

(** X28.  [GET_PROJECTS] with [forceRefresh], no request for the projects being
    in flight: the handler calls [getProjects], which starts one run of
    [apiRequest] for the projects.  If that run fails, the handler rejects
    with an [Error] whose message is [Failed to get projects: ] followed by
    the message of the client's error.  If it succeeds and the storage can
    be written, the handler answers [{ success: true, data }] and the
    projects are cached with the time of the answer. *)
Theorem handleGetProjects_end_to_end is_truthy now now' k :
  Dedup.pending (Dedup.dd (dedup (client k))) !! "projects:list" = None ->
  let p := Dedup.next (dedup (client k)) in
  let run := apiRequest API_ENDPOINTS_PROJECTS get_options (world (client k)) in
  exists k1 k2,
    handleGetProjects is_truthy true now k = (Waiting p, k1) /\
    settle_read p k1 = Some (settlement id (fst run), k2) /\
    world (client k2) = snd run /\
    (forall e, fst run = Throw e ->
       handleGetProjects_resumed (Rejected e) now' k2 =
         (Throw (new_Error ("Failed to get projects: " ++ message e)), k2)) /\
    (forall v, fst run = Ok v -> storage_works (snd run) = true ->
       exists k3,
         handleGetProjects_resumed (Resolved v) now' k2 = (Ok (succeeded v), k3) /\
         cached_projects (caches k3) = Some (mkCached v now')).
Proof.
  intros P p run.
  destruct (settle_read_after_start getProjects k P)
    as (k1 & k2 & S & _ & _ & _ & R & W & _).
  exists k1, k2. split.
  { unfold handleGetProjects, fetchAndCacheProjects. now rewrite S. }
  split; [exact R|]. split; [exact W|]. split.
  - intros e _. reflexivity.
  - intros v _ Sw. unfold handleGetProjects_resumed, fetchAndCacheProjects_resumed,
      setCachedProjects.
    rewrite storage_call_works by (rewrite W; exact Sw).
    eexists. split; reflexivity.
Qed.

Lemma handleGetProjects_end_to_end_witness :
  exists k1 k2,
    handleGetProjects not_null true 1000 (fresh_state []) = (Waiting 0%nat, k1) /\
    settle_read 0 k1 = Some (Rejected (new_NetworkError NETWORK_ERROR), k2) /\
    handleGetProjects_resumed (Rejected (new_NetworkError NETWORK_ERROR)) 1500 k2 =
      (Throw (new_Error ("Failed to get projects: " ++ NETWORK_ERROR)), k2).
Proof.
  destruct (handleGetProjects_end_to_end not_null 1000 1500 (fresh_state []) eq_refl)
    as (k1 & k2 & H & S & _ & F & _).
  exists k1, k2. split; [exact H|]. split; [exact S|].
  exact (F (new_NetworkError NETWORK_ERROR) eq_refl).
Defined.

(** X29.  [ADD_REFERENCE].  A payload without project id, or with project id 0,
    or without BibTeX is rejected before anything is done.  Otherwise the
    reference is posted.  If the payload names no category, the handler
    answers with the result of the post.  If it names one, the handler
    then calls [getCategories] for the project, whatever the categories
    cache holds, and waits; if that request fails, or its answer cannot be
    stored, the handler rejects with [Failed to add reference: ] and the
    message of that failure, although the reference has been added. *)
Theorem handleAddReference_reports_the_refresh is_truthy payload now k :
  (truthy_id (projectId payload) = None ->
   handleAddReference is_truthy payload now k =
     ((Finished (Throw (new_Error "Failed to add reference: Project ID is required")), None), k)) /\
  (forall id, truthy_id (projectId payload) = Some id ->
   (truthy (bibtex_raw payload) = None ->
    handleAddReference is_truthy payload now k =
      ((Finished (Throw (new_Error "Failed to add reference: BibTeX is required")), None), k)) /\
   (forall b result w,
      truthy (bibtex_raw payload) = Some b ->
      addReference id (stringified payload) (world (client k)) = (Ok result, w) ->
      (truthy (category payload) = None ->
       handleAddReference is_truthy payload now k =
         ((Finished (Ok (succeeded result)), None), set_world w k)) /\
      (forall c, truthy (category payload) = Some c ->
         handleAddReference is_truthy payload now k =
           ((Waiting (fst (start_read (getCategories id) (set_world w k))), Some result),
            snd (start_read (getCategories id) (set_world w k))) /\
         (forall e now' k2,
            handleAddReference_resumed id result (Rejected e) now' k2 =
              (Throw (new_Error ("Failed to add reference: " ++ message e)), k2)) /\
         (forall v now' k2, storage_works (world (client k2)) = false ->
            exists e k3,
              handleAddReference_resumed id result (Resolved v) now' k2 =
                (Throw (new_Error ("Failed to add reference: " ++ message e)), k3))))).
Proof.
  split.
  { intros P. unfold handleAddReference. now rewrite P. }
  intros id P. split.
  { intros B. unfold handleAddReference. now rewrite P, B. }
  intros b result w B A. split.
  { intros C. unfold handleAddReference. now rewrite P, B, A, C. }
  intros c C. split; [|split].
  - unfold handleAddReference. rewrite P, B, A, C.
    unfold fetchAndCacheCategories.
    now destruct (start_read (getCategories id) (set_world w k)).
  - intros e now' k2. reflexivity.
  - intros v now' k2 S. destruct (storage_call_fails k2 S) as [e E].
    exists e. eexists. unfold handleAddReference_resumed, fetchAndCacheCategories_resumed,
      setCachedCategories. rewrite E. reflexivity.
Qed.

Lemma handleAddReference_reports_the_refresh_witness :
  fst (handleAddReference not_null reference_with_category 1000 ready_to_add) =
    (Waiting 0%nat, Some "{}") /\
  forall k2,
    handleAddReference_resumed 7 "{}" (Rejected (new_NetworkError NETWORK_ERROR)) 2000 k2 =
      (Throw (new_Error ("Failed to add reference: " ++ NETWORK_ERROR)), k2).
Proof.
  destruct (handleAddReference_reports_the_refresh not_null reference_with_category 1000
              ready_to_add) as (_ & H).
  destruct (H 7 eq_refl) as (_ & H1).
  destruct (H1 "@article{key}" "{}"
              (snd (addReference 7 "{}" (world (client ready_to_add)))) eq_refl
              ltac:(vm_compute; reflexivity)) as (_ & H2).
  destruct (H2 "Surveys" eq_refl) as (W & R & _).
  split.
  - rewrite W. reflexivity.
  - intros k2. apply R.
Defined.

(** X30.  [GET_CATEGORIES].  Without a project id, or with project id 0, the
    handler rejects before anything is done.  For a project whose
    categories were cached at most five minutes ago it answers with them
    without calling the client; and when it has called the client and the
    request fails, it rejects with [Failed to get categories: ] and the
    message of the client's error. *)
Theorem handleGetCategories_answers_from_the_cache is_truthy A v t k k1 now :
  setCachedCategories A v t k = (Ok tt, k1) ->
  A <> 0 -> is_truthy v = true ->
  storage_works (world (client k1)) = true ->
  now <= t + 300000 ->
  handleGetCategories is_truthy (Some A) false now k1 =
    (Finished (Ok (succeeded v)), set_world (next_storage (world (client k1))) k1) /\
  (forall forceRefresh k',
     handleGetCategories is_truthy (Some 0) forceRefresh now k' =
       (Finished (Throw (new_Error "Failed to get categories: Project ID is required")), k') /\
     handleGetCategories is_truthy None forceRefresh now k' =
       (Finished (Throw (new_Error "Failed to get categories: Project ID is required")), k')) /\
  (forall e k',
     handleGetCategories_resumed A (Rejected e) now k' =
       (Throw (new_Error ("Failed to get categories: " ++ message e)), k')).
Proof.
  intros H Ne T S L. split; [|split]; [|intros; split; reflexivity|intros; reflexivity].
  assert (Tid : truthy_id (Some A) = Some A) by (destruct A; [contradiction|reflexivity..]).
  unfold handleGetCategories. rewrite Tid. unfold fetchAndCacheCategories.
  pose proof (getCachedCategories_works A now k1 S) as G.
  apply setCachedCategories_Ok_inv in H as (C & _ & _). rewrite C in G. simpl in G.
  rewrite lookup_insert_eq in G. simpl in G.
  unfold isExpired, CATEGORIES_CACHE_TIMEOUT in G.
  destruct (Z.ltb_spec (5 * 60 * 1000) (now - t)); [lia|].
  assert (W : snd (getCachedCategories A now k1) =
              set_world (next_storage (world (client k1))) k1).
  { unfold getCachedCategories. now rewrite (storage_call_works k1 S). }
  destruct (getCachedCategories A now k1) as [c k2]. simpl in G, W. subst c k2.
  now rewrite T.
Qed.

Lemma handleGetCategories_answers_from_the_cache_witness :
  fst (handleGetCategories not_null (Some 2) false 3000 categories_cached) =
    Finished (Ok (succeeded "[2]")).
Proof.
  destruct (handleGetCategories_answers_from_the_cache not_null 2 "[2]" 2000
              (snd (setCachedCategories 1 "[1]" 1000 (fresh_state []))) categories_cached 3000
              eq_refl ltac:(discriminate) eq_refl eq_refl ltac:(lia)) as (H & _).
  rewrite H. reflexivity.
Defined.
